(** * Symbol tables and traversal rules of the morloc front end

    A shallow embedding of [frontend/table.c] and of the recursion rules
    and the couplet splitter of [frontend/ws_access.c].

    The C code works on heap-allocated, singly linked structures that it
    mutates in place ([table_add], [table_join]) and it reports problems on
    [stderr], sometimes followed by [exit].  The embedding therefore keeps an
    explicit store of cells addressed by location, a log of the lines written
    to [stderr], and an outcome type that tells a normal return from a call
    of [exit] and from undefined behaviour (a dereference of [NULL], of a
    dangling pointer or of a pointer to a cell of another kind).  Loops over
    [next] links and recursive calls are bounded by a fuel argument, because
    nothing in the C types rules out a cyclic chain. *)

From stdpp Require Import base list option strings.
From Stdlib Require Import Lia.

Open Scope string_scope.
Open Scope list_scope.

#[local] Set Warnings "-register-all".

(** ** Type tags, identifiers, cells *)

(** The class tags the two files name.  [TType] and the [cls] field of a
    [W] are compared against the same constants ([T_PATH], [C_NEST], ...),
    so one enumeration serves both.  [X_OTHER] stands for every constant of
    the enumeration that these files do not name. *)
Inductive TType : Type :=
| T_PATH | T_TYPE
| C_COMPOSON | C_NEST | C_DEREF | C_MANIFOLD | C_POSITIONAL | C_GRPREF
| K_LIST | K_PATH | K_LABEL | K_NAME
| P_WS
| X_OTHER (code : nat).

#[global] Instance TType_eq_dec : EqDecision TType.
Proof. solve_decision. Defined.

(** An identifier.  [table.c] reads only the [name] field (which may be
    [NULL]); whatever else an [Id] carries is kept in [label], so that the
    comparison [id_cmp], a parameter below, may depend on it. *)
Record Id : Type := mkId { name : option string; label : option string }.

(** The payload of a manifold is opaque to this layer. *)
Inductive Manifold : Type :=
| manifold_empty
| manifold_data (descr : string).

Abbreviation loc := nat (only parsing).
(** A C pointer: [None] is [NULL]. *)
Abbreviation ptr := (option nat) (only parsing).

(** [struct Entry]: the [value] union has only pointer members, so it is one
    pointer whose target is read according to the member the code names. *)
Record Entry : Type := mkEntry {
  e_id : ptr;
  e_type : TType;
  e_value : ptr;
  e_next : ptr
}.

(** [struct Table]. *)
Record Table : Type := mkTable { t_head : ptr; t_tail : ptr }.

Inductive cell : Type :=
| CEntry (e : Entry)
| CTable (t : Table)
| CId (i : Id)
| CString (s : string)
| CManifold (m : Manifold).

Abbreviation heap := (list cell) (only parsing).

Record state : Type := mkState { mem : heap; err : list string }.

Definition set_next (e : Entry) (nx : ptr) : Entry :=
  mkEntry (e_id e) (e_type e) (e_value e) nx.

Definition set_value (e : Entry) (v : ptr) : Entry :=
  mkEntry (e_id e) (e_type e) v (e_next e).

Definition set_tail (t : Table) (tl : ptr) : Table := mkTable (t_head t) tl.

(** ** Outcomes and the monad of C computations *)

Inductive outcome (A : Type) : Type :=
| Return (a : A) (s : state)   (* the call returns *)
| Exit (s : state)             (* exit(EXIT_FAILURE) was called *)
| Fault                        (* undefined behaviour: an invalid dereference *)
| Timeout.                     (* the fuel ran out *)
Arguments Return {A} a s.
Arguments Exit {A} s.
Arguments Fault {A}.
Arguments Timeout {A}.

Definition M (A : Type) : Type := state -> outcome A.

Definition ret {A} (a : A) : M A := fun s => Return a s.

Definition bind {A B} (m : M A) (k : A -> M B) : M B :=
  fun s =>
    match m s with
    | Return a s' => k a s'
    | Exit s' => Exit s'
    | Fault => Fault
    | Timeout => Timeout
    end.

Declare Scope cmd_scope.
Delimit Scope cmd_scope with cmd.
Notation "'let*' x := c 'in' k" := (bind c (fun x => k))
  (at level 10, x name, c at level 100, k at level 200) : cmd_scope.
Notation "c ;; k" := (bind c (fun _ => k))
  (at level 100, k at level 200, right associativity) : cmd_scope.
Open Scope cmd_scope.

Definition fault {A} : M A := fun _ => Fault.
Definition timeout {A} : M A := fun _ => Timeout.

(** [exit(EXIT_FAILURE)] *)
Definition exit_failure {A} : M A := fun s => Exit s.

(** [fprintf(stderr, ...)]: the line is kept without its final newline. *)
Definition eprint (msg : string) : M unit :=
  fun s => Return tt (mkState (mem s) (err s ++ [msg])).

Definition load (p : ptr) : M cell :=
  fun s =>
    match p with
    | None => Fault
    | Some l => match mem s !! l with Some c => Return c s | None => Fault end
    end.

Definition load_entry (p : ptr) : M Entry :=
  let* c := load p in match c with CEntry e => ret e | _ => fault end.

Definition load_table (p : ptr) : M Table :=
  let* c := load p in match c with CTable t => ret t | _ => fault end.

Definition load_id (p : ptr) : M Id :=
  let* c := load p in match c with CId i => ret i | _ => fault end.

Definition load_string (p : ptr) : M string :=
  let* c := load p in match c with CString x => ret x | _ => fault end.

Definition store (p : ptr) (c : cell) : M unit :=
  fun s =>
    match p with
    | None => Fault
    | Some l =>
        if decide (l < length (mem s))
        then Return tt (mkState (<[l:=c]> (mem s)) (err s))
        else Fault
    end.

(** [malloc] followed by the initialisation of the new cell. *)
Definition alloc (c : cell) : M ptr :=
  fun s => Return (Some (length (mem s))) (mkState (mem s ++ [c]) (err s)).

(** ** [table.c]: construction *)

(** Modelled from the spec: [entry_isolate] is declared in [entry.h], whose
    implementation is not part of the sources.  The specification calls its
    result an isolated copy, a private single-node view: a new entry with the
    fields of the original and no successor.  [NULL] is isolated to [NULL]. *)
Definition entry_isolate (entry : ptr) : M ptr :=
  match entry with
  | None => ret None
  | Some _ => let* e := load_entry entry in alloc (CEntry (set_next e None))
  end.

(** Modelled from the spec: [entry_new(id, type, value)] of [entry.h]
    allocates an entry with the three fields given and no successor. *)
Definition entry_new (id : ptr) (type : TType) (value : ptr) : M ptr :=
  alloc (CEntry (mkEntry id type value None)).

(** [malloc] gives a cell whose fields are not initialised; both are
    written before they are read, and stand as [NULL] until then. *)
Definition table_new (entry : ptr) : M ptr :=
  let* t := alloc (CTable (mkTable None None)) in
  let* e := entry_isolate entry in
  let* tb := load_table t in
  store t (CTable (mkTable e (t_tail tb))) ;;
  let* tb := load_table t in
  store t (CTable (set_tail tb e)) ;;
  ret t.

(* checkless attachment *)
Definition _retail (t : ptr) (e : ptr) : M unit :=
  let* tb := load_table t in
  let* last := load_entry (t_tail tb) in
  store (t_tail tb) (CEntry (set_next last e)) ;;
  let* tb := load_table t in
  store t (CTable (set_tail tb e)).

(* no copy constructor, no reset *)
Definition _table_new (e : ptr) : M ptr :=
  alloc (CTable (mkTable e e)).

Definition msg_tailless : string := "WARNING: cannot add to tailless table".

Definition table_add (table : ptr) (entry : ptr) : M ptr :=
  let* e := entry_isolate entry in
  match table with
  | None => _table_new e
  | Some _ =>
      let* tb := load_table table in
      match t_tail tb with
      | Some _ => _retail table e ;; ret table
      | None => eprint msg_tailless ;; ret table
      end
  end.

Definition _join (a b : ptr) : M unit :=
  let* ta := load_table a in
  let* tb := load_table b in
  let* last := load_entry (t_tail ta) in
  store (t_tail ta) (CEntry (set_next last (t_head tb))) ;;
  let* ta := load_table a in
  let* tb := load_table b in
  store a (CTable (set_tail ta (t_tail tb))).

(** [p && p->head] *)
Definition has_head (p : ptr) : M bool :=
  match p with
  | None => ret false
  | Some _ => let* t := load_table p in ret (bool_decide (t_head t ≠ None))
  end.

Definition table_join (a b : ptr) : M ptr :=
  let* hb := has_head b in
  if hb then
    let* ha := has_head a in
    if ha then _join a b ;; ret a else ret b
  else ret a.

(** ** [table.c]: lookup, clone, composon inputs and outputs *)

Definition is_recursive (type : TType) : bool :=
  bool_decide (type = T_PATH) ||
  bool_decide (type = C_COMPOSON) ||
  bool_decide (type = C_NEST).

(** [for(Entry* e = first; e; e = e->next) body]: [body] receives the
    pointer [e] and the value of the accumulator ([out], [clone], [result])
    and returns its new value; [e->next] is read after the body has run. *)
Fixpoint for_entries {A} (fuel : nat) (e : ptr) (acc : A)
    (body : ptr -> A -> M A) : M A :=
  match e with
  | None => ret acc
  | Some _ =>
      match fuel with
      | 0 => timeout
      | S n =>
          let* acc' := body e acc in
          let* ent := load_entry e in
          for_entries n (e_next ent) acc' body
      end
  end.

(** Modelled from the spec: [struct Path] and [path_is_base] are declared
    in a header that is not part of the sources.  A path is an ordered
    sequence of identifier segments and its last segment is the base, so
    [path_is_base] holds when there is no next segment. *)
Inductive Path : Type :=
| path_base (id : ptr)
| path_cons (id : ptr) (next : Path).

Definition path_id (p : Path) : ptr :=
  match p with path_base i | path_cons i _ => i end.
Definition path_next (p : Path) : option Path :=
  match p with path_base _ => None | path_cons _ n => Some n end.
Definition path_is_base (p : Path) : bool :=
  match p with path_base _ => true | path_cons _ _ => false end.

(** Modelled from the spec: [id_clone] makes a new [Id] (cloning produces
    new Ids); the clone of [NULL] is [NULL]. *)
Definition id_clone (id : ptr) : M ptr :=
  match id with
  | None => ret None
  | Some _ => let* i := load_id id in alloc (CId i)
  end.

(** Modelled from the spec: [manifold_new] gives a fresh empty manifold. *)
Definition manifold_new : M ptr := alloc (CManifold manifold_empty).

(** [strdup] of the C library; its argument must not be [NULL]. *)
Definition strdup (p : ptr) : M ptr :=
  let* x := load_string p in alloc (CString x).

(** [eclone->value.member = v] *)
Definition assign_value (e : ptr) (v : ptr) : M unit :=
  let* ent := load_entry e in store e (CEntry (set_value ent v)).

Definition msg_clone : string :=
  "ERROR: can't clone this; will only clone paths".
Definition msg_composon : string :=
  "ERROR: input must be a composon in table_composon_{in/out}puts, returning NULL.".
Definition msg_grpref : string :=
  "Unresolved group reference at _table_composon_io::131".
Definition msg_illegal : string := "Illegal type in composition".

(** [TCMP(e, t)] *)
Definition TCMP (e : ptr) (t : TType) : M bool :=
  match e with
  | None => ret false
  | Some _ => let* ent := load_entry e in ret (bool_decide (e_type ent = t))
  end.

Section Lookup.

(** [id_cmp] is declared in [id.h]; its implementation is not part of the
    sources.  It is taken as a parameter on the contents of the two
    identifiers, which [STCMP] and [SCMP] only pass when both pointers are
    not [NULL]. *)
Variable id_cmp : Id -> Id -> bool.

(** [STCMP] tests its type argument for being non-zero.  The numeric values
    of the enumeration are declared in a header that is not part of the
    sources, so the test is a parameter. *)
Variable type_nonzero : TType -> bool.

(** [STCMP(e, i, t)] *)
Definition STCMP (e : ptr) (i : ptr) (t : TType) : M bool :=
  let* ent := load_entry e in
  match e_id ent, i with
  | Some _, Some _ =>
      if type_nonzero t then
        let* a := load_id (e_id ent) in
        let* b := load_id i in
        ret (id_cmp a b && bool_decide (e_type ent = t))
      else ret false
  | _, _ => ret false
  end.

(** [SCMP(e, i)] *)
Definition SCMP (e : ptr) (i : ptr) : M bool :=
  let* ent := load_entry e in
  match e_id ent, i with
  | Some _, Some _ =>
      let* a := load_id (e_id ent) in
      let* b := load_id i in
      ret (id_cmp a b)
  | _, _ => ret false
  end.

(** [!(e->id && e->id->name)] *)
Definition is_anonymous (e : ptr) : M bool :=
  let* ent := load_entry e in
  match e_id ent with
  | None => ret true
  | Some _ => let* i := load_id (e_id ent) in ret (bool_decide (name i = None))
  end.

Definition table_get (fuel : nat) (table id : ptr) (type : TType) : M ptr :=
  let* t := load_table table in
  for_entries fuel (t_head t) None (fun e out =>
    let* m := STCMP e id type in
    if m then table_add out e else ret out).

Fixpoint table_recursive_get (fuel : nat) (table id : ptr) (type : TType)
    : M ptr :=
  match fuel with
  | 0 => timeout
  | S n =>
      let* t := load_table table in
      for_entries n (t_head t) None (fun e out =>
        let* m := STCMP e id type in
        let* out := (if m then table_add out e else ret out) in
        let* ent := load_entry e in
        if is_recursive (e_type ent) then
          let* sub := table_recursive_get n (e_value ent) id type in
          table_join out sub
        else ret out)
  end.

Fixpoint table_path_get (fuel : nat) (table : ptr) (path : Path)
    (type : TType) : M ptr :=
  let* nonempty := has_head table in
  if negb nonempty then ret None else
  match fuel with
  | 0 => timeout
  | S n =>
      let* t := load_table table in
      for_entries n (t_head t) None (fun e out =>
        if path_is_base path then
          let* m := STCMP e (path_id path) type in
          let* out := (if m then table_add out e else ret out) in
          let* ent := load_entry e in
          if is_recursive (e_type ent) then
            let* sub :=
              table_recursive_get n (e_value ent) (path_id path) type in
            table_join out sub
          else ret out
        else
          let* ent := load_entry e in
          if is_recursive (e_type ent) then
            let* anon := is_anonymous e in
            let* go := (if anon then ret true else SCMP e (path_id path)) in
            if go then
              match path_next path with
              | None => fault
              | Some rest =>
                  let* sub := table_path_get n (e_value ent) rest type in
                  table_join out sub
              end
            else ret out
          else ret out)
  end.

End Lookup.

Fixpoint table_clone (fuel : nat) (table : ptr) : M ptr :=
  match table with
  | None => ret None
  | Some _ =>
      match fuel with
      | 0 => timeout
      | S n =>
          let* t := load_table table in
          for_entries n (t_head t) None (fun e clone =>
            let* ent := load_entry e in
            let* id := id_clone (e_id ent) in
            let type := e_type ent in
            let* eclone := entry_new id type None in
            match type with
            | T_PATH | C_COMPOSON | C_NEST | C_DEREF =>
                let* sub := table_clone n (e_value ent) in
                assign_value eclone sub
            | C_MANIFOLD =>
                let* m := manifold_new in
                assign_value eclone m
            | C_POSITIONAL | C_GRPREF =>
                let* x := strdup (e_value ent) in
                assign_value eclone x
            | _ => eprint msg_clone ;; exit_failure
            end ;;
            table_add clone eclone)
      end
  end.

Fixpoint _table_composon_io (fuel : nat) (entry : ptr) (is_input : bool)
    : M ptr :=
  match entry with
  | None => ret None
  | Some _ =>
      let* c := TCMP entry C_COMPOSON in
      let* n := TCMP entry C_NEST in
      if negb (c || n) then eprint msg_composon ;; ret None else
      match fuel with
      | 0 => timeout
      | S k =>
          let* ent := load_entry entry in
          let* t := load_table (e_value ent) in
          for_entries k (t_head t) None (fun e result =>
            let* x := load_entry e in
            match e_type x with
            | C_MANIFOLD | C_POSITIONAL | C_DEREF => table_add result e
            | T_PATH | C_NEST =>
                (* output comes from the first (outermost) composon of the
                   nested expression, input goes to the last (innermost) *)
                let* sub := load_table (e_value x) in
                let ne := if is_input then t_tail sub else t_head sub in
                let* r := _table_composon_io k ne is_input in
                table_join result r
            | C_GRPREF => eprint msg_grpref ;; ret result
            | _ => eprint msg_illegal ;; ret result
            end)
      end
  end.

Definition table_composon_outputs (fuel : nat) (entry : ptr) : M ptr :=
  _table_composon_io fuel entry false.

Definition table_composon_inputs (fuel : nat) (entry : ptr) : M ptr :=
  _table_composon_io fuel entry true.


(** ** [ws_access.c]: nodes, the couplet splitter, the path-aware rule *)

(** Modelled from the spec: [struct Label] is declared in a header that is
    not part of the sources; [label_new_set(name, label)] shows its two
    string fields. *)
Record Label : Type := mkLabel { l_name : option string; l_label : option string }.

(** Modelled from the spec: [W] and [Ws] are declared in [ws.h], which is
    not part of the sources.  A node carries a class tag and a payload of
    one of three shapes: a nested sequence of nodes, a couplet of a
    left-hand and a right-hand node, or a terminal (a string, a label, or
    an opaque manifold).  A sequence is an ordered chain of nodes and the
    empty sequence is the null pointer, so [Ws*] is a list here and [NULL]
    is the empty list.  The functions below never write into a node they
    did not copy first, so nodes are values. *)
Inductive W : Type :=
| W_none (cls : TType)
| W_string (cls : TType) (x : string)
| W_label (cls : TType) (lab : Label)
| W_manifold (cls : TType) (m : Manifold)
| W_ws (cls : TType) (ws : list W)
| W_couplet (cls : TType) (lhs rhs : W).

Inductive VType : Type :=
| V_NONE | V_STRING | V_LABEL | V_MANIFOLD | V_WS | V_COUPLET.

#[global] Instance VType_eq_dec : EqDecision VType.
Proof. solve_decision. Defined.

(** [w->cls] *)
Definition cls (w : W) : TType :=
  match w with
  | W_none c | W_string c _ | W_label c _ | W_manifold c _
  | W_ws c _ | W_couplet c _ _ => c
  end.

(** The shape of the payload, which [get_value_type] derives from the
    class in the C code. *)
Definition value_type (w : W) : VType :=
  match w with
  | W_none _ => V_NONE
  | W_string _ _ => V_STRING
  | W_label _ _ => V_LABEL
  | W_manifold _ _ => V_MANIFOLD
  | W_ws _ _ => V_WS
  | W_couplet _ _ _ => V_COUPLET
  end.

(** Modelled from the spec: the accessors of [ws.h].  Each takes a node
    pointer, which may be [NULL], and gives the payload when the node has
    the shape asked for and [NULL] otherwise. *)
Definition g_lhs (w : option W) : option W :=
  match w with Some (W_couplet _ l _) => Some l | _ => None end.
Definition g_rhs (w : option W) : option W :=
  match w with Some (W_couplet _ _ r) => Some r | _ => None end.
Definition g_ws (w : option W) : list W :=
  match w with Some (W_ws _ l) => l | _ => [] end.
Definition g_string (w : option W) : option string :=
  match w with Some (W_string _ x) => Some x | _ => None end.
Definition g_label (w : option W) : option Label :=
  match w with Some (W_label _ lab) => Some lab | _ => None end.

(** Modelled from the spec: [s_lhs(w, l)] sets the left-hand side of a
    couplet. *)
Definition s_lhs (w : W) (l : W) : W :=
  match w with W_couplet c _ r => W_couplet c l r | _ => w end.

(** Modelled from the spec: [ws_add] appends an isolated copy of the node
    at the tail; [ws_length] counts the nodes. *)
Definition ws_add (ws : list W) (w : W) : list W := ws ++ [w].
Definition ws_length (ws : list W) : nat := length ws.

(** Modelled from the spec: [label_new_set(name, label)]. *)
Definition label_new_set (name label : option string) : option Label :=
  Some (mkLabel name label).

Definition msg_invalid_lhs : string :=
  "ERROR: invalid lhs type in couplet (ws_split_couplet:56)".
Definition msg_klist : string :=
  "Recursion into K_LIST not supported (_ws_get_label_from_lhs:181)".
Definition msg_illegal_lhs : string :=
  "Illegal left hand side (_ws_get_label_from_lhs:185)".

Definition ws_split_couplet (c : W) : M (list W) :=
  match g_lhs (Some c) with
  | None => fault
  | Some paths =>
      match cls paths with
      | K_LIST =>
          match g_ws (Some paths) with
          | [] => fault  (* g_ws(paths)->head on the null sequence *)
          | ps =>
              ret (foldl (fun result p =>
                            (* nc is a copy of c, so s_lhs does not change c *)
                            let nc := s_lhs c p in
                            ws_add result nc) [] ps)
          end
      | K_PATH | K_LABEL | K_NAME => ret (ws_add [] c)
      | _ => eprint msg_invalid_lhs ;; ret []
      end
  end.

Definition _ws_get_label_from_lhs (a : option W) : M (option Label) :=
  match a with
  | None => ret None
  | Some x =>
      match cls x with
      | K_NAME =>
          match g_string a with
          | Some nm => ret (label_new_set (Some nm) None)
          | None => fault  (* strdup(NULL) *)
          end
      | K_LABEL => ret (g_label a)
      | K_PATH =>
          match g_ws a with
          | [] => ret None
          | first :: _ => ret (g_label (Some first))
          end
      | K_LIST => eprint msg_klist ;; ret None
      | _ => eprint msg_illegal_lhs ;; ret None
      end
  end.

Section PathRule.

(** [label_cmp] is declared in a header that is not part of the sources;
    it is a parameter on two label pointers, either of which may be
    [NULL]. *)
Variable label_cmp : option Label -> option Label -> bool.

(** What [w_assert_type] does when the node has not the shape asked for is
    not in the sources either. *)
Variable assert_failure : M unit.

Definition w_assert_type (w : W) (t : VType) : M unit :=
  if bool_decide (value_type w = t) then ret tt else assert_failure.

Definition ws_cmp_lhs (a b : W) : M bool :=
  let* a_label := _ws_get_label_from_lhs (g_lhs (Some a)) in
  let* b_label := _ws_get_label_from_lhs (g_lhs (Some b)) in
  ret (label_cmp a_label b_label).

Definition ws_recurse_path (w p : W) : M (list W) :=
  w_assert_type p V_COUPLET ;;
  match cls w with
  | C_NEST => ret (g_ws (Some w))
  | T_PATH =>
      if bool_decide (ws_length (g_ws (g_lhs (Some p))) = 1)
      then ret (g_ws (g_rhs (Some w)))
      else
        let* same := ws_cmp_lhs w p in
        if same then ret (g_ws (g_rhs (Some w))) else ret []
  | _ => ret []
  end.

End PathRule.

(** ** [table.c]: lookup by type and lookup of a selection *)

Fixpoint table_recursive_get_type (fuel : nat) (table : option nat)
    (type : TType) : M (option nat) :=
  match fuel with
  | 0 => timeout
  | S n =>
      let* t := load_table table in
      for_entries n (t_head t) None (fun e out =>
        let* m := TCMP e type in
        let* out := (if m then table_add out e else ret out) in
        let* ent := load_entry e in
        if is_recursive (e_type ent) then
          let* down := table_recursive_get_type n (e_value ent) type in
          table_join out down
        else ret out)
  end.

Section Selection.

Variable id_cmp : Id -> Id -> bool.
Variable type_nonzero : TType -> bool.

(** Modelled from the spec: [struct Selection] is declared in a header that
    is not part of the sources; it is an ordered sequence of paths, read
    through [s->path] and [s->next], and [NULL] is the empty selection.
    The loop [for(Selection* s = selection; s; s = s->next)] with its
    accumulator [out]: *)
Fixpoint for_selection (fuel : nat) (table : option nat) (s : list Path)
    (type : TType) (out : option nat) : M (option nat) :=
  match s with
  | [] => ret out
  | path :: next =>
      let* b := table_path_get id_cmp type_nonzero fuel table path type in
      let* out := table_join out b in
      for_selection fuel table next type out
  end.

Definition table_selection_get (fuel : nat) (table : option nat)
    (selection : list Path) (type : TType) : M (option nat) :=
  for_selection fuel table selection type None.

End Selection.

(** ** [ws_access.c]: criteria and recursion rules *)

Definition w_is_tpath (w : option W) : bool :=
  match w with Some x => bool_decide (cls x = T_PATH) | None => false end.
Definition w_is_manifold (w : option W) : bool :=
  match w with Some x => bool_decide (cls x = C_MANIFOLD) | None => false end.
Definition w_is_type (w : option W) : bool :=
  match w with Some x => bool_decide (cls x = T_TYPE) | None => false end.
Definition w_is_composon (w : option W) : bool :=
  match w with Some x => bool_decide (cls x = C_COMPOSON) | None => false end.
Definition w_keep_all (w : option W) : bool := true.

(** Modelled from the spec: [ws_add_val(ws, cls, value)] of [ws.h] appends
    a new node of class [cls] that holds the sequence [value]. *)
Definition ws_add_val (ws : list W) (c : TType) (value : list W) : list W :=
  ws ++ [W_ws c value].

Section RecursionRules.

(** [w_is_recursive] is declared in [ws.h]; it is a parameter. *)
Variable w_is_recursive : option W -> bool.

Definition ws_recurse_most (w : option W) : list W :=
  match w with
  | None => []
  | Some x =>
      match value_type x with
      | V_WS => ws_add_val [] P_WS (g_ws w)
      | V_COUPLET =>
          let lhs := g_lhs w in
          let rs := if w_is_recursive lhs then ws_add_val [] P_WS (g_ws lhs) else [] in
          let rhs := g_rhs w in
          if w_is_recursive rhs then ws_add_val rs P_WS (g_ws rhs) else rs
      | _ => []
      end
  end.

End RecursionRules.

Definition ws_recurse_ws (w : option W) : list W :=
  match w with
  | None => []
  | Some x =>
      match value_type x with
      | V_WS => ws_add_val [] P_WS (g_ws w)
      | _ => []
      end
  end.

Definition ws_recurse_none (w : option W) : list W := [].

Definition ws_recurse_composition (w : option W) : list W :=
  match w with
  | None => []
  | Some x =>
      match cls x with
      | C_COMPOSON | C_NEST | C_DEREF => ws_add_val [] C_NEST (g_ws w)
      | T_PATH => ws_add_val [] C_NEST (g_ws (g_rhs w))
      | _ => []
      end
  end.

(** ** [table.c]: printing a table *)

Section Dump.

(** [entry_print] is declared in [entry.h]; its implementation is not part
    of the sources.  It is taken as a parameter: what it writes to the
    standard output for the entry at a location of the store. *)
Variable entry_print : list cell -> ptr -> list string.

(** The standard output is the sequence of the strings written so far,
    one for each call of [printf]; it is passed along as [out].  A line
    that ends the output of a call is kept without its final newline. *)
Definition dump_rule : string := " ------------------------------------------- ".

(** [for(int i = 0; i < depth; i++)] with its two branches *)
Definition indentation (depth : nat) : list string :=
  (fun i => if Nat.even i then "  " else ". ") <$> seq 0 depth.

Fixpoint _table_dump_r (fuel : nat) (table : ptr) (depth : nat)
    (out : list string) : M (bool * list string) :=
  match table with
  | None => ret (false, out)
  | Some _ =>
      match fuel with
      | 0 => timeout
      | S n =>
          let* t := load_table table in
          let* out := for_entries n (t_head t) out (fun e out =>
            let out := out ++ indentation depth in
            let* printed := (fun s => Return (entry_print (mem s) e) s) in
            let out := out ++ printed in
            let* ent := load_entry e in
            if is_recursive (e_type ent) then
              let* r := _table_dump_r n (e_value ent) (depth + 1) out in
              ret r.2
            else ret out) in
          ret (true, out)
      end
  end.

Definition table_dump (fuel : nat) (table : ptr) (out : list string)
    : M (list string) :=
  let out := out ++ [dump_rule] in
  let* r := _table_dump_r fuel table 0 out in
  ret (r.2 ++ [dump_rule]).

End Dump.
(** ** Tables as sequences of entry cells *)

(** The cells of a chain of entries, each with its location. *)
Abbreviation ecells := (list (nat * Entry)) (only parsing).

(** The location of the first cell, or [q] when there is none. *)
Definition first_ptr (es : ecells) (q : ptr) : ptr :=
  match es with
  | [] => q
  | le :: _ => Some le.1
  end.

Definition hd_ptr (es : ecells) : ptr := first_ptr es None.
Definition last_ptr (es : ecells) : ptr := fst <$> last es.

(** A list segment: each entry's [next] is the location of its successor
    in the list, and the [next] of the last one is [q]. *)
Fixpoint lseg (es : ecells) (q : ptr) : Prop :=
  match es with
  | [] => True
  | le :: r => e_next le.2 = first_ptr r q /\ lseg r q
  end.

(** A complete chain ends in [NULL]. *)
Definition linked (es : ecells) : Prop := lseg es None.

(** All cells are in the heap, at locations not below [lo]. *)
Definition stored (lo : nat) (h : heap) (es : ecells) : Prop :=
  Forall (fun le => lo <= le.1 /\ h !! le.1 = Some (CEntry le.2)) es.

(** The table cell at [t] heads the chain [es] and its [tail] is the last
    entry of the chain. *)
Record is_table (lo : nat) (h : heap) (t : loc) (es : ecells) : Prop := {
  it_lo : lo <= t;
  it_cell : h !! t = Some (CTable (mkTable (hd_ptr es) (last_ptr es)));
  it_linked : linked es;
  it_stored : stored lo h es;
  it_nodup : NoDup es.*1
}.

(** An entry up to its link: what a sequence of entries is compared by. *)
Definition fields (e : Entry) : Entry := set_next e None.

Definition contents (es : ecells) : list Entry := fields <$> es.*2.

(** A table pointer ([NULL] or not) holding the entry cells [es]. *)
Definition table_cells (lo : nat) (h : heap) (p : ptr) (es : ecells) : Prop :=
  match p with
  | None => es = []
  | Some t => is_table lo h t es
  end.

(** Two chains share no cell. *)
Definition apart (ea eb : ecells) : Prop :=
  forall x, x ∈ ea.*1 -> x ∈ eb.*1 -> False.

(** The flattened entry sequence of a chain: which cells, in which order,
    holding which entries (up to the links). *)
Definition entry_seq (es : ecells) : list (nat * Entry) :=
  (fun le => (le.1, fields le.2)) <$> es.

(** ** Tables as trees *)

(** What the [value] pointer of an entry leads to, when it is not a table. *)
Inductive pay : Type :=
| PNull                      (* value is NULL *)
| PStr (x : string)          (* value.string *)
| PMan (m : Manifold)        (* value.manifold *)
| PAny.                      (* value is not looked at *)

(** The tree a table unfolds to: every node is an entry cell, with its
    location, its fields, the identifier its [id] points to (if any) and
    what its [value] points to: a nested table with its entries ([ETab])
    or something else ([ELeaf]). *)
Inductive etree : Type :=
| ELeaf (l : nat) (e : Entry) (i : option Id) (p : pay)
| ETab (l : nat) (e : Entry) (i : option Id) (sub : list etree).

Definition node_loc (t : etree) : nat :=
  match t with ELeaf l _ _ _ | ETab l _ _ _ => l end.
Definition node_entry (t : etree) : Entry :=
  match t with ELeaf _ e _ _ | ETab _ e _ _ => e end.
Definition node_id (t : etree) : option Id :=
  match t with ELeaf _ _ i _ | ETab _ _ i _ => i end.
Definition node_type (t : etree) : TType := e_type (node_entry t).
Definition node_sub (t : etree) : list etree :=
  match t with ELeaf _ _ _ _ => [] | ETab _ _ _ sub => sub end.

Definition cells_of (ts : list etree) : list (nat * Entry) :=
  (fun t => (node_loc t, node_entry t)) <$> ts.

(** An identifier pointer and the identifier it leads to. *)
Definition rep_id (lo : nat) (h : list cell) (p : option nat) (i : option Id) : Prop :=
  match p, i with
  | None, None => True
  | Some l, Some v => lo <= l /\ h !! l = Some (CId v)
  | _, _ => False
  end.

Definition rep_pay (lo : nat) (h : list cell) (v : option nat) (p : pay) : Prop :=
  match p with
  | PNull => v = None
  | PStr x => exists l, v = Some l /\ lo <= l /\ h !! l = Some (CString x)
  | PMan m => exists l, v = Some l /\ lo <= l /\ h !! l = Some (CManifold m)
  | PAny => True
  end.

(** The store holds the tree [t] (below its own cell, which the chain it
    belongs to accounts for), in cells at locations not below [lo]. *)
Fixpoint rep (lo : nat) (h : list cell) (t : etree) {struct t} : Prop :=
  match t with
  | ELeaf l e i p => rep_id lo h (e_id e) i /\ rep_pay lo h (e_value e) p
  | ETab l e i sub =>
      rep_id lo h (e_id e) i /\
      (exists t, e_value e = Some t /\ is_table lo h t (cells_of sub)) /\
      (fix all (ts : list etree) : Prop :=
         match ts with
         | [] => True
         | x :: r => rep lo h x /\ all r
         end) sub
  end.

(** The table pointer [p] holds the forest [ts]. *)
Definition rep_table (lo : nat) (h : list cell) (p : option nat) (ts : list etree) : Prop :=
  table_cells lo h p (cells_of ts) /\ Forall (rep lo h) ts.

(** The number of entries of a forest; fuel beyond it is enough for every
    traversal below. *)
Fixpoint weight (t : etree) : nat :=
  match t with
  | ELeaf _ _ _ _ => 1
  | ETab _ _ _ sub =>
      S ((fix sum (ts : list etree) : nat :=
            match ts with
            | [] => 0
            | x :: r => weight x + sum r
            end) sub)
  end.

Definition weights (ts : list etree) : nat := sum_list (weight <$> ts).

Section LookupSpec.

Variable id_cmp : Id -> Id -> bool.
Variable type_nonzero : TType -> bool.

(** What [STCMP] computes on an entry with identifier [a] and type [ty],
    for the key identifier [b] and the key type [t]. *)
Definition stcmp (a b : option Id) (ty t : TType) : bool :=
  match a, b with
  | Some x, Some y => type_nonzero t && (id_cmp x y && bool_decide (ty = t))
  | _, _ => false
  end.

Definition scmp (a b : option Id) : bool :=
  match a, b with
  | Some x, Some y => id_cmp x y
  | _, _ => false
  end.

Definition anonymous (a : option Id) : bool :=
  match a with
  | Some x => bool_decide (name x = None)
  | None => true
  end.

Definition matches (key : option Id) (t : TType) (x : etree) : bool :=
  stcmp (node_id x) key (node_type x) t.

(** The matching entries of a tree in pre-order, where the nested table of
    an entry is searched when [descend] holds of its type. *)
Fixpoint preorder_get (descend : TType -> bool) (key : option Id) (t : TType)
    (x : etree) {struct x} : list etree :=
  (if matches key t x then [x] else []) ++
  match x with
  | ELeaf _ _ _ _ => []
  | ETab _ e _ sub =>
      if descend (e_type e) then
        (fix go (ts : list etree) : list etree :=
           match ts with
           | [] => []
           | y :: r => preorder_get descend key t y ++ go r
           end) sub
      else []
  end.

Definition preorder_gets (descend : TType -> bool) (key : option Id) (t : TType)
    (ts : list etree) : list etree :=
  concat (preorder_get descend key t <$> ts).

End LookupSpec.

(** Every entry whose nested table a lookup enters has one. *)
Fixpoint searchable (x : etree) : Prop :=
  match x with
  | ELeaf _ e _ _ => is_recursive (e_type e) = false
  | ETab _ e _ sub =>
      is_recursive (e_type e) = true ->
      (fix all (ts : list etree) : Prop :=
         match ts with
         | [] => True
         | y :: r => searchable y /\ all r
         end) sub
  end.

(** The accumulator of a lookup ([out], [result]) while the store grew
    from [h0] to [h]: [NULL], or a non-empty table all of whose cells were
    allocated after [h0]; [acc] lists the entries it holds, up to links. *)
Definition collected (h0 h : list cell) (out : option nat) (acc : list Entry) : Prop :=
  h0 `prefix_of` h /\
  exists es, contents es = acc /\
    match out with
    | None => es = []
    | Some t => es <> [] /\ is_table (length h0) h t es
    end.

(** The entries of a list of nodes, up to links: what a lookup that found
    these nodes holds in its result. *)
Definition found (ts : list etree) : list Entry :=
  (fun x => fields (node_entry x)) <$> ts.

(** What [table_recursive_get] with fuel [n] does on a well-formed table
    whose forest has fewer than [n] entries. *)
Definition rget_ok (id_cmp : Id -> Id -> bool) (type_nonzero : TType -> bool)
    (n : nat) (key : option nat) (kv : option Id) (ty : TType) : Prop :=
  forall ts h t lg,
    rep_table 0 h (Some t) ts -> Forall searchable ts -> rep_id 0 h key kv ->
    weights ts < n ->
    exists out h',
      table_recursive_get id_cmp type_nonzero n (Some t) key ty (mkState h lg)
        = Return out (mkState h' lg)
      /\ collected h h' out
           (found (preorder_gets id_cmp type_nonzero is_recursive kv ty ts)).

(** The identifiers a path's segments point to. *)
Inductive PathV : Type :=
| pathv_base (i : option Id)
| pathv_cons (i : option Id) (rest : PathV).

Fixpoint rep_path (h : list cell) (p : Path) (pv : PathV) : Prop :=
  match p, pv with
  | path_base i, pathv_base v => rep_id 0 h i v
  | path_cons i r, pathv_cons v rv => rep_id 0 h i v /\ rep_path h r rv
  | _, _ => False
  end.

Section PathSpec.

Variable id_cmp : Id -> Id -> bool.
Variable type_nonzero : TType -> bool.

(** Path-qualified lookup as the specification words it.  At the base
    segment: the entries of this level that match the segment and the
    type, each followed by the result of the recursive search by id inside
    it when its type is recursive.  Before the base: the lookup of the rest
    of the path inside every entry of recursive type that is anonymous or
    whose id matches the current segment. *)
Fixpoint path_gets (pv : PathV) (ty : TType) (ts : list etree) {struct pv}
    : list etree :=
  match pv with
  | pathv_base k =>
      concat ((fun x =>
        (if matches id_cmp type_nonzero k ty x then [x] else []) ++
        (if is_recursive (node_type x)
         then preorder_gets id_cmp type_nonzero is_recursive k ty (node_sub x)
         else [])) <$> ts)
  | pathv_cons k rest =>
      concat ((fun x =>
        if is_recursive (node_type x) &&
           (anonymous (node_id x) || scmp id_cmp (node_id x) k)
        then path_gets rest ty (node_sub x)
        else []) <$> ts)
  end.

Definition pget_ok (n : nat) (ty : TType) : Prop :=
  forall p pv ts h tp lg,
    rep_table 0 h tp ts -> Forall searchable ts -> rep_path h p pv ->
    weights ts < n ->
    exists out h',
      table_path_get id_cmp type_nonzero n tp p ty (mkState h lg)
        = Return out (mkState h' lg)
      /\ collected h h' out (found (path_gets pv ty ts)).

End PathSpec.

(** All the nodes of a tree in pre-order, where the nested table of an
    entry is entered when [descend] holds of its type. *)
Fixpoint flatten_by (descend : TType -> bool) (x : etree) {struct x} : list etree :=
  x ::
  match x with
  | ELeaf _ _ _ _ => []
  | ETab _ e _ sub =>
      if descend (e_type e) then
        (fix go (ts : list etree) : list etree :=
           match ts with
           | [] => []
           | y :: r => flatten_by descend y ++ go r
           end) sub
      else []
  end.

Definition flattens_by (descend : TType -> bool) (ts : list etree) : list etree :=
  concat (flatten_by descend <$> ts).

(** The four types the specification calls recursive. *)
Definition holds_table (type : TType) : bool :=
  bool_decide (type = T_PATH) || bool_decide (type = C_COMPOSON) ||
  bool_decide (type = C_NEST) || bool_decide (type = C_DEREF).
(** Composon inputs and outputs as the specification words them: the
    entries contributed and the diagnostics reported, in order. *)
Definition is_composon_or_nest (type : TType) : bool :=
  bool_decide (type = C_COMPOSON) || bool_decide (type = C_NEST).

Fixpoint composon_io (is_input : bool) (x : etree) {struct x}
    : list etree * list string :=
  if negb (is_composon_or_nest (node_type x)) then ([], [msg_composon]) else
  match x with
  | ELeaf _ _ _ _ => ([], [])
  | ETab _ _ _ body =>
      (fix go (ts : list etree) : list etree * list string :=
         match ts with
         | [] => ([], [])
         | y :: r =>
             let c :=
               match node_type y with
               | C_MANIFOLD | C_POSITIONAL | C_DEREF => ([y], [])
               | T_PATH | C_NEST =>
                   match y with
                   | ELeaf _ _ _ _ => ([], [])
                   | ETab _ _ _ sub =>
                       if is_input then
                         (fix innermost (l : list etree) : list etree * list string :=
                            match l with
                            | [] => ([], [])
                            | [ne] => composon_io is_input ne
                            | _ :: l' => innermost l'
                            end) sub
                       else
                         match sub with
                         | [] => ([], [])
                         | ne :: _ => composon_io is_input ne
                         end
                   end
               | C_GRPREF => ([], [msg_grpref])
               | _ => ([], [msg_illegal])
               end in
             let rest := go r in
             (c.1 ++ rest.1, c.2 ++ rest.2)
         end) body
  end.

(** The nested entry the extraction continues with: the innermost (tail)
    for inputs, the outermost (head) for outputs. *)
Definition pick (is_input : bool) (sub : list etree) : option etree :=
  if is_input then last sub else head sub.

(** What one entry of the nested table contributes, given the extraction
    [io] of a nested entry. *)
Definition contribution (io : etree -> list etree * list string)
    (is_input : bool) (y : etree) : list etree * list string :=
  match node_type y with
  | C_MANIFOLD | C_POSITIONAL | C_DEREF => ([y], [])
  | T_PATH | C_NEST =>
      match pick is_input (node_sub y) with
      | Some ne => io ne
      | None => ([], [])
      end
  | C_GRPREF => ([], [msg_grpref])
  | _ => ([], [msg_illegal])
  end.

Definition gather (cs : list (list etree * list string))
    : list etree * list string :=
  (concat cs.*1, concat cs.*2).

Definition io_ok (k : nat) : Prop :=
  forall x h lg is_input,
    h !! node_loc x = Some (CEntry (node_entry x)) ->
    rep 0 h x -> searchable x -> weight x <= k ->
    exists out h',
      _table_composon_io k (Some (node_loc x)) is_input (mkState h lg)
        = Return out (mkState h' (lg ++ (composon_io is_input x).2))
      /\ collected h h' out (found (composon_io is_input x).1).

(** ** Structural comparison of tables *)

(** A table up to locations: identifiers, types, terminal payloads and
    nested entries.  A null nested table and an empty one are both the
    empty list of nested entries. *)
Inductive atree : Type :=
| ANode (i : option Id) (ty : TType) (p : pay) (sub : list atree).

Fixpoint erase (x : etree) : atree :=
  match x with
  | ELeaf _ e i p => ANode i (e_type e) p []
  | ETab _ e i sub => ANode i (e_type e) PNull (map erase sub)
  end.

(** The flattened entry sequence: identifier, type and terminal payload of
    every entry, in pre-order. *)
Fixpoint flat_entries (a : atree) : list (option Id * TType * pay) :=
  match a with
  | ANode i ty p sub => (i, ty, p) :: concat (map flat_entries sub)
  end.

(** What cloning does to the payloads: a manifold entry gets a fresh empty
    manifold, everything else is copied. *)
Fixpoint refresh (a : atree) : atree :=
  match a with
  | ANode i ty p sub =>
      ANode i ty (if bool_decide (ty = C_MANIFOLD) then PMan manifold_empty else p)
        (map refresh sub)
  end.

Fixpoint no_manifold (a : atree) : Prop :=
  match a with
  | ANode _ ty _ sub =>
      ty <> C_MANIFOLD /\
      (fix all (l : list atree) : Prop :=
         match l with
         | [] => True
         | b :: r => no_manifold b /\ all r
         end) sub
  end.

(** The entries [table_clone] accepts: the seven entry types, each with
    the payload its type calls for (a nested table, possibly null, for the
    four table-holding types; a string for positional and group-reference
    entries; the payload of a manifold entry is not read). *)
Fixpoint clonable (x : etree) : Prop :=
  match x with
  | ELeaf _ e _ p =>
      match e_type e with
      | T_PATH | C_COMPOSON | C_NEST | C_DEREF => p = PNull
      | C_MANIFOLD => True
      | C_POSITIONAL | C_GRPREF => exists x, p = PStr x
      | _ => False
      end
  | ETab _ e _ sub =>
      holds_table (e_type e) = true /\
      (fix all (ts : list etree) : Prop :=
         match ts with
         | [] => True
         | y :: r => clonable y /\ all r
         end) sub
  end.

Definition clone_ok (n : nat) : Prop :=
  forall ts h tp lg,
    rep_table 0 h tp ts -> Forall clonable ts -> weights ts < n ->
    exists out h' ts',
      table_clone n tp (mkState h lg) = Return out (mkState h' lg)
      /\ h `prefix_of` h'
      /\ rep_table (length h) h' out ts'
      /\ erase <$> ts' = (fun x => refresh (erase x)) <$> ts
      /\ (ts = [] -> out = None).

(** The cells of [H] from [a] on are as they are in [h]. *)
Definition agree (a : nat) (H h : list cell) : Prop :=
  forall l, a <= l -> l < length H -> h !! l = H !! l.

Definition set_node_next (x : etree) (nx : option nat) : etree :=
  match x with
  | ELeaf l e i p => ELeaf l (set_next e nx) i p
  | ETab l e i sub => ETab l (set_next e nx) i sub
  end.

(** A node of the clone under construction sits below its own frozen part
    of the store: the cells of a snapshot [H] from [a] on, which are still
    as they were in the current store [hc], and in which neither the table
    cell of the clone nor an entry cell of its chain ([locs]) lies. *)
Definition frozen (lo b : nat) (hc : list cell) (clone : option nat)
    (locs : list nat) (x : etree) : Prop :=
  exists a H,
    lo <= a /\ rep a H x /\ agree a H hc /\ length H <= b /\
    (forall l, l ∈ locs -> l < a \/ length H <= l) /\
    (forall t, clone = Some t -> t < a \/ length H <= t).

(** The accumulator of [table_clone] while the store grew from [h0] to
    [hc]: [NULL] or a non-empty table of cells allocated after [h0], all
    below [b], whose nodes are frozen. *)
Definition clone_inv (h0 : list cell) (b : nat) (hc : list cell)
    (clone : option nat) (ts' : list etree) : Prop :=
  h0 `prefix_of` hc /\ length h0 <= b /\ b <= length hc /\
  match clone with
  | None => ts' = []
  | Some t => ts' <> [] /\ t < b /\ is_table (length h0) hc t (cells_of ts')
  end /\
  (forall l, l ∈ (cells_of ts').*1 -> l < b) /\
  Forall (frozen (length h0) b hc clone (cells_of ts').*1) ts'.

(** ** The label of a left-hand side *)

(** The label [_ws_get_label_from_lhs] finds and the lines it logs. *)
Definition lhs_label (a : option W) : option Label :=
  match a with
  | None => None
  | Some x =>
      match cls x with
      | K_NAME => label_new_set (g_string a) None
      | K_LABEL => g_label a
      | K_PATH => g_label (head (g_ws a))
      | _ => None
      end
  end.

Definition lhs_diag (a : option W) : list string :=
  match a with
  | None => []
  | Some x =>
      match cls x with
      | K_NAME | K_LABEL | K_PATH => []
      | K_LIST => [msg_klist]
      | _ => [msg_illegal_lhs]
      end
  end.

(** A left-hand side of class name holds a string. *)
Definition lhs_named (a : option W) : Prop :=
  forall x, a = Some x -> cls x = K_NAME -> value_type x = V_STRING.

(** ** Concrete stores used to exercise the theorems *)

Definition ex_manifold (nx : ptr) : Entry := mkEntry None C_MANIFOLD None nx.

(** A table cell with a head and no tail, and a separate entry. *)
Definition heap_tailless : list cell :=
  [ CTable (mkTable (Some 1) None);
    CEntry (ex_manifold None);
    CEntry (mkEntry None C_POSITIONAL None None) ].

(** Three one-entry tables with separate cells. *)
Definition heap_three : list cell :=
  [ CEntry (ex_manifold None); CTable (mkTable (Some 0) (Some 0));
    CEntry (mkEntry None C_POSITIONAL None None); CTable (mkTable (Some 2) (Some 2));
    CEntry (mkEntry None C_GRPREF None None); CTable (mkTable (Some 4) (Some 4)) ].

(** A comparison of identifiers by name, and an enumeration in which no
    constant is zero, to instantiate the parameters of the lookups. *)
Definition name_cmp (a b : Id) : bool := bool_decide (name a = name b).
Definition all_nonzero (t : TType) : bool := true.

Definition id_a : Id := mkId (Some "a") None.
Definition id_f : Id := mkId (Some "f") None.

(** The table [a = { f }, f]: a path entry named a holding a manifold named
    f, followed by a manifold named f. *)
Definition heap_scope : list cell :=
  [ CId id_a; CId id_f;
    CEntry (mkEntry (Some 1) C_MANIFOLD None None);
    CTable (mkTable (Some 2) (Some 2));
    CEntry (mkEntry (Some 0) T_PATH (Some 3) (Some 5));
    CEntry (mkEntry (Some 1) C_MANIFOLD None None);
    CTable (mkTable (Some 4) (Some 5)) ].

Definition forest_scope : list etree :=
  [ ETab 4 (mkEntry (Some 0) T_PATH (Some 3) (Some 5)) (Some id_a)
      [ ELeaf 2 (mkEntry (Some 1) C_MANIFOLD None None) (Some id_f) PNull ];
    ELeaf 5 (mkEntry (Some 1) C_MANIFOLD None None) (Some id_f) PNull ].

(** A table with one deref entry whose nested table holds a manifold
    named f. *)
Definition heap_deref : list cell :=
  [ CId id_f;
    CEntry (mkEntry (Some 0) C_MANIFOLD None None);
    CTable (mkTable (Some 1) (Some 1));
    CEntry (mkEntry None C_DEREF (Some 2) None);
    CTable (mkTable (Some 3) (Some 3)) ].

Definition forest_deref : list etree :=
  [ ETab 3 (mkEntry None C_DEREF (Some 2) None) None
      [ ELeaf 1 (mkEntry (Some 0) C_MANIFOLD None None) (Some id_f) PNull ] ].

(** The composon [f, a group reference, ( (x) )]: a manifold named f, a
    group reference, and a nest whose only stage is a composon holding a
    positional argument. *)
Definition heap_compose : list cell :=
  [ CId id_f;
    CEntry (mkEntry (Some 0) C_MANIFOLD None (Some 2));
    CEntry (mkEntry None C_GRPREF None (Some 7));
    CEntry (mkEntry None C_POSITIONAL None None);
    CTable (mkTable (Some 3) (Some 3));
    CEntry (mkEntry None C_COMPOSON (Some 4) None);
    CTable (mkTable (Some 5) (Some 5));
    CEntry (mkEntry None C_NEST (Some 6) None);
    CTable (mkTable (Some 1) (Some 7));
    CEntry (mkEntry None C_COMPOSON (Some 8) None) ].

Definition tree_compose : etree :=
  ETab 9 (mkEntry None C_COMPOSON (Some 8) None) None
    [ ELeaf 1 (mkEntry (Some 0) C_MANIFOLD None (Some 2)) (Some id_f) PNull;
      ELeaf 2 (mkEntry None C_GRPREF None (Some 7)) None PNull;
      ETab 7 (mkEntry None C_NEST (Some 6) None) None
        [ ETab 5 (mkEntry None C_COMPOSON (Some 4) None) None
            [ ELeaf 3 (mkEntry None C_POSITIONAL None None) None PNull ] ] ].

(** The table [a = { x }, g]: a path entry named a holding a positional
    argument, followed by a group reference. *)
Definition heap_clone : list cell :=
  [ CId id_a; CString "x";
    CEntry (mkEntry None C_POSITIONAL (Some 1) None);
    CTable (mkTable (Some 2) (Some 2));
    CEntry (mkEntry (Some 0) T_PATH (Some 3) (Some 6));
    CString "g";
    CEntry (mkEntry None C_GRPREF (Some 5) None);
    CTable (mkTable (Some 4) (Some 6)) ].

Definition forest_clone : list etree :=
  [ ETab 4 (mkEntry (Some 0) T_PATH (Some 3) (Some 6)) (Some id_a)
      [ ELeaf 2 (mkEntry None C_POSITIONAL (Some 1) None) None (PStr "x") ];
    ELeaf 6 (mkEntry None C_GRPREF (Some 5) None) None (PStr "g") ].

(** Labels compared by name; a failed assertion taken as a fault. *)
Definition label_name_cmp (a b : option Label) : bool :=
  match a, b with
  | Some x, Some y => bool_decide (l_name x = l_name y)
  | _, _ => false
  end.

Definition w_label_a : W := W_label K_LABEL (mkLabel (Some "a") None).
Definition w_label_b : W := W_label K_LABEL (mkLabel (Some "b") None).
Definition w_body : list W := [W_manifold C_MANIFOLD manifold_empty].

(** The qualified path [a : body] and the couplet [a/b :: t] being
    processed. *)
Definition w_tpath : W := W_couplet T_PATH w_label_a (W_ws P_WS w_body).
Definition w_effect : W :=
  W_couplet T_TYPE (W_ws K_PATH [w_label_a; w_label_b]) (W_string K_NAME "t").

(** A couplet whose left-hand side is a manifold, and one whose left-hand
    side is a label. *)
Definition w_bad_couplet : W :=
  W_couplet T_TYPE (W_manifold C_MANIFOLD manifold_empty) (W_string K_NAME "t").
Definition w_label_couplet : W :=
  W_couplet T_TYPE w_label_a (W_string K_NAME "t").

(** Reading the entries of a returned table back from the store, up to
    links, to test the functions on the concrete stores. *)
Fixpoint chain_entries (fuel : nat) (h : list cell) (p : option nat) : list Entry :=
  match fuel, p with
  | S n, Some l =>
      match h !! l with
      | Some (CEntry e) => fields e :: chain_entries n h (e_next e)
      | _ => []
      end
  | _, _ => []
  end.

Definition returned_entries (o : outcome (option nat)) : option (list Entry) :=
  match o with
  | Return None _ => Some []
  | Return (Some t) s =>
      match mem s !! t with
      | Some (CTable tb) => Some (chain_entries (length (mem s)) (mem s) (t_head tb))
      | _ => None
      end
  | _ => None
  end.
(** ** Lookup by type *)

Definition has_type (ty : TType) (x : etree) : bool :=
  bool_decide (node_type x = ty).

(** What [table_recursive_get_type] with fuel [n] does on a well-formed
    table whose forest has fewer than [n] entries. *)
Definition tget_ok (n : nat) (ty : TType) : Prop :=
  forall ts h t lg,
    rep_table 0 h (Some t) ts -> Forall searchable ts -> weights ts < n ->
    exists out h',
      table_recursive_get_type n (Some t) ty (mkState h lg)
        = Return out (mkState h' lg)
      /\ collected h h' out
           (found (List.filter (has_type ty) (flattens_by is_recursive ts))).

(** ** Composons without nested expressions *)

(** The entries a composon passes on as they are. *)
Definition is_operand (x : etree) : bool :=
  match node_type x with
  | C_MANIFOLD | C_POSITIONAL | C_DEREF => true
  | _ => false
  end.

(** The line logged for an entry that is neither passed on nor entered. *)
Definition flat_diag (x : etree) : list string :=
  match node_type x with
  | C_MANIFOLD | C_POSITIONAL | C_DEREF => []
  | C_GRPREF => [msg_grpref]
  | _ => [msg_illegal]
  end.

Definition no_nesting (x : etree) : Prop :=
  node_type x <> T_PATH /\ node_type x <> C_NEST.

(** ** The types [table_clone] copies *)

Definition cloned_type (ty : TType) : bool :=
  match ty with
  | T_PATH | C_COMPOSON | C_NEST | C_DEREF
  | C_MANIFOLD | C_POSITIONAL | C_GRPREF => true
  | _ => false
  end.

(** A table whose second entry has a type [table_clone] does not copy. *)
Definition heap_unclonable : list cell :=
  [ CString "x";
    CEntry (mkEntry None C_POSITIONAL (Some 0) (Some 2));
    CEntry (mkEntry None T_TYPE None None);
    CTable (mkTable (Some 1) (Some 2)) ].

(** A table whose second entry is a path without a nested table. *)
Definition heap_hollow : list cell :=
  [ CId id_f;
    CEntry (mkEntry (Some 0) C_MANIFOLD None (Some 2));
    CEntry (mkEntry None T_PATH None None);
    CTable (mkTable (Some 1) (Some 2)) ].

(** ** The copy of a node in a result table *)

(** The node [x] as it is found in a result: at another location and with
    another entry cell, leading to the same identifier and payload. *)
Definition relocate (x : etree) (l : nat) (e : Entry) : etree :=
  match x with
  | ELeaf _ _ i p => ELeaf l e i p
  | ETab _ _ i sub => ETab l e i sub
  end.

(** ** Left-hand sides that are one path *)

Definition simple_lhs (p : W) : Prop :=
  cls p = K_PATH \/ cls p = K_LABEL \/ cls p = K_NAME.

(** A table whose second entry is a positional argument without a string. *)
Definition heap_nameless : list cell :=
  [ CString "x";
    CEntry (mkEntry None C_POSITIONAL (Some 0) (Some 2));
    CEntry (mkEntry None C_POSITIONAL None None);
    CTable (mkTable (Some 1) (Some 2)) ].

(** A composon whose table holds a manifold and a nest without a table. *)
Definition heap_open_nest : list cell :=
  [ CEntry (mkEntry None C_MANIFOLD None (Some 1));
    CEntry (mkEntry None C_NEST None None);
    CTable (mkTable (Some 0) (Some 1));
    CEntry (mkEntry None C_COMPOSON (Some 2) None) ].

(** ** What [table_dump] writes *)

Section DumpSpec.

Variable entry_print : list cell -> option nat -> list string.
Variable h : list cell.

(** The strings written for a tree at a depth: its indentation, what
    [entry_print] writes for it, and, below an entry of recursive type,
    the strings of its nested entries one level deeper. *)
Fixpoint dump_lines (depth : nat) (x : etree) {struct x} : list string :=
  indentation depth ++ entry_print h (Some (node_loc x)) ++
  match x with
  | ELeaf _ _ _ _ => []
  | ETab _ e _ sub =>
      if is_recursive (e_type e) then
        (fix go (ts : list etree) : list string :=
           match ts with
           | [] => []
           | y :: r => dump_lines (S depth) y ++ go r
           end) sub
      else []
  end.

End DumpSpec.

(** The entries [table_dump] can print: an entry of recursive type has a
    nested table or [NULL]. *)
Fixpoint dumpable (x : etree) : Prop :=
  match x with
  | ELeaf _ e _ _ => is_recursive (e_type e) = true -> e_value e = None
  | ETab _ e _ sub =>
      is_recursive (e_type e) = true ->
      (fix all (ts : list etree) : Prop :=
         match ts with
         | [] => True
         | y :: r => dumpable y /\ all r
         end) sub
  end.

(** A table whose path entry has no nested table, followed by a deref
    entry that has one. *)
Definition heap_dump : list cell :=
  [ CEntry (mkEntry None T_PATH None (Some 3));
    CEntry (mkEntry None C_MANIFOLD None None);
    CTable (mkTable (Some 1) (Some 1));
    CEntry (mkEntry None C_NEST (Some 2) None);
    CTable (mkTable (Some 0) (Some 3)) ].

Definition forest_dump : list etree :=
  [ ELeaf 0 (mkEntry None T_PATH None (Some 3)) None PNull;
    ETab 3 (mkEntry None C_NEST (Some 2) None) None
      [ ELeaf 1 (mkEntry None C_MANIFOLD None None) None PNull ] ].

(** An [entry_print] that writes the location of the entry. *)
Definition print_loc (h : list cell) (e : option nat) : list string :=
  match e with
  | Some 0 => ["e0"] | Some 1 => ["e1"] | Some 2 => ["e2"] | Some 3 => ["e3"]
  | _ => ["e"]
  end.

(** What [_table_dump_r] with fuel [n] does on a well-formed table whose
    forest has fewer than [n] entries. *)
Definition dump_ok (entry_print : list cell -> option nat -> list string)
    (n : nat) : Prop :=
  forall ts h tp lg depth out,
    rep_table 0 h tp ts -> Forall dumpable ts -> weights ts < n ->
    _table_dump_r entry_print n tp depth out (mkState h lg) =
    Return (bool_decide (tp <> None),
            out ++ concat (dump_lines entry_print h depth <$> ts)) (mkState h lg).

(** ** Path-qualified lookup over the four table-holding types *)

Section PathSpecFour.

Variable id_cmp : Id -> Id -> bool.
Variable type_nonzero : TType -> bool.

(** Path-qualified lookup as the specification words it when a recursive
    type is one of the four the specification lists (path, composon,
    nest, deref): the definition of [path_gets] with [holds_table] in the
    place of [is_recursive]. *)
Fixpoint path_gets_four (pv : PathV) (ty : TType) (ts : list etree) {struct pv}
    : list etree :=
  match pv with
  | pathv_base k =>
      concat ((fun x =>
        (if matches id_cmp type_nonzero k ty x then [x] else []) ++
        (if holds_table (node_type x)
         then preorder_gets id_cmp type_nonzero holds_table k ty (node_sub x)
         else [])) <$> ts)
  | pathv_cons k rest =>
      concat ((fun x =>
        if holds_table (node_type x) &&
           (anonymous (node_id x) || scmp id_cmp (node_id x) k)
        then path_gets_four rest ty (node_sub x)
        else []) <$> ts)
  end.

End PathSpecFour.


(** * Lemmas *)

(** ** Running the primitives *)

Lemma bind_Return {A B} (m : M A) (k : A -> M B) s a s' :
  m s = Return a s' -> bind m k s = k a s'.
Proof. unfold bind. intros ->. reflexivity. Qed.

Lemma load_entry_run h lg l e :
  h !! l = Some (CEntry e) ->
  load_entry (Some l) (mkState h lg) = Return e (mkState h lg).
Proof. intros H. unfold load_entry, bind, load. simpl. rewrite H. reflexivity. Qed.

Lemma load_table_run h lg l t :
  h !! l = Some (CTable t) ->
  load_table (Some l) (mkState h lg) = Return t (mkState h lg).
Proof. intros H. unfold load_table, bind, load. simpl. rewrite H. reflexivity. Qed.

Lemma load_id_run h lg l i :
  h !! l = Some (CId i) ->
  load_id (Some l) (mkState h lg) = Return i (mkState h lg).
Proof. intros H. unfold load_id, bind, load. simpl. rewrite H. reflexivity. Qed.

Lemma load_string_run h lg l x :
  h !! l = Some (CString x) ->
  load_string (Some l) (mkState h lg) = Return x (mkState h lg).
Proof. intros H. unfold load_string, bind, load. simpl. rewrite H. reflexivity. Qed.

Lemma store_run h lg l c :
  l < length h ->
  store (Some l) c (mkState h lg) = Return tt (mkState (<[l:=c]> h) lg).
Proof. intros H. unfold store. simpl. rewrite decide_True by done. reflexivity. Qed.

Lemma alloc_run h lg c :
  alloc c (mkState h lg) = Return (Some (length h)) (mkState (h ++ [c]) lg).
Proof. reflexivity. Qed.

Lemma lookup_extend (h k : heap) l c : h !! l = Some c -> (h ++ k) !! l = Some c.
Proof. intros H. apply lookup_app_l_Some. exact H. Qed.

Lemma lookup_fresh (h : heap) c : (h ++ [c]) !! length h = Some c.
Proof. rewrite lookup_app_r by lia. rewrite Nat.sub_diag. reflexivity. Qed.

Lemma lookup_bound (h : heap) l c : h !! l = Some c -> l < length h.
Proof. intros H. apply lookup_lt_is_Some. eauto. Qed.

Lemma first_ptr_app a b q : first_ptr (a ++ b) q = first_ptr a (first_ptr b q).
Proof. destruct a; reflexivity. Qed.

Lemma lseg_app a b q : lseg (a ++ b) q <-> lseg a (first_ptr b q) /\ lseg b q.
Proof.
  induction a as [|x a IH]; simpl.
  - tauto.
  - rewrite first_ptr_app, IH. tauto.
Qed.

Lemma last_ptr_snoc a x : last_ptr (a ++ [x]) = Some x.1.
Proof. unfold last_ptr. rewrite last_snoc. reflexivity. Qed.

Lemma last_ptr_app_cons a x b : last_ptr (a ++ x :: b) = last_ptr (x :: b).
Proof. unfold last_ptr. rewrite last_app_cons. reflexivity. Qed.

Lemma stored_extend lo h k es : stored lo h es -> stored lo (h ++ k) es.
Proof.
  unfold stored. intros Hs. eapply Forall_impl; [exact Hs|].
  intros le [H1 H2]. split; [done|]. by apply lookup_extend.
Qed.

Lemma stored_insert lo h l c es :
  stored lo h es -> l ∉ es.*1 -> stored lo (<[l:=c]> h) es.
Proof.
  unfold stored. intros Hs Hn. rewrite Forall_forall in *.
  intros le Hin. destruct (Hs le Hin) as [H1 H2]. split; [done|].
  rewrite list_lookup_insert_ne; [done|].
  intros ->. apply Hn. apply list_elem_of_fmap. eauto.
Qed.

Lemma stored_weaken lo lo' h es : lo' <= lo -> stored lo h es -> stored lo' h es.
Proof.
  intros Hle Hs. unfold stored. eapply Forall_impl; [exact Hs|].
  intros le [H1 H2]. split; [lia|done].
Qed.

Lemma stored_bound lo h es l : stored lo h es -> l ∈ es.*1 -> lo <= l < length h.
Proof.
  unfold stored. rewrite Forall_forall. intros Hs Hin.
  apply list_elem_of_fmap in Hin as [le [-> Hin]].
  destruct (Hs le Hin) as [H1 H2]. split; [done|]. by eapply lookup_bound.
Qed.

Lemma stored_entry lo h es l : stored lo h es -> l ∈ es.*1 -> exists e, h !! l = Some (CEntry e).
Proof.
  unfold stored. rewrite Forall_forall. intros Hs Hin.
  apply list_elem_of_fmap in Hin as [le [-> Hin]].
  destruct (Hs le Hin) as [H1 H2]. eauto.
Qed.

Lemma prefix_insert (h0 h : heap) l c :
  h0 `prefix_of` h -> length h0 <= l -> h0 `prefix_of` <[l:=c]> h.
Proof.
  intros [k ->] Hl. rewrite insert_app_r_alt by done. by apply prefix_app_r.
Qed.
Lemma lseg_relink a l e q q' :
  lseg (a ++ [(l, e)]) q -> lseg (a ++ [(l, set_next e q')]) q'.
Proof.
  rewrite !lseg_app. simpl. intros [Ha _]. auto.
Qed.

Lemma is_table_extend lo h k t es : is_table lo h t es -> is_table lo (h ++ k) t es.
Proof.
  intros [H1 H2 H3 H4 H5]. split; auto using stored_extend, lookup_extend.
Qed.

Lemma is_table_weaken lo lo' h t es :
  lo' <= lo -> is_table lo h t es -> is_table lo' h t es.
Proof.
  intros Hle [H1 H2 H3 H4 H5]. split; eauto using stored_weaken. lia.
Qed.

(** A table cell is not an entry cell. *)
Lemma table_not_entry lo h t es es' l :
  h !! t = Some (CTable es') -> stored lo h es -> l ∈ es.*1 -> l <> t.
Proof.
  intros Ht Hs Hin ->. destruct (stored_entry _ _ _ _ Hs Hin) as [e He]. congruence.
Qed.

(** Writes outside a table leave it as it is. *)
Lemma is_table_insert lo h t es l c :
  is_table lo h t es -> l <> t -> l ∉ es.*1 -> is_table lo (<[l:=c]> h) t es.
Proof.
  intros [H1 H2 H3 H4 H5] Hne Hn. split; auto using stored_insert.
  by rewrite list_lookup_insert_ne.
Qed.

Lemma entry_isolate_run h lg l e :
  h !! l = Some (CEntry e) ->
  entry_isolate (Some l) (mkState h lg) =
  Return (Some (length h)) (mkState (h ++ [CEntry (fields e)]) lg).
Proof.
  intros H. unfold entry_isolate.
  erewrite bind_Return by (by apply load_entry_run). reflexivity.
Qed.

(** [table_add] on [NULL] makes a one-entry table out of fresh cells. *)
Lemma table_add_null h lg l e :
  h !! l = Some (CEntry e) ->
  table_add None (Some l) (mkState h lg) =
    Return (Some (S (length h)))
      (mkState (h ++ [CEntry (fields e); CTable (mkTable (Some (length h)) (Some (length h)))]) lg)
  /\ is_table (length h)
       (h ++ [CEntry (fields e); CTable (mkTable (Some (length h)) (Some (length h)))])
       (S (length h)) [(length h, fields e)].
Proof.
  intros H. split.
  - unfold table_add. erewrite bind_Return by (by apply entry_isolate_run).
    unfold _table_new. rewrite alloc_run. rewrite length_app. simpl.
    rewrite Nat.add_1_r. rewrite <- app_assoc. reflexivity.
  - split.
    + lia.
    + rewrite lookup_app_r by lia.
      replace (S (length h) - length h) with 1 by lia. reflexivity.
    + unfold linked. simpl. auto.
    + constructor; [|constructor]. simpl. split; [lia|].
      rewrite lookup_app_r by lia. rewrite Nat.sub_diag. reflexivity.
    + simpl. constructor; [|constructor]. apply not_elem_of_nil.
Qed.

(** [_retail]/[table_add] on a non-empty table links a fresh copy after the
    tail. *)
Lemma table_add_cons lo h lg t es lt et l e :
  is_table lo h t (es ++ [(lt, et)]) ->
  h !! l = Some (CEntry e) ->
  exists h',
    table_add (Some t) (Some l) (mkState h lg) = Return (Some t) (mkState h' lg)
    /\ is_table lo h' t (es ++ [(lt, set_next et (Some (length h))); (length h, fields e)])
    /\ length h' = S (length h)
    /\ (forall h0, h0 `prefix_of` h -> length h0 <= lo -> h0 `prefix_of` h')
    /\ (forall l', l' <> lt -> l' <> t -> l' < length h -> h' !! l' = h !! l').
Proof.
  intros [H1 H2 H3 H4 H5] Hl.
  assert (Hlt : lo <= lt /\ h !! lt = Some (CEntry et)).
  { unfold stored in H4. rewrite Forall_app, Forall_singleton in H4. apply H4. }
  destruct Hlt as [Hlo Hlt].
  assert (Hne : lt <> t) by congruence.
  pose proof (lookup_bound _ _ _ H2) as Hbt.
  pose proof (lookup_bound _ _ _ Hlt) as Hblt.
  rewrite last_ptr_snoc in H2. simpl in H2.
  set (h1 := h ++ [CEntry (fields e)]).
  set (h2 := <[lt := CEntry (set_next et (Some (length h)))]> h1).
  set (h3 := <[t := CTable (mkTable (hd_ptr (es ++ [(lt, et)])) (Some (length h)))]> h2).
  assert (Hlen1 : length h1 = S (length h)).
  { unfold h1. rewrite length_app. simpl. lia. }
  exists h3. split; [|split; [|split; [|split]]].
  - unfold table_add. erewrite bind_Return by (by apply entry_isolate_run).
    fold h1.
    erewrite bind_Return by (apply load_table_run; unfold h1; by apply lookup_extend).
    simpl. erewrite bind_Return; [reflexivity|].
    unfold _retail.
    erewrite bind_Return by (apply load_table_run; unfold h1; by apply lookup_extend).
    simpl.
    erewrite bind_Return by (apply load_entry_run; unfold h1; by apply lookup_extend).
    erewrite bind_Return by (apply store_run; lia).
    fold h2.
    erewrite bind_Return.
    2:{ apply load_table_run. unfold h2. rewrite list_lookup_insert_ne by done.
        unfold h1. by apply lookup_extend. }
    apply store_run. unfold h2. rewrite length_insert. lia.
  - split.
    + done.
    + unfold h3. rewrite list_lookup_insert_eq.
      2:{ unfold h2. rewrite length_insert. lia. }
      f_equal. f_equal. f_equal.
      * unfold hd_ptr. rewrite !first_ptr_app. reflexivity.
      * rewrite last_ptr_app_cons. reflexivity.
    + unfold linked. change (es ++ [(lt, set_next et (Some (length h))); (length h, fields e)])
        with (es ++ [(lt, set_next et (Some (length h)))] ++ [(length h, fields e)]).
      rewrite app_assoc. apply lseg_app. split.
      * simpl. eapply lseg_relink. exact H3.
      * simpl. auto.
    + unfold stored in *. rewrite Forall_app in H4. destruct H4 as [H4 _].
      rewrite Forall_app. split; [|constructor; [|constructor; [|constructor]]].
      * rewrite fmap_app in H5. apply NoDup_app in H5 as (N1 & N2 & N3).
        assert (Hs3 : stored lo h3 es).
        { unfold h3. apply stored_insert.
          - unfold h2. apply stored_insert.
            + unfold h1. by apply stored_extend.
            + intros Hin. apply (N2 _ Hin). simpl. apply list_elem_of_here.
          - intros Hin. destruct (stored_entry _ _ _ _ H4 Hin) as [x Hx]. congruence. }
        exact Hs3.
      * simpl. split; [done|]. unfold h3.
        rewrite list_lookup_insert_ne by done. unfold h2.
        rewrite list_lookup_insert_eq; [done|]. lia.
      * simpl. split; [lia|]. unfold h3.
        rewrite list_lookup_insert_ne by lia. unfold h2.
        rewrite list_lookup_insert_ne by lia. apply lookup_fresh.
    + rewrite fmap_app in *. simpl in *.
      apply NoDup_app in H5 as (N1 & N2 & N3).
      apply NoDup_app. split; [done|]. split.
      * intros x Hx Hin. apply elem_of_cons in Hin as [->|Hin].
        { apply (N2 _ Hx). apply list_elem_of_here. }
        apply list_elem_of_singleton in Hin. subst x.
        assert (Hs : stored lo h es).
        { unfold stored in *. rewrite Forall_app in H4. apply H4. }
        pose proof (stored_bound _ _ _ _ Hs Hx). lia.
      * constructor; [|constructor; [apply not_elem_of_nil|constructor]].
        intros Hin. apply list_elem_of_singleton in Hin. lia.
  - unfold h3, h2. rewrite !length_insert. done.
  - intros h0 Hp Hlen. unfold h3, h2. apply prefix_insert; [|lia].
    apply prefix_insert; [|lia]. unfold h1. by apply prefix_app_r.
  - intros l' N1 N2 Hb. unfold h3, h2, h1.
    rewrite !list_lookup_insert_ne by done. by rewrite lookup_app_l.
Qed.
Lemma hd_ptr_nonempty (es : ecells) : es <> [] -> exists l, hd_ptr es = Some l.
Proof. destruct es as [|[l e] r]; [done|]. intros _. by exists l. Qed.

Lemma hd_ptr_elem (es : ecells) l : hd_ptr es = Some l -> l ∈ es.*1.
Proof.
  destruct es as [|[l' e] r]; [done|]. simpl. intros [= ->]. apply list_elem_of_here.
Qed.

Lemma has_head_null s : has_head None s = Return false s.
Proof. reflexivity. Qed.

Lemma has_head_run lo h lg t es :
  is_table lo h t es ->
  has_head (Some t) (mkState h lg) =
  Return (bool_decide (es <> [])) (mkState h lg).
Proof.
  intros [_ H _ _ _]. unfold has_head.
  erewrite bind_Return by (by apply load_table_run). simpl. unfold ret.
  f_equal. destruct es as [|[l e] r]; reflexivity.
Qed.

(** [table_join] of two non-empty tables with separate cells splices the
    second chain after the first in place. *)
Lemma table_join_cons lo h lg a ea lt et b eb :
  is_table lo h a (ea ++ [(lt, et)]) ->
  is_table lo h b eb ->
  eb <> [] ->
  (forall x, x ∈ (ea ++ [(lt, et)]).*1 -> x ∈ eb.*1 -> False) ->
  let h' := <[a := CTable (mkTable (hd_ptr (ea ++ [(lt, et)])) (last_ptr eb))]>
              (<[lt := CEntry (set_next et (hd_ptr eb))]> h) in
  table_join (Some a) (Some b) (mkState h lg) = Return (Some a) (mkState h' lg)
  /\ is_table lo h' a (ea ++ (lt, set_next et (hd_ptr eb)) :: eb).
Proof.
  intros Ha Hb Hne Hdisj h'.
  pose proof Ha as [A1 A2 A3 A4 A5]. pose proof Hb as [B1 B2 B3 B4 B5].
  assert (Hlt : lo <= lt /\ h !! lt = Some (CEntry et)).
  { unfold stored in A4. rewrite Forall_app, Forall_singleton in A4. apply A4. }
  destruct Hlt as [Hlo Hlt].
  assert (Hlta : lt <> a) by congruence.
  assert (Hltb : lt <> b) by congruence.
  destruct (hd_ptr_nonempty eb Hne) as [hb Hhb].
  assert (Hab : a <> b).
  { intros ->. rewrite A2 in B2. injection B2 as E1 E2.
    rewrite Hhb in E1. apply (Hdisj hb); by apply hd_ptr_elem. }
  pose proof (lookup_bound _ _ _ A2) as Hba.
  pose proof (lookup_bound _ _ _ Hlt) as Hblt.
  rewrite last_ptr_snoc in A2. simpl in A2.
  set (h1 := <[lt := CEntry (set_next et (hd_ptr eb))]> h) in *.
  assert (Hlt_eb : lt ∉ eb.*1).
  { intros Hin. apply (Hdisj lt); [|done]. rewrite fmap_app. apply elem_of_app. right.
    simpl. apply list_elem_of_here. }
  assert (Ha_eb : a ∉ eb.*1).
  { intros Hin. destruct (stored_entry _ _ _ _ B4 Hin) as [x Hx]. congruence. }
  split.
  - unfold table_join.
    erewrite bind_Return by (by eapply has_head_run).
    rewrite bool_decide_true by done.
    erewrite bind_Return by (by eapply has_head_run).
    rewrite bool_decide_true by (by destruct ea).
    erewrite bind_Return; [reflexivity|].
    unfold _join.
    erewrite bind_Return by (by apply load_table_run).
    erewrite bind_Return by (by apply load_table_run).
    simpl.
    erewrite bind_Return by (by apply load_entry_run).
    erewrite bind_Return by (by apply store_run).
    fold h1.
    erewrite bind_Return.
    2:{ apply load_table_run. unfold h1. by rewrite list_lookup_insert_ne. }
    erewrite bind_Return.
    2:{ apply load_table_run. unfold h1. by rewrite list_lookup_insert_ne. }
    apply store_run. unfold h1. by rewrite length_insert.
  - unfold h'. fold h1. split.
    + done.
    + rewrite list_lookup_insert_eq by (unfold h1; by rewrite length_insert).
      f_equal. f_equal. f_equal.
      * unfold hd_ptr. rewrite !first_ptr_app. reflexivity.
      * rewrite last_ptr_app_cons. unfold last_ptr.
        destruct eb; [done|]. reflexivity.
    + unfold linked in *.
      change (ea ++ (lt, set_next et (hd_ptr eb)) :: eb)
        with (ea ++ [(lt, set_next et (hd_ptr eb))] ++ eb).
      rewrite app_assoc. apply lseg_app. split; [|done].
      apply lseg_app in A3 as [A3 _]. apply lseg_app. split; [|simpl; auto].
      exact A3.
    + unfold stored in A4. rewrite Forall_app in A4. destruct A4 as [A4 _].
      rewrite fmap_app in A5. apply NoDup_app in A5 as (N1 & N2 & N3).
      unfold stored. rewrite Forall_app. split; [|constructor].
      * apply stored_insert.
        -- unfold h1. apply stored_insert; [done|].
           intros Hin. apply (N2 _ Hin). simpl. apply list_elem_of_here.
        -- intros Hin. destruct (stored_entry _ _ _ _ A4 Hin) as [x Hx]. congruence.
      * simpl. split; [done|]. rewrite list_lookup_insert_ne by done.
        unfold h1. by rewrite list_lookup_insert_eq.
      * apply stored_insert; [|done]. unfold h1. by apply stored_insert.
    + change (ea ++ (lt, set_next et (hd_ptr eb)) :: eb)
        with (ea ++ [(lt, set_next et (hd_ptr eb))] ++ eb).
      rewrite app_assoc, fmap_app. apply NoDup_app. split; [|split; [|done]].
      * rewrite fmap_app in *. exact A5.
      * intros x Hx Hin. apply (Hdisj x); [|done].
        rewrite fmap_app in *. exact Hx.
Qed.

Lemma table_join_empty_r lo h lg a b eb :
  table_cells lo h b eb -> eb = [] ->
  table_join a b (mkState h lg) = Return a (mkState h lg).
Proof.
  intros Hb ->. unfold table_join. destruct b as [b|]; simpl in Hb.
  - erewrite bind_Return by (by eapply has_head_run).
    by rewrite bool_decide_false by (intros X; by apply X).
  - reflexivity.
Qed.

Lemma table_join_empty_l lo h lg a ea b eb :
  table_cells lo h a ea -> ea = [] ->
  is_table lo h b eb -> eb <> [] ->
  table_join a (Some b) (mkState h lg) = Return (Some b) (mkState h lg).
Proof.
  intros Ha -> Hb Hne. unfold table_join.
  erewrite bind_Return by (by eapply has_head_run).
  rewrite bool_decide_true by done.
  destruct a as [a|]; simpl in Ha.
  - erewrite bind_Return by (by eapply has_head_run).
    by rewrite bool_decide_false by (intros X; by apply X).
  - reflexivity.
Qed.
Lemma entry_seq_app a b : entry_seq (a ++ b) = entry_seq a ++ entry_seq b.
Proof. unfold entry_seq. by rewrite fmap_app. Qed.

Lemma fields_set_next e q : fields (set_next e q) = fields e.
Proof. reflexivity. Qed.

Lemma fields_idem e : fields (fields e) = fields e.
Proof. reflexivity. Qed.

Lemma apart_sym a b : apart a b -> apart b a.
Proof. unfold apart. eauto. Qed.

Lemma apart_nil_l a : apart [] a.
Proof. intros x Hx. by apply elem_of_nil in Hx. Qed.

Lemma apart_nil_r a : apart a [] .
Proof. intros x _ Hx. by apply elem_of_nil in Hx. Qed.

Lemma apart_fst a a' b : a'.*1 = a.*1 -> apart a b -> apart a' b.
Proof. unfold apart. intros ->. auto. Qed.

Lemma apart_app_l a1 a2 b : apart a1 b -> apart a2 b -> apart (a1 ++ a2) b.
Proof.
  unfold apart. intros H1 H2 x Hx Hb. rewrite fmap_app in Hx.
  apply elem_of_app in Hx as [Hx|Hx]; eauto.
Qed.

(** The general contract of [table_join] on two tables with separate cells:
    no allocation, the result is one of the two operands and holds the
    cells of the first followed by those of the second; tables that share
    no cell with the operands are untouched. *)
Lemma table_join_spec lo h lg a ea b eb :
  table_cells lo h a ea -> table_cells lo h b eb -> apart ea eb ->
  exists r h' er,
    table_join a b (mkState h lg) = Return r (mkState h' lg)
    /\ table_cells lo h' r er
    /\ entry_seq er = entry_seq ea ++ entry_seq eb
    /\ er.*1 = ea.*1 ++ eb.*1
    /\ length h' = length h
    /\ (r = a \/ r = b)
    /\ (eb = [] -> r = a /\ h' = h)
    /\ (ea = [] -> eb <> [] -> r = b /\ h' = h)
    /\ (forall d ed, table_cells lo h d ed -> apart ed ea -> apart ed eb ->
          table_cells lo h' d ed)
    /\ (forall h0, h0 `prefix_of` h -> length h0 <= lo -> h0 `prefix_of` h')
    /\ (er = [] <-> ea = [] /\ eb = [])
    /\ (ea <> [] -> r = a).
Proof.
  intros Ha Hb Hab.
  destruct (decide (eb = [])) as [->|Hnb].
  { exists a, h, ea. rewrite !app_nil_r.
    split; [by eapply table_join_empty_r|].
    split; [done|]. split; [done|]. split; [done|]. split; [done|].
    split; [by left|]. split; [done|]. split; [done|]. split; [auto|].
    split; [auto|]. split; [tauto|done]. }
  destruct b as [b|]; simpl in Hb; [|done].
  destruct (decide (ea = [])) as [->|Hna].
  { exists (Some b), h, eb. split; [by eapply table_join_empty_l|].
    split; [done|]. split; [done|]. split; [done|]. split; [done|].
    split; [by right|]. split; [done|]. split; [done|]. split; [auto|].
    split; [auto|]. split; [tauto|done]. }
  destruct a as [a|]; simpl in Ha; [|done].
  destruct ea as [|x ea0 _] using rev_ind; [done|]. destruct x as [lt et].
  destruct (table_join_cons lo h lg a ea0 lt et b eb Ha Hb Hnb Hab) as [Hrun Htab].
  pose proof Ha as [A1 A2 A3 A4 A5].
  assert (Hlt : lo <= lt /\ h !! lt = Some (CEntry et)).
  { unfold stored in A4. rewrite Forall_app, Forall_singleton in A4. apply A4. }
  destruct Hlt as [Hlo Hlt].
  eexists (Some a), _, _. split; [exact Hrun|]. split; [exact Htab|].
  split; [|split; [|split; [|split; [|split; [|split; [|split; [|split; [|split]]]]]]]].
  - rewrite !entry_seq_app. simpl. rewrite <- app_assoc. reflexivity.
  - rewrite !fmap_app. simpl. rewrite <- app_assoc. reflexivity.
  - by rewrite !length_insert.
  - by left.
  - done.
  - intros E. by destruct ea0.
  - intros d ed Hd Hda Hdb. destruct d as [d|]; simpl in *; [|done].
    pose proof Hd as [D1 D2 D3 D4 D5].
    assert (Hlted : lt ∉ ed.*1).
    { intros Hin. apply (Hda lt Hin). rewrite fmap_app. apply elem_of_app. right.
      apply list_elem_of_here. }
    apply is_table_insert.
    + apply is_table_insert; [done| |done]. congruence.
    + intros ->. rewrite A2 in D2. injection D2 as E1 E2.
      assert (Hh : exists l, hd_ptr (ea0 ++ [(lt, et)]) = Some l).
      { apply hd_ptr_nonempty. by destruct ea0. }
      destruct Hh as [l Hl]. apply (Hda l).
      * apply hd_ptr_elem. congruence.
      * by apply hd_ptr_elem.
    + intros Hin. destruct (stored_entry _ _ _ _ D4 Hin) as [y Hy]. congruence.
  - intros h0 Hp Hl0. apply prefix_insert; [|lia]. apply prefix_insert; [done|lia].
  - split; [intros E; by destruct ea0|]. intros [E _]. by destruct ea0.
  - done.
Qed.

Lemma rep_tab_unfold lo h l e i sub :
  rep lo h (ETab l e i sub) <->
  rep_id lo h (e_id e) i /\
  (exists t, e_value e = Some t /\ is_table lo h t (cells_of sub)) /\
  Forall (rep lo h) sub.
Proof.
  simpl. do 2 (apply and_iff_compat_l). induction sub as [|x r IH].
  - split; auto.
  - rewrite Forall_cons. rewrite IH. tauto.
Qed.

Lemma weight_tab l e i sub : weight (ETab l e i sub) = S (weights sub).
Proof.
  simpl. f_equal. unfold weights. induction sub as [|x r IH]; simpl; auto.
Qed.

Lemma preorder_get_tab id_cmp tnz d key t l e i sub :
  preorder_get id_cmp tnz d key t (ETab l e i sub) =
  (if matches id_cmp tnz key t (ETab l e i sub) then [ETab l e i sub] else []) ++
  (if d (e_type e) then preorder_gets id_cmp tnz d key t sub else []).
Proof.
  simpl. f_equal. destruct (d (e_type e)); [|done].
  unfold preorder_gets. induction sub as [|x r IH]; simpl; [done|]. by rewrite IH.
Qed.

Lemma searchable_tab l e i sub :
  searchable (ETab l e i sub) <->
  (is_recursive (e_type e) = true -> Forall searchable sub).
Proof.
  simpl. split; intros H E; specialize (H E).
  - induction sub as [|x r IH]; [constructor|]. destruct H as [H1 H2].
    constructor; [exact H1|apply IH; exact H2].
  - induction sub as [|x r IH]; [exact I|]. apply Forall_cons in H as [H1 H2].
    split; [exact H1|apply IH; exact H2].
Qed.
Lemma contents_entry_seq es : contents es = (entry_seq es).*2.
Proof.
  unfold contents, entry_seq. rewrite <- !list_fmap_compose. reflexivity.
Qed.

Lemma contents_app a b : contents (a ++ b) = contents a ++ contents b.
Proof. unfold contents. by rewrite !fmap_app. Qed.

Lemma collected_nil h : collected h h None [].
Proof. split; [done|]. by exists []. Qed.

Lemma collected_null h0 h acc : collected h0 h None acc -> acc = [].
Proof. intros [_ (es & <- & ->)]. done. Qed.

Lemma collected_add h0 h lg out acc l e :
  collected h0 h out acc ->
  h !! l = Some (CEntry e) ->
  exists out' h',
    table_add out (Some l) (mkState h lg) = Return out' (mkState h' lg)
    /\ collected h0 h' out' (acc ++ [fields e]).
Proof.
  intros [Hp (es & Hc & Ho)] Hl.
  pose proof (prefix_length _ _ Hp) as Hlen.
  destruct out as [t|].
  - destruct Ho as [Hne Ht].
    destruct es as [|x es0 _] using rev_ind; [done|]. destruct x as [lt et].
    destruct (table_add_cons _ _ lg _ _ _ _ _ _ Ht Hl) as (h' & Hrun & Ht' & Hl' & Hpre & _).
    exists (Some t), h'. split; [exact Hrun|]. split; [by apply Hpre|].
    eexists. split; [|split; [|exact Ht']].
    + rewrite <- Hc. rewrite !contents_app. rewrite <- app_assoc. reflexivity.
    + by destruct es0.
  - subst es. simpl in Hc. subst acc.
    destruct (table_add_null h lg l e Hl) as [Hrun Ht].
    eexists _, _. split; [exact Hrun|]. split; [by apply prefix_app_r|].
    exists [(length h, fields e)]. split; [done|]. split; [done|].
    eapply is_table_weaken; [|exact Ht]. done.
Qed.

Lemma collected_join h0 h1 h2 lg out acc sub acc2 :
  collected h0 h1 out acc ->
  collected h1 h2 sub acc2 ->
  exists r h3,
    table_join out sub (mkState h2 lg) = Return r (mkState h3 lg)
    /\ collected h0 h3 r (acc ++ acc2).
Proof.
  intros [Hp1 (es1 & Hc1 & Ho1)] [Hp2 (es2 & Hc2 & Ho2)].
  pose proof (prefix_length _ _ Hp1) as Hlen1.
  destruct Hp2 as [k ->].
  assert (T1 : table_cells (length h0) (h1 ++ k) out es1).
  { destruct out as [t|]; simpl; [|done]. destruct Ho1 as [_ Ht].
    by apply is_table_extend. }
  assert (T2 : table_cells (length h0) (h1 ++ k) sub es2).
  { destruct sub as [t|]; simpl; [|done]. destruct Ho2 as [_ Ht].
    eapply is_table_weaken; [|exact Ht]. done. }
  assert (Hap : apart es1 es2).
  { intros x H1 H2.
    assert (x < length h1).
    { destruct out as [t|]; [|subst es1; by apply elem_of_nil in H1].
      destruct Ho1 as [_ Ht]. destruct Ht as [_ _ _ Hs _].
      by destruct (stored_bound _ _ _ _ Hs H1). }
    assert (length h1 <= x).
    { destruct sub as [t|]; [|subst es2; by apply elem_of_nil in H2].
      destruct Ho2 as [_ Ht]. destruct Ht as [_ _ _ Hs _].
      by destruct (stored_bound _ _ _ _ Hs H2). }
    lia. }
  destruct (table_join_spec _ _ lg _ _ _ _ T1 T2 Hap)
    as (r & h3 & er & Hrun & Htab & Hseq & Hfst & Hlen & Hor & Hnil & Hnil' & _ & Hpre & Hemp & _).
  exists r, h3. split; [exact Hrun|]. split.
  { apply Hpre; [|done]. by apply prefix_app_r. }
  exists er. split.
  { rewrite !contents_entry_seq, Hseq, fmap_app. by rewrite <- Hc1, <- Hc2, !contents_entry_seq. }
  destruct (decide (es2 = [])) as [E2|N2].
  - destruct (Hnil E2) as [-> ->].
    assert (er = es1).
    { subst es2. rewrite app_nil_r in Hfst.
      destruct (decide (es1 = [])) as [E1|N1].
      - subst es1. by apply Hemp.
      - (* same cells: the chain did not change *)
        destruct out as [t|]; [|by destruct Ho1].
        simpl in Htab, T1. destruct Htab as [_ _ _ Hs _]. destruct T1 as [_ _ _ Hs' _].
        clear -Hfst Hs Hs'. revert er Hfst Hs. induction es1 as [|[l e] es1 IH]; intros er Hfst Hs.
        + by destruct er.
        + destruct er as [|[l' e'] er]; [done|]. simpl in Hfst. injection Hfst as -> Hfst.
          apply Forall_cons in Hs as [[_ Hs1] Hs]. apply Forall_cons in Hs' as [[_ Hs1'] Hs'].
          simpl in *. f_equal; [f_equal; congruence|]. by apply IH. }
    subst er. destruct out as [t|]; [|done]. destruct Ho1 as [N _]. split; [done|]. exact Htab.
  - destruct sub as [b|]; [|done].
    destruct (decide (es1 = [])) as [E1|N1].
    + destruct (Hnil' E1 N2) as [-> ->]. split; [|exact Htab].
      intros E. apply Hemp in E as [_ E]. done.
    + destruct out as [a|]; [|by destruct Ho1].
      assert (Hner : er <> []) by (intros E; apply Hemp in E as [E _]; done).
      destruct Hor as [->| ->]; split; done.
Qed.

(** The rule for [for_entries]: an invariant [I k] that holds after [k]
    iterations and keeps the chain being traversed in the store. *)
Lemma for_entries_ind {A} (I : nat -> A -> state -> Prop) (body : option nat -> A -> M A)
    (es : list (nat * Entry)) :
  linked es ->
  (forall k acc s, I k acc s -> stored 0 (mem s) es) ->
  (forall k le acc s, es !! k = Some le -> I k acc s ->
     exists acc' s', body (Some le.1) acc s = Return acc' s' /\ I (S k) acc' s') ->
  forall fuel acc s, length es <= fuel -> I 0 acc s ->
  exists acc' s',
    for_entries fuel (hd_ptr es) acc body s = Return acc' s' /\ I (length es) acc' s'.
Proof.
  intros Hlk Hst Hbody.
  assert (G : forall rest done fuel acc s,
    es = done ++ rest -> length rest <= fuel -> I (length done) acc s ->
    exists acc' s', for_entries fuel (first_ptr rest None) acc body s = Return acc' s'
                    /\ I (length es) acc' s').
  { induction rest as [|[l e] rest IH]; intros done fuel acc s Hes Hf HI.
    - simpl. destruct fuel; exists acc, s; (split; [reflexivity|]);
        subst es; rewrite app_nil_r; done.
    - destruct fuel as [|fuel]; [simpl in Hf; lia|]. simpl.
      assert (Hk : es !! length done = Some (l, e)).
      { subst es. rewrite lookup_app_r by lia. by rewrite Nat.sub_diag. }
      destruct (Hbody _ _ _ _ Hk HI) as (acc1 & s1 & Hb & HI1).
      erewrite bind_Return by exact Hb. simpl.
      pose proof (Hst _ _ _ HI1) as Hs1.
      assert (He : mem s1 !! l = Some (CEntry e)).
      { unfold stored in Hs1. rewrite Forall_forall in Hs1.
        destruct (Hs1 (l, e)) as [_ X]; [|exact X].
        apply list_elem_of_lookup. eauto. }
      destruct s1 as [h1 lg1]. simpl in He.
      erewrite bind_Return by (by apply load_entry_run).
      assert (Hnx : e_next e = first_ptr rest None).
      { unfold linked in Hlk. subst es. apply lseg_app in Hlk as [_ Hlk].
        simpl in Hlk. apply Hlk. }
      rewrite Hnx. apply (IH (done ++ [(l, e)])).
      + subst es. by rewrite <- app_assoc.
      + simpl in Hf. lia.
      + rewrite length_app. simpl. rewrite Nat.add_1_r. exact HI1. }
  intros fuel acc s Hf HI. apply (G es [] fuel acc s); done.
Qed.
Lemma etree_nested_ind (P : etree -> Prop) :
  (forall l e i p, P (ELeaf l e i p)) ->
  (forall l e i sub, Forall P sub -> P (ETab l e i sub)) ->
  forall t, P t.
Proof.
  intros HL HT. fix IH 1. intros [l e i p|l e i sub].
  - apply HL.
  - apply HT. induction sub as [|x r IHr]; constructor; [apply IH|exact IHr].
Qed.

Lemma rep_id_extend lo h k p i : rep_id lo h p i -> rep_id lo (h ++ k) p i.
Proof.
  unfold rep_id. destruct p, i; try done. intros [H1 H2]. split; [done|].
  by apply lookup_extend.
Qed.

Lemma rep_pay_extend lo h k v p : rep_pay lo h v p -> rep_pay lo (h ++ k) v p.
Proof.
  unfold rep_pay. destruct p; try done.
  - intros (l & H1 & H2 & H3). exists l. split; [done|]. split; [done|]. by apply lookup_extend.
  - intros (l & H1 & H2 & H3). exists l. split; [done|]. split; [done|]. by apply lookup_extend.
Qed.

Lemma rep_extend lo h k t : rep lo h t -> rep lo (h ++ k) t.
Proof.
  induction t as [l e i p|l e i sub IH] using etree_nested_ind.
  - simpl. intros [H1 H2]. split; [by apply rep_id_extend|by apply rep_pay_extend].
  - rewrite !rep_tab_unfold. intros (H1 & (t & H2 & H3) & H4).
    split; [by apply rep_id_extend|]. split.
    + exists t. split; [done|]. by apply is_table_extend.
    + rewrite Forall_forall in *. intros x Hx. apply IH; [done|]. by apply H4.
Qed.

Lemma rep_table_extend lo h k p ts : rep_table lo h p ts -> rep_table lo (h ++ k) p ts.
Proof.
  intros [H1 H2]. split.
  - destruct p; simpl in *; [by apply is_table_extend|done].
  - eapply Forall_impl; [exact H2|]. intros x. apply rep_extend.
Qed.

Lemma weights_cons x ts : weights (x :: ts) = weight x + weights ts.
Proof. reflexivity. Qed.

Lemma weight_pos x : 0 < weight x.
Proof. destruct x; simpl; lia. Qed.

Lemma weights_length ts : length ts <= weights ts.
Proof.
  induction ts as [|x r IH]; [done|]. rewrite weights_cons. simpl.
  pose proof (weight_pos x). lia.
Qed.

Lemma weights_elem x ts : x ∈ ts -> weight x <= weights ts.
Proof.
  induction 1; rewrite weights_cons; lia.
Qed.

Lemma cells_of_lookup ts k le :
  cells_of ts !! k = Some le ->
  exists x, ts !! k = Some x /\ le = (node_loc x, node_entry x).
Proof.
  unfold cells_of. rewrite list_lookup_fmap. destruct (ts !! k) as [x|]; [|done].
  simpl. intros [= <-]. eauto.
Qed.

Lemma length_cells_of ts : length (cells_of ts) = length ts.
Proof. unfold cells_of. by rewrite length_fmap. Qed.

Lemma preorder_gets_snoc id_cmp tnz d kv ty ts x :
  preorder_gets id_cmp tnz d kv ty (ts ++ [x]) =
  preorder_gets id_cmp tnz d kv ty ts ++ preorder_get id_cmp tnz d kv ty x.
Proof.
  unfold preorder_gets. rewrite fmap_app, concat_app. simpl. by rewrite app_nil_r.
Qed.

Section LookupRun.

Variable id_cmp : Id -> Id -> bool.
Variable type_nonzero : TType -> bool.

Lemma STCMP_run h lg l e i key kv ty :
  h !! l = Some (CEntry e) ->
  rep_id 0 h (e_id e) i ->
  rep_id 0 h key kv ->
  STCMP id_cmp type_nonzero (Some l) key ty (mkState h lg) =
  Return (stcmp id_cmp type_nonzero i kv (e_type e) ty) (mkState h lg).
Proof.
  intros Hl Hi Hk. unfold STCMP.
  erewrite bind_Return by (by apply load_entry_run).
  unfold rep_id in *. destruct (e_id e) as [li|], i as [iv|]; try done;
    destruct key as [lk|], kv as [kvv|]; try done; simpl.
  destruct Hi as [_ Hi]. destruct Hk as [_ Hk].
  destruct (type_nonzero ty); [|done].
  erewrite bind_Return by (by apply load_id_run).
  erewrite bind_Return by (by apply load_id_run).
  reflexivity.
Qed.

Lemma SCMP_run h lg l e i key kv :
  h !! l = Some (CEntry e) ->
  rep_id 0 h (e_id e) i ->
  rep_id 0 h key kv ->
  SCMP id_cmp (Some l) key (mkState h lg) =
  Return (scmp id_cmp i kv) (mkState h lg).
Proof.
  intros Hl Hi Hk. unfold SCMP.
  erewrite bind_Return by (by apply load_entry_run).
  unfold rep_id in *. destruct (e_id e) as [li|], i as [iv|]; try done;
    destruct key as [lk|], kv as [kvv|]; try done; simpl.
  destruct Hi as [_ Hi]. destruct Hk as [_ Hk].
  erewrite bind_Return by (by apply load_id_run).
  erewrite bind_Return by (by apply load_id_run).
  reflexivity.
Qed.

Lemma is_anonymous_run h lg l e i :
  h !! l = Some (CEntry e) ->
  rep_id 0 h (e_id e) i ->
  is_anonymous (Some l) (mkState h lg) = Return (anonymous i) (mkState h lg).
Proof.
  intros Hl Hi. unfold is_anonymous.
  erewrite bind_Return by (by apply load_entry_run).
  unfold rep_id in *. destruct (e_id e) as [li|], i as [iv|]; try done; simpl.
  destruct Hi as [_ Hi].
  erewrite bind_Return by (by apply load_id_run).
  reflexivity.
Qed.

End LookupRun.

Lemma found_app a b : found (a ++ b) = found a ++ found b.
Proof. unfold found. by rewrite fmap_app. Qed.

Lemma table_recursive_get_S id_cmp tnz n table id type :
  table_recursive_get id_cmp tnz (S n) table id type =
  (let* t := load_table table in
   for_entries n (t_head t) None (fun e out =>
     let* m := STCMP id_cmp tnz e id type in
     let* out := (if m then table_add out e else ret out) in
     let* ent := load_entry e in
     if is_recursive (e_type ent) then
       let* sub := table_recursive_get id_cmp tnz n (e_value ent) id type in
       table_join out sub
     else ret out)).
Proof. reflexivity. Qed.

Section LookupCorrect.

Variable id_cmp : Id -> Id -> bool.
Variable type_nonzero : TType -> bool.

Lemma get_step n key kv ty h0 x h lg out acc :
  rget_ok id_cmp type_nonzero n key kv ty ->
  weight x <= n ->
  h0 !! node_loc x = Some (CEntry (node_entry x)) ->
  rep 0 h0 x -> searchable x -> rep_id 0 h0 key kv ->
  collected h0 h out acc ->
  exists out' h',
    (let* m := STCMP id_cmp type_nonzero (Some (node_loc x)) key ty in
     let* out := (if m then table_add out (Some (node_loc x)) else ret out) in
     let* ent := load_entry (Some (node_loc x)) in
     if is_recursive (e_type ent) then
       let* sub := table_recursive_get id_cmp type_nonzero n (e_value ent) key ty in
       table_join out sub
     else ret out) (mkState h lg) = Return out' (mkState h' lg)
    /\ collected h0 h' out'
         (acc ++ found (preorder_get id_cmp type_nonzero is_recursive kv ty x)).
Proof.
  intros Hrec Hw Hcell Hrep Hsrch Hkey Hcol.
  pose proof Hcol as [[k ->] _].
  assert (Hid : rep_id 0 h0 (e_id (node_entry x)) (node_id x)).
  { destruct x; [simpl in Hrep|apply rep_tab_unfold in Hrep]; apply Hrep. }
  erewrite bind_Return.
  2:{ apply STCMP_run; [by apply lookup_extend|by apply rep_id_extend|by apply rep_id_extend]. }
  fold (node_type x). fold (matches id_cmp type_nonzero kv ty x).
  (* the exact match *)
  assert (Hadd : exists out1 h1,
    (if matches id_cmp type_nonzero kv ty x
     then table_add out (Some (node_loc x)) else ret out) (mkState (h0 ++ k) lg)
      = Return out1 (mkState h1 lg)
    /\ collected h0 h1 out1
         (acc ++ found (if matches id_cmp type_nonzero kv ty x then [x] else []))).
  { destruct (matches id_cmp type_nonzero kv ty x).
    - eapply collected_add; [done|]. by apply lookup_extend.
    - exists out, (h0 ++ k). split; [done|]. simpl. by rewrite app_nil_r. }
  destruct Hadd as (out1 & h1 & Hrun1 & Hcol1).
  erewrite bind_Return by exact Hrun1.
  pose proof Hcol1 as [[k1 ->] _].
  erewrite bind_Return by (apply load_entry_run; by apply lookup_extend).
  cbv beta.
  destruct x as [l e i p|l e i sub].
  - simpl in Hsrch. cbn [node_entry]. rewrite Hsrch.
    exists out1, (h0 ++ k1). split; [done|]. simpl.
    simpl in Hcol1. by rewrite app_nil_r.
  - rewrite preorder_get_tab, found_app, app_assoc. cbn [node_entry].
    destruct (is_recursive (e_type e)) eqn:Hr.
    + pose proof (proj1 (searchable_tab _ _ _ _) Hsrch Hr) as Hsrch'.
      apply rep_tab_unfold in Hrep as (_ & (t' & Hv & Htab) & Hsub).
      rewrite Hv.
      destruct (Hrec sub (h0 ++ k1) t' lg) as (so & h2 & Hrun2 & Hcol2).
      { apply rep_table_extend. split; [exact Htab|exact Hsub]. }
      { exact Hsrch'. }
      { by apply rep_id_extend. }
      { rewrite weight_tab in Hw. lia. }
      erewrite bind_Return by exact Hrun2.
      destruct (collected_join _ _ _ lg _ _ _ _ Hcol1 Hcol2) as (r & h3 & Hrun3 & Hcol3).
      exists r, h3. split; [exact Hrun3|exact Hcol3].
    + exists out1, (h0 ++ k1). split; [done|]. simpl. by rewrite app_nil_r.
Qed.

Lemma found_take_S (ts : list etree) k x (f : etree -> list etree) :
  ts !! k = Some x ->
  found (concat (f <$> take (S k) ts)) =
  found (concat (f <$> take k ts)) ++ found (f x).
Proof.
  intros H. erewrite take_S_r by exact H.
  rewrite fmap_app, concat_app, found_app. simpl. by rewrite app_nil_r.
Qed.

Lemma table_recursive_get_correct key kv ty n : rget_ok id_cmp type_nonzero n key kv ty.
Proof.
  induction n as [|n IH]; intros ts h t lg [Htab Hrep] Hsrch Hkey Hw; [lia|].
  rewrite table_recursive_get_S. simpl in Htab. pose proof Htab as [_ Hcell Hlk Hst _].
  erewrite bind_Return by (by apply load_table_run). simpl t_head.
  pose (I := fun (k : nat) (out : option nat) (s : state) =>
    err s = lg /\ collected h (mem s) out
      (found (concat (preorder_get id_cmp type_nonzero is_recursive kv ty <$> take k ts)))).
  set (body := fun (e out : option nat) =>
     let* m := STCMP id_cmp type_nonzero e key ty in
     let* out := (if m then table_add out e else ret out) in
     let* ent := load_entry e in
     if is_recursive (e_type ent) then
       let* sub := table_recursive_get id_cmp type_nonzero n (e_value ent) key ty in
       table_join out sub
     else ret out).
  assert (Hstable : forall k acc s, I k acc s -> stored 0 (mem s) (cells_of ts)).
  { intros k acc s [_ [[k' E] _]]. rewrite E. by apply stored_extend. }
  assert (Hbody : forall k le acc s, cells_of ts !! k = Some le -> I k acc s ->
     exists acc' s', body (Some le.1) acc s = Return acc' s' /\ I (S k) acc' s').
  { intros k le acc [h1 lg1] Hk [Herr Hcol]. simpl in Herr, Hcol. subst lg1.
    apply cells_of_lookup in Hk as (x & Hx & ->). simpl.
    assert (Hin : x ∈ ts) by (apply list_elem_of_lookup; eauto).
    destruct (get_step n key kv ty h x h1 lg acc
      (found (concat (preorder_get id_cmp type_nonzero is_recursive kv ty <$> take k ts))) IH)
      with (6 := Hcol)
      as (out' & h' & Hrun & Hcol').
    + pose proof (weights_elem _ _ Hin). lia.
    + unfold stored in Hst. rewrite Forall_forall in Hst.
      destruct (Hst (node_loc x, node_entry x)) as [_ X]; [|exact X].
      unfold cells_of. apply list_elem_of_fmap. eauto.
    + rewrite Forall_forall in Hrep. by apply Hrep.
    + rewrite Forall_forall in Hsrch. by apply Hsrch.
    + exact Hkey.
    + exists out', (mkState h' lg). split; [exact Hrun|]. split; [done|].
      simpl. unfold I. erewrite found_take_S by exact Hx. exact Hcol'. }
  destruct (for_entries_ind I body (cells_of ts) Hlk Hstable Hbody n None (mkState h lg))
    as (out & s' & Hrun & Herr & Hcol).
  - rewrite length_cells_of. pose proof (weights_length ts). lia.
  - split; [done|]. simpl. apply collected_nil.
  - destruct s' as [h' lg']. simpl in Herr, Hcol. subst lg'.
    exists out, h'. split; [exact Hrun|].
    rewrite length_cells_of, firstn_all in Hcol. exact Hcol.
Qed.

End LookupCorrect.
Lemma rep_path_extend h k p pv : rep_path h p pv -> rep_path (h ++ k) p pv.
Proof.
  revert pv. induction p as [i|i r IH]; intros [v|v rv]; simpl; try done.
  - apply rep_id_extend.
  - intros [H1 H2]. split; [by apply rep_id_extend|by apply IH].
Qed.

Lemma table_path_get_S id_cmp tnz n table path type :
  table_path_get id_cmp tnz (S n) table path type =
  (let* nonempty := has_head table in
   if negb nonempty then ret None else
   let* t := load_table table in
   for_entries n (t_head t) None (fun e out =>
     if path_is_base path then
       let* m := STCMP id_cmp tnz e (path_id path) type in
       let* out := (if m then table_add out e else ret out) in
       let* ent := load_entry e in
       if is_recursive (e_type ent) then
         let* sub := table_recursive_get id_cmp tnz n (e_value ent) (path_id path) type in
         table_join out sub
       else ret out
     else
       let* ent := load_entry e in
       if is_recursive (e_type ent) then
         let* anon := is_anonymous e in
         let* go := (if anon then ret true else SCMP id_cmp e (path_id path)) in
         if go then
           match path_next path with
           | None => fault
           | Some rest =>
               let* sub := table_path_get id_cmp tnz n (e_value ent) rest type in
               table_join out sub
           end
         else ret out
       else ret out)).
Proof. reflexivity. Qed.

Lemma cells_of_nil ts : cells_of ts = [] -> ts = [].
Proof. by destruct ts. Qed.

Lemma stored_lookup lo h es le : stored lo h es -> le ∈ es -> h !! le.1 = Some (CEntry le.2).
Proof.
  unfold stored. rewrite Forall_forall. intros Hs Hin. by destruct (Hs le Hin).
Qed.

Lemma node_cell h ts x :
  stored 0 h (cells_of ts) -> x ∈ ts -> h !! node_loc x = Some (CEntry (node_entry x)).
Proof.
  intros Hs Hin. apply (stored_lookup _ _ _ (node_loc x, node_entry x) Hs).
  unfold cells_of. apply list_elem_of_fmap. eauto.
Qed.

Section PathCorrect.

Variable id_cmp : Id -> Id -> bool.
Variable type_nonzero : TType -> bool.

Lemma path_gets_nil pv ty : path_gets id_cmp type_nonzero pv ty [] = [].
Proof. by destruct pv. Qed.

(** At the base segment the lookup is the recursive search of this level. *)
Lemma path_gets_base k ty ts :
  Forall searchable ts ->
  path_gets id_cmp type_nonzero (pathv_base k) ty ts =
  preorder_gets id_cmp type_nonzero is_recursive k ty ts.
Proof.
  intros Hs. simpl. unfold preorder_gets at 2. f_equal.
  apply Forall_fmap_ext. eapply Forall_impl; [exact Hs|].
  intros [l e i p|l e i sub] Hx.
  - simpl in Hx. unfold node_type. simpl. by rewrite Hx.
  - by rewrite preorder_get_tab.
Qed.

Lemma path_step n ty key kv rest rv h0 x h lg out acc :
  pget_ok id_cmp type_nonzero n ty ->
  weight x <= n ->
  h0 !! node_loc x = Some (CEntry (node_entry x)) ->
  rep 0 h0 x -> searchable x -> rep_id 0 h0 key kv -> rep_path h0 rest rv ->
  collected h0 h out acc ->
  exists out' h',
    (let* ent := load_entry (Some (node_loc x)) in
     if is_recursive (e_type ent) then
       let* anon := is_anonymous (Some (node_loc x)) in
       let* go := (if anon then ret true else SCMP id_cmp (Some (node_loc x)) key) in
       if go then
         let* sub := table_path_get id_cmp type_nonzero n (e_value ent) rest ty in
         table_join out sub
       else ret out
     else ret out) (mkState h lg) = Return out' (mkState h' lg)
    /\ collected h0 h' out'
         (acc ++ found (if is_recursive (node_type x) &&
                           (anonymous (node_id x) || scmp id_cmp (node_id x) kv)
                        then path_gets id_cmp type_nonzero rv ty (node_sub x)
                        else [])).
Proof.
  intros Hrec Hw Hcell Hrep Hsrch Hkey Hrest Hcol.
  pose proof Hcol as [[k ->] _].
  assert (Hid : rep_id 0 h0 (e_id (node_entry x)) (node_id x)).
  { destruct x; [simpl in Hrep|apply rep_tab_unfold in Hrep]; apply Hrep. }
  erewrite bind_Return by (apply load_entry_run; by apply lookup_extend).
  cbv beta. fold (node_type x).
  destruct (is_recursive (node_type x)) eqn:Hr; simpl.
  2:{ exists out, (h0 ++ k). split; [done|]. by rewrite app_nil_r. }
  erewrite bind_Return.
  2:{ eapply is_anonymous_run; [by apply lookup_extend|by apply rep_id_extend]. }
  assert (Hgo : (if anonymous (node_id x) then ret true
                 else SCMP id_cmp (Some (node_loc x)) key) (mkState (h0 ++ k) lg)
          = Return (anonymous (node_id x) || scmp id_cmp (node_id x) kv)
              (mkState (h0 ++ k) lg)).
  { destruct (anonymous (node_id x)); [done|]. simpl.
    eapply SCMP_run; [by apply lookup_extend|by apply rep_id_extend|by apply rep_id_extend]. }
  erewrite bind_Return by exact Hgo.
  destruct (anonymous (node_id x) || scmp id_cmp (node_id x) kv).
  2:{ exists out, (h0 ++ k). split; [done|]. by rewrite app_nil_r. }
  destruct x as [l e i p|l e i sub].
  { simpl in Hsrch. unfold node_type in Hr. simpl in Hr. congruence. }
  unfold node_type in Hr. cbn [node_entry node_sub] in *.
  pose proof (proj1 (searchable_tab _ _ _ _) Hsrch Hr) as Hsrch'.
  apply rep_tab_unfold in Hrep as (_ & (t' & Hv & Htab) & Hsub).
  rewrite Hv.
  destruct (Hrec rest rv sub (h0 ++ k) (Some t') lg) as (so & h2 & Hrun2 & Hcol2).
  { apply rep_table_extend. split; [exact Htab|exact Hsub]. }
  { exact Hsrch'. }
  { by apply rep_path_extend. }
  { rewrite weight_tab in Hw. lia. }
  erewrite bind_Return by exact Hrun2.
  destruct (collected_join _ _ _ lg _ _ _ _ Hcol Hcol2) as (r & h3 & Hrun3 & Hcol3).
  exists r, h3. split; [exact Hrun3|exact Hcol3].
Qed.

Lemma table_path_get_correct ty n : pget_ok id_cmp type_nonzero n ty.
Proof.
  induction n as [|n IH]; intros p pv ts h tp lg [Htab Hrep] Hsrch Hpath Hw; [lia|].
  rewrite table_path_get_S.
  destruct tp as [t|]; simpl in Htab.
  2:{ apply cells_of_nil in Htab. subst ts. exists None, h. split; [reflexivity|].
      rewrite path_gets_nil. apply collected_nil. }
  erewrite bind_Return by (by eapply has_head_run).
  destruct (decide (cells_of ts = [])) as [E|N].
  { rewrite bool_decide_false by (intros X; by apply X). simpl.
    apply cells_of_nil in E. subst ts. exists None, h. split; [reflexivity|].
    rewrite path_gets_nil. apply collected_nil. }
  rewrite bool_decide_true by done. cbv beta. cbn [negb].
  pose proof Htab as [_ Hcell Hlk Hst _].
  erewrite bind_Return by (by apply load_table_run). simpl t_head.
  destruct p as [key|key rest]; destruct pv as [kv|kv rv]; simpl in Hpath; try done.
  - (* the base segment *)
    rewrite path_gets_base by done. 
    pose (I := fun (k : nat) (out : option nat) (s : state) =>
      err s = lg /\ collected h (mem s) out
        (found (concat (preorder_get id_cmp type_nonzero is_recursive kv ty <$> take k ts)))).
    set (body := fun (e out : option nat) => _).
    assert (Hstable : forall k acc s, I k acc s -> stored 0 (mem s) (cells_of ts)).
    { intros k acc s [_ [[k' E] _]]. rewrite E. by apply stored_extend. }
    assert (Hbody : forall k le acc s, cells_of ts !! k = Some le -> I k acc s ->
       exists acc' s', body (Some le.1) acc s = Return acc' s' /\ I (S k) acc' s').
    { intros k le acc [h1 lg1] Hk [Herr Hcol]. simpl in Herr, Hcol. subst lg1.
      apply cells_of_lookup in Hk as (x & Hx & ->). simpl.
      assert (Hin : x ∈ ts) by (apply list_elem_of_lookup; eauto).
      destruct (get_step id_cmp type_nonzero n key kv ty h x h1 lg acc
        (found (concat (preorder_get id_cmp type_nonzero is_recursive kv ty <$> take k ts)))
        (table_recursive_get_correct id_cmp type_nonzero key kv ty n))
        with (6 := Hcol) as (out' & h' & Hrun & Hcol').
      + pose proof (weights_elem _ _ Hin). lia.
      + by eapply node_cell.
      + rewrite Forall_forall in Hrep. by apply Hrep.
      + rewrite Forall_forall in Hsrch. by apply Hsrch.
      + exact Hpath.
      + exists out', (mkState h' lg). split; [exact Hrun|]. split; [done|].
        simpl. unfold I. erewrite found_take_S by exact Hx. exact Hcol'. }
    destruct (for_entries_ind I body (cells_of ts) Hlk Hstable Hbody n None (mkState h lg))
      as (out & s' & Hrun & Herr & Hcol).
    + rewrite length_cells_of. pose proof (weights_length ts). lia.
    + split; [done|]. simpl. apply collected_nil.
    + destruct s' as [h' lg']. simpl in Herr, Hcol. subst lg'.
      exists out, h'. split; [exact Hrun|].
      rewrite length_cells_of, firstn_all in Hcol. exact Hcol.
  - (* before the base *)
    destruct Hpath as [Hkey Hrest].
    set (f := fun x : etree =>
        if is_recursive (node_type x) &&
           (anonymous (node_id x) || scmp id_cmp (node_id x) kv)
        then path_gets id_cmp type_nonzero rv ty (node_sub x)
        else []).
    change (path_gets id_cmp type_nonzero (pathv_cons kv rv) ty ts)
      with (concat (f <$> ts)).
    pose (I := fun (k : nat) (out : option nat) (s : state) =>
      err s = lg /\ collected h (mem s) out (found (concat (f <$> take k ts)))).
    set (body := fun (e out : option nat) => _).
    assert (Hstable : forall k acc s, I k acc s -> stored 0 (mem s) (cells_of ts)).
    { intros k acc s [_ [[k' E] _]]. rewrite E. by apply stored_extend. }
    assert (Hbody : forall k le acc s, cells_of ts !! k = Some le -> I k acc s ->
       exists acc' s', body (Some le.1) acc s = Return acc' s' /\ I (S k) acc' s').
    { intros k le acc [h1 lg1] Hk [Herr Hcol]. simpl in Herr, Hcol. subst lg1.
      apply cells_of_lookup in Hk as (x & Hx & ->). simpl.
      assert (Hin : x ∈ ts) by (apply list_elem_of_lookup; eauto).
      destruct (path_step n ty key kv rest rv h x h1 lg acc
        (found (concat (f <$> take k ts))) IH)
        with (7 := Hcol) as (out' & h' & Hrun & Hcol').
      + pose proof (weights_elem _ _ Hin). lia.
      + by eapply node_cell.
      + rewrite Forall_forall in Hrep. by apply Hrep.
      + rewrite Forall_forall in Hsrch. by apply Hsrch.
      + exact Hkey.
      + exact Hrest.
      + exists out', (mkState h' lg). split; [exact Hrun|]. split; [done|].
        simpl. unfold I. erewrite found_take_S by exact Hx. exact Hcol'. }
    destruct (for_entries_ind I body (cells_of ts) Hlk Hstable Hbody n None (mkState h lg))
      as (out & s' & Hrun & Herr & Hcol).
    + rewrite length_cells_of. pose proof (weights_length ts). lia.
    + split; [done|]. simpl. apply collected_nil.
    + destruct s' as [h' lg']. simpl in Herr, Hcol. subst lg'.
      exists out, h'. split; [exact Hrun|].
      rewrite length_cells_of, firstn_all in Hcol. exact Hcol.
Qed.

End PathCorrect.
Lemma flatten_by_tab d l e i sub :
  flatten_by d (ETab l e i sub) =
  ETab l e i sub :: (if d (e_type e) then flattens_by d sub else []).
Proof.
  simpl. f_equal. destruct (d (e_type e)); [|done].
  unfold flattens_by. induction sub as [|x r IH]; simpl; [done|]. by rewrite IH.
Qed.

(** The recursive search returns the matching nodes of the pre-order
    traversal. *)
Lemma preorder_get_filter id_cmp tnz d k ty x :
  preorder_get id_cmp tnz d k ty x =
  List.filter (matches id_cmp tnz k ty) (flatten_by d x).
Proof.
  induction x as [l e i p|l e i sub IH] using etree_nested_ind.
  - simpl. destruct (matches _ _ _ _ _); reflexivity.
  - rewrite preorder_get_tab, flatten_by_tab. simpl List.filter.
    assert (E : (if d (e_type e) then preorder_gets id_cmp tnz d k ty sub else []) =
                List.filter (matches id_cmp tnz k ty)
                  (if d (e_type e) then flattens_by d sub else [])).
    { destruct (d (e_type e)); [|done]. unfold preorder_gets, flattens_by.
      induction IH as [|y r Hy Hr IHr]; [done|].
      rewrite !fmap_cons. change (concat (?a :: ?b)) with (a ++ concat b).
      rewrite List.filter_app. by rewrite Hy, IHr. }
    rewrite E. destruct (matches _ _ _ _ _); reflexivity.
Qed.

Lemma preorder_gets_filter id_cmp tnz d k ty ts :
  preorder_gets id_cmp tnz d k ty ts =
  List.filter (matches id_cmp tnz k ty) (flattens_by d ts).
Proof.
  unfold preorder_gets, flattens_by. induction ts as [|x r IH]; [done|].
  rewrite !fmap_cons. change (concat (?a :: ?b)) with (a ++ concat b).
  rewrite List.filter_app. by rewrite preorder_get_filter, IH.
Qed.

Lemma elem_of_concat {A} (x : A) (ls : list (list A)) :
  x ∈ concat ls <-> exists l, x ∈ l /\ l ∈ ls.
Proof.
  induction ls as [|l ls IH]; simpl.
  - split; [intros H; by apply elem_of_nil in H|]. intros (l & _ & H). by apply elem_of_nil in H.
  - rewrite elem_of_app, IH. split.
    + intros [H|(l' & H1 & H2)]; [exists l|exists l']; split; auto using list_elem_of_here, list_elem_of_further.
    + intros (l' & H1 & H2). apply elem_of_cons in H2 as [->|H2]; eauto.
Qed.

(** Every node of a represented forest is represented. *)
Lemma rep_flatten lo h d x y : rep lo h x -> y ∈ flatten_by d x -> rep lo h y.
Proof.
  revert y. induction x as [l e i p|l e i sub IH] using etree_nested_ind; intros y Hr Hy.
  - simpl in Hy. apply list_elem_of_singleton in Hy. by subst.
  - rewrite flatten_by_tab in Hy. apply elem_of_cons in Hy as [->|Hy]; [done|].
    apply rep_tab_unfold in Hr as (_ & _ & Hsub).
    destruct (d (e_type e)); [|by apply elem_of_nil in Hy].
    unfold flattens_by in Hy. apply elem_of_concat in Hy as (l' & Hy & Hl').
    apply list_elem_of_fmap in Hl' as (z & -> & Hz).
    rewrite Forall_forall in IH, Hsub. eapply IH; eauto.
Qed.

Lemma rep_flattens lo h d ts y :
  Forall (rep lo h) ts -> y ∈ flattens_by d ts -> rep lo h y.
Proof.
  intros Hr Hy. unfold flattens_by in Hy.
  apply elem_of_concat in Hy as (l' & Hy & Hl').
  apply list_elem_of_fmap in Hl' as (z & -> & Hz).
  rewrite Forall_forall in Hr. eapply rep_flatten; eauto.
Qed.

Lemma rep_node_id lo h x : rep lo h x -> rep_id lo h (e_id (node_entry x)) (node_id x).
Proof. destruct x; [simpl|rewrite rep_tab_unfold]; tauto. Qed.

Lemma matches_has_id id_cmp tnz k ty x :
  matches id_cmp tnz k ty x = true -> node_id x <> None /\ k <> None.
Proof. unfold matches, stcmp. destruct (node_id x), k; done. Qed.

Lemma rep_id_not_null lo h p i : rep_id lo h p i -> i <> None -> p <> None.
Proof. unfold rep_id. destruct p, i; done. Qed.

(** Nothing matches the null key. *)
Lemma preorder_gets_null id_cmp tnz d ty ts :
  preorder_gets id_cmp tnz d None ty ts = [].
Proof.
  rewrite preorder_gets_filter. induction (flattens_by d ts) as [|x r IH]; [done|].
  simpl. rewrite IH. unfold matches, stcmp. by destruct (node_id x).
Qed.

Lemma preorder_gets_ids lo h id_cmp tnz d k ty ts :
  Forall (rep lo h) ts ->
  Forall (fun e => e_id e <> None) (found (preorder_gets id_cmp tnz d k ty ts)).
Proof.
  intros Hr. rewrite preorder_gets_filter. unfold found. rewrite Forall_fmap.
  rewrite Forall_forall. intros x Hx. apply list_elem_of_In in Hx.
  apply List.filter_In in Hx as [Hx Hm]. apply list_elem_of_In in Hx.
  simpl. eapply rep_id_not_null.
  - apply rep_node_id. eapply rep_flattens; eauto.
  - by apply matches_has_id in Hm as [? _].
Qed.

Lemma collected_table h0 h out acc :
  collected h0 h out acc ->
  h0 `prefix_of` h /\ exists es, table_cells (length h0) h out es /\ contents es = acc.
Proof.
  intros [Hp (es & Hc & Ho)]. split; [done|]. exists es. split; [|done].
  destruct out; simpl; [by destruct Ho|done].
Qed.
Lemma rep_sub lo h x : rep lo h x -> Forall (rep lo h) (node_sub x).
Proof. destruct x; [constructor|]. rewrite rep_tab_unfold. simpl. tauto. Qed.

Lemma Forall_concat_map {A B} (P : B -> Prop) (f : A -> list B) (l : list A) :
  (forall x, x ∈ l -> Forall P (f x)) -> Forall P (concat (f <$> l)).
Proof.
  induction l as [|x r IH]; intros H; [constructor|].
  rewrite fmap_cons. change (concat (?a :: ?b)) with (a ++ concat b).
  apply Forall_app. split.
  - apply H. apply list_elem_of_here.
  - apply IH. intros y Hy. apply H. by apply list_elem_of_further.
Qed.

Lemma path_gets_ids lo h id_cmp tnz pv ty ts :
  Forall (rep lo h) ts ->
  Forall (fun x => e_id (node_entry x) <> None) (path_gets id_cmp tnz pv ty ts).
Proof.
  revert ts. induction pv as [k|k rest IH]; intros ts Hr; simpl;
    apply Forall_concat_map; intros x Hx;
    (assert (Hrx : rep lo h x) by (rewrite Forall_forall in Hr; by apply Hr)).
  - apply Forall_app. split.
    + destruct (matches id_cmp tnz k ty x) eqn:Hm; constructor; [|constructor].
      eapply rep_id_not_null; [by apply rep_node_id|].
      by apply matches_has_id in Hm as [? _].
    + destruct (is_recursive (node_type x)); [|constructor].
      pose proof (preorder_gets_ids lo h id_cmp tnz is_recursive k ty (node_sub x)
                    (rep_sub _ _ _ Hrx)) as H.
      unfold found in H. by rewrite Forall_fmap in H.
  - destruct (_ && _); [|constructor]. apply IH. by apply rep_sub.
Qed.

Section GetCorrect.

Variable id_cmp : Id -> Id -> bool.
Variable type_nonzero : TType -> bool.

Lemma table_get_correct key kv ty fuel ts h t lg :
  rep_table 0 h (Some t) ts -> rep_id 0 h key kv -> length ts <= fuel ->
  exists out h',
    table_get id_cmp type_nonzero fuel (Some t) key ty (mkState h lg)
      = Return out (mkState h' lg)
    /\ collected h h' out (found (List.filter (matches id_cmp type_nonzero kv ty) ts)).
Proof.
  intros [Htab Hrep] Hkey Hf. unfold table_get. simpl in Htab.
  pose proof Htab as [_ Hcell Hlk Hst _].
  erewrite bind_Return by (by apply load_table_run). simpl t_head.
  pose (I := fun (k : nat) (out : option nat) (s : state) =>
    err s = lg /\ collected h (mem s) out
      (found (List.filter (matches id_cmp type_nonzero kv ty) (take k ts)))).
  set (body := fun (e out : option nat) => _).
  assert (Hstable : forall k acc s, I k acc s -> stored 0 (mem s) (cells_of ts)).
  { intros k acc s [_ [[k' E] _]]. rewrite E. by apply stored_extend. }
  assert (Hbody : forall k le acc s, cells_of ts !! k = Some le -> I k acc s ->
     exists acc' s', body (Some le.1) acc s = Return acc' s' /\ I (S k) acc' s').
  { intros k le acc [h1 lg1] Hk [Herr Hcol]. simpl in Herr, Hcol. subst lg1.
    apply cells_of_lookup in Hk as (x & Hx & ->). simpl. unfold body.
    assert (Hin : x ∈ ts) by (apply list_elem_of_lookup; eauto).
    pose proof Hcol as [[k1 ->] _].
    erewrite bind_Return.
    2:{ apply STCMP_run.
        - apply lookup_extend. by eapply node_cell.
        - apply rep_id_extend, rep_node_id. rewrite Forall_forall in Hrep. by apply Hrep.
        - by apply rep_id_extend. }
    fold (node_type x). fold (matches id_cmp type_nonzero kv ty x).
    unfold I. erewrite take_S_r by exact Hx. rewrite List.filter_app, found_app. simpl.
    destruct (matches id_cmp type_nonzero kv ty x).
    - destruct (collected_add _ _ lg _ _ (node_loc x) (node_entry x) Hcol)
        as (out' & h' & Hrun & Hcol').
      { apply lookup_extend. by eapply node_cell. }
      exists out', (mkState h' lg). split; [exact Hrun|]. split; [done|]. exact Hcol'.
    - exists acc, (mkState (h ++ k1) lg). split; [done|]. split; [done|].
      simpl. by rewrite app_nil_r. }
  destruct (for_entries_ind I body (cells_of ts) Hlk Hstable Hbody fuel None (mkState h lg))
    as (out & s' & Hrun & Herr & Hcol).
  - by rewrite length_cells_of.
  - split; [done|]. simpl. apply collected_nil.
  - destruct s' as [h' lg']. simpl in Herr, Hcol. subst lg'.
    exists out, h'. split; [exact Hrun|].
    rewrite length_cells_of, firstn_all in Hcol. exact Hcol.
Qed.

End GetCorrect.

Lemma filter_null_key id_cmp tnz ty ts :
  List.filter (matches id_cmp tnz None ty) ts = [].
Proof.
  induction ts as [|x r IH]; [done|]. simpl. rewrite IH.
  unfold matches, stcmp. by destruct (node_id x).
Qed.

Lemma filter_ids lo h id_cmp tnz k ty ts :
  Forall (rep lo h) ts ->
  Forall (fun e => e_id e <> None) (found (List.filter (matches id_cmp tnz k ty) ts)).
Proof.
  intros Hr. unfold found. rewrite Forall_fmap. rewrite Forall_forall.
  intros x Hx. apply list_elem_of_In in Hx.
  apply List.filter_In in Hx as [Hx Hm]. apply list_elem_of_In in Hx. simpl.
  eapply rep_id_not_null.
  - apply rep_node_id. rewrite Forall_forall in Hr. by apply Hr.
  - by apply matches_has_id in Hm as [? _].
Qed.
Lemma gather_cons c cs : gather (c :: cs) = (c.1 ++ (gather cs).1, c.2 ++ (gather cs).2).
Proof. reflexivity. Qed.

Lemma gather_snoc cs c :
  gather (cs ++ [c]) = ((gather cs).1 ++ c.1, (gather cs).2 ++ c.2).
Proof.
  unfold gather. rewrite !fmap_app, !concat_app. simpl. by rewrite !app_nil_r.
Qed.

(** [composon_io] in terms of [contribution]. *)
Lemma composon_io_eq is_input x :
  composon_io is_input x =
  if negb (is_composon_or_nest (node_type x)) then ([], [msg_composon])
  else gather (contribution (composon_io is_input) is_input <$> node_sub x).
Proof.
  destruct x as [l e i p|l e i body]; simpl.
  { by destruct (negb _). }
  destruct (negb _); [done|].
  induction body as [|y r IH]; [done|].
  rewrite fmap_cons, gather_cons, <- IH. clear IH.
  f_equal; f_equal; unfold contribution, pick;
    destruct (node_type y); try done;
    destruct y as [l' e' i' p'|l' e' i' sub]; simpl; try (by destruct is_input);
    destruct is_input; try (by destruct sub);
    induction sub as [|a [|b s] IHs]; try done.
Qed.

Lemma hd_ptr_cells_of ts : hd_ptr (cells_of ts) = node_loc <$> head ts.
Proof. by destruct ts. Qed.

Lemma last_ptr_cells_of ts : last_ptr (cells_of ts) = node_loc <$> last ts.
Proof.
  unfold last_ptr, cells_of. rewrite fmap_last. by destruct (last ts).
Qed.

Lemma pick_ptr (is_input : bool) sub :
  (if is_input then last_ptr (cells_of sub) else hd_ptr (cells_of sub)) =
  node_loc <$> pick is_input sub.
Proof.
  unfold pick. destruct is_input; [apply last_ptr_cells_of|apply hd_ptr_cells_of].
Qed.

Lemma pick_elem (is_input : bool) sub ne : pick is_input sub = Some ne -> ne ∈ sub.
Proof.
  unfold pick. destruct is_input; intros H.
  - apply last_Some in H as [l' ->]. apply elem_of_app. right. apply list_elem_of_here.
  - destruct sub; [done|]. injection H as ->. apply list_elem_of_here.
Qed.

Lemma TCMP_run h lg l e t :
  h !! l = Some (CEntry e) ->
  TCMP (Some l) t (mkState h lg) = Return (bool_decide (e_type e = t)) (mkState h lg).
Proof.
  intros H. unfold TCMP. erewrite bind_Return by (by apply load_entry_run). reflexivity.
Qed.

Lemma _table_composon_io_S k l is_input :
  _table_composon_io (S k) (Some l) is_input =
  (let* c := TCMP (Some l) C_COMPOSON in
   let* n := TCMP (Some l) C_NEST in
   if negb (c || n) then eprint msg_composon ;; ret None else
   let* ent := load_entry (Some l) in
   let* t := load_table (e_value ent) in
   for_entries k (t_head t) None (fun e result =>
     let* x := load_entry e in
     match e_type x with
     | C_MANIFOLD | C_POSITIONAL | C_DEREF => table_add result e
     | T_PATH | C_NEST =>
         let* sub := load_table (e_value x) in
         let ne := if is_input then t_tail sub else t_head sub in
         let* r := _table_composon_io k ne is_input in
         table_join result r
     | C_GRPREF => eprint msg_grpref ;; ret result
     | _ => eprint msg_illegal ;; ret result
     end)).
Proof. reflexivity. Qed.

Lemma _table_composon_io_null k is_input s :
  _table_composon_io k None is_input s = Return None s.
Proof. destruct k; reflexivity. Qed.

(** The error path needs no fuel. *)
Lemma _table_composon_io_reject fuel h lg l e (is_input : bool) :
  h !! l = Some (CEntry e) ->
  is_composon_or_nest (e_type e) = false ->
  _table_composon_io fuel (Some l) is_input (mkState h lg) =
  Return None (mkState h (lg ++ [msg_composon])).
Proof.
  intros Hl Ht.
  unfold is_composon_or_nest in Ht.
  destruct fuel; cbn [_table_composon_io];
    (erewrite bind_Return by (by apply TCMP_run));
    (erewrite bind_Return by (by apply TCMP_run));
    rewrite Ht; reflexivity.
Qed.

Lemma io_step k (is_input : bool) h0 y h lg out acc :
  io_ok k ->
  weight y <= k ->
  h0 !! node_loc y = Some (CEntry (node_entry y)) ->
  rep 0 h0 y -> searchable y ->
  collected h0 h out acc ->
  exists out' h',
    (let* x := load_entry (Some (node_loc y)) in
     match e_type x with
     | C_MANIFOLD | C_POSITIONAL | C_DEREF => table_add out (Some (node_loc y))
     | T_PATH | C_NEST =>
         let* sub := load_table (e_value x) in
         let ne := if is_input then t_tail sub else t_head sub in
         let* r := _table_composon_io k ne is_input in
         table_join out r
     | C_GRPREF => eprint msg_grpref ;; ret out
     | _ => eprint msg_illegal ;; ret out
     end) (mkState h lg)
      = Return out'
          (mkState h' (lg ++ (contribution (composon_io is_input) is_input y).2))
    /\ collected h0 h' out'
         (acc ++ found (contribution (composon_io is_input) is_input y).1).
Proof.
  intros Hrec Hw Hcell Hrep Hsrch Hcol.
  pose proof Hcol as [[k0 ->] _].
  erewrite bind_Return by (apply load_entry_run; by apply lookup_extend).
  cbv beta. unfold contribution. fold (node_type y).
  assert (Hleaf : exists out' h',
     table_add out (Some (node_loc y)) (mkState (h0 ++ k0) lg)
       = Return out' (mkState h' (lg ++ []))
     /\ collected h0 h' out' (acc ++ found [y])).
  { rewrite app_nil_r. eapply collected_add; [done|]. by apply lookup_extend. }
  assert (Hnest : is_recursive (node_type y) = true -> exists out' h',
     (let* sub := load_table (e_value (node_entry y)) in
      let ne := if is_input then t_tail sub else t_head sub in
      let* r := _table_composon_io k ne is_input in
      table_join out r) (mkState (h0 ++ k0) lg)
       = Return out'
           (mkState h' (lg ++ (match pick is_input (node_sub y) with
                               | Some ne => composon_io is_input ne
                               | None => ([], [])
                               end).2))
     /\ collected h0 h' out'
          (acc ++ found (match pick is_input (node_sub y) with
                         | Some ne => composon_io is_input ne
                         | None => ([], [])
                         end).1)).
  { intros Hr. destruct y as [l e i p|l e i sub].
    { simpl in Hsrch. unfold node_type in Hr. simpl in Hr. congruence. }
    unfold node_type in Hr. cbn [node_entry node_sub node_loc] in *.
    pose proof (proj1 (searchable_tab _ _ _ _) Hsrch Hr) as Hsrch'.
    apply rep_tab_unfold in Hrep as (_ & (t' & Hv & Htab) & Hsub).
    rewrite Hv. pose proof Htab as [_ Ht' _ Hst _].
    erewrite bind_Return by (apply load_table_run; by apply lookup_extend).
    cbv beta zeta. cbn [t_tail t_head]. rewrite pick_ptr.
    destruct (pick is_input sub) as [ne|] eqn:Hpick; simpl fmap.
    - pose proof (pick_elem _ _ _ Hpick) as Hin.
      destruct (Hrec ne (h0 ++ k0) lg is_input) as (so & h2 & Hrun2 & Hcol2).
      { apply lookup_extend. by eapply node_cell. }
      { apply rep_extend. rewrite Forall_forall in Hsub. by apply Hsub. }
      { rewrite Forall_forall in Hsrch'. by apply Hsrch'. }
      { rewrite weight_tab in Hw. pose proof (weights_elem _ _ Hin). lia. }
      erewrite bind_Return by exact Hrun2.
      destruct (collected_join _ _ _ (lg ++ (composon_io is_input ne).2) _ _ _ _ Hcol Hcol2)
        as (r & h3 & Hrun3 & Hcol3).
      exists r, h3. split; [exact Hrun3|exact Hcol3].
    - erewrite bind_Return by apply _table_composon_io_null.
      destruct (collected_join _ _ _ lg _ _ None [] Hcol (collected_nil _))
        as (r & h3 & Hrun3 & Hcol3).
      exists r, h3. simpl. rewrite !app_nil_r in *. split; [exact Hrun3|exact Hcol3]. }
  assert (Hmsg : forall m, exists out' h',
     (eprint m ;; ret out) (mkState (h0 ++ k0) lg) = Return out' (mkState h' (lg ++ [m]))
     /\ collected h0 h' out' (acc ++ found [])).
  { intros m. exists out, (h0 ++ k0). split; [reflexivity|]. simpl. by rewrite app_nil_r. }
  destruct (node_type y) eqn:Hty; try apply Hmsg; try apply Hleaf;
    apply Hnest; reflexivity.
Qed.
Lemma composon_is_recursive t : is_composon_or_nest t = true -> is_recursive t = true.
Proof. destruct t; done. Qed.

Lemma io_correct k : io_ok k.
Proof.
  induction k as [|k IH]; intros x h lg is_input Hcell Hrep Hsrch Hw.
  { pose proof (weight_pos x). lia. }
  rewrite composon_io_eq.
  destruct (is_composon_or_nest (node_type x)) eqn:Hty; cbn [negb].
  2:{ exists None, h. split; [by eapply _table_composon_io_reject|]. apply collected_nil. }
  destruct x as [l e i p|l e i body].
  { simpl in Hsrch. apply composon_is_recursive in Hty. unfold node_type in Hty.
    simpl in Hty. congruence. }
  unfold node_type in Hty. cbn [node_entry node_sub node_loc] in *.
  pose proof (proj1 (searchable_tab _ _ _ _) Hsrch (composon_is_recursive _ Hty)) as Hsrch'.
  apply rep_tab_unfold in Hrep as (_ & (t' & Hv & Htab) & Hsub).
  pose proof Htab as [_ Ht' Hlk Hst _].
  rewrite _table_composon_io_S.
  erewrite bind_Return by (by apply TCMP_run). cbv beta.
  erewrite bind_Return by (by apply TCMP_run). cbv beta.
  unfold is_composon_or_nest in Hty. rewrite Hty. cbn [negb].
  erewrite bind_Return by (by apply load_entry_run). cbv beta.
  rewrite Hv.
  erewrite bind_Return by (by apply load_table_run). cbn [t_head].
  set (f := contribution (composon_io is_input) is_input).
  pose (I := fun (j : nat) (out : option nat) (s : state) =>
    err s = lg ++ (gather (f <$> take j body)).2
    /\ collected h (mem s) out (found (gather (f <$> take j body)).1)).
  set (body' := fun (e result : option nat) => _).
  assert (Hstable : forall j acc s, I j acc s -> stored 0 (mem s) (cells_of body)).
  { intros j acc s [_ [[k' E] _]]. rewrite E. by apply stored_extend. }
  assert (Hbody : forall j le acc s, cells_of body !! j = Some le -> I j acc s ->
     exists acc' s', body' (Some le.1) acc s = Return acc' s' /\ I (S j) acc' s').
  { intros j le acc [h1 lg1] Hj [Herr Hcol]. simpl in Herr, Hcol. subst lg1.
    apply cells_of_lookup in Hj as (y & Hy & ->). simpl. unfold body'.
    assert (Hin : y ∈ body) by (apply list_elem_of_lookup; eauto).
    destruct (io_step k is_input h y h1 (lg ++ (gather (f <$> take j body)).2) acc
                (found (gather (f <$> take j body)).1) IH)
      with (5 := Hcol) as (out' & h' & Hrun & Hcol').
    + rewrite weight_tab in Hw. pose proof (weights_elem _ _ Hin). lia.
    + by eapply node_cell.
    + rewrite Forall_forall in Hsub. by apply Hsub.
    + rewrite Forall_forall in Hsrch'. by apply Hsrch'.
    + eexists out', _. split; [exact Hrun|]. unfold I.
      erewrite take_S_r by exact Hy. rewrite fmap_app.
      change (f <$> [y]) with [f y]. rewrite gather_snoc. simpl.
      split; [by rewrite app_assoc|]. by rewrite found_app. }
  destruct (for_entries_ind I body' (cells_of body) Hlk Hstable Hbody k None (mkState h lg))
    as (out & s' & Hrun & Herr & Hcol).
  - rewrite length_cells_of. rewrite weight_tab in Hw.
    pose proof (weights_length body). lia.
  - split; [simpl; by rewrite app_nil_r|]. simpl. apply collected_nil.
  - destruct s' as [h' lg']. simpl in Herr, Hcol. subst lg'.
    exists out, h'. rewrite length_cells_of, firstn_all in *.
    split; [exact Hrun|exact Hcol].
Qed.
Lemma agree_lookup a H h l c : agree a H h -> a <= l -> H !! l = Some c -> h !! l = Some c.
Proof.
  intros Ha Hl Hc. rewrite Ha; [done|done|]. by eapply lookup_bound.
Qed.

Lemma agree_refl a H : agree a H H.
Proof. by intros l _ _. Qed.

Lemma rep_id_agree lo H h p i : rep_id lo H p i -> agree lo H h -> rep_id lo h p i.
Proof.
  unfold rep_id. destruct p, i; try done. intros [H1 H2] Ha. split; [done|].
  by eapply agree_lookup.
Qed.

Lemma rep_pay_agree lo H h v p : rep_pay lo H v p -> agree lo H h -> rep_pay lo h v p.
Proof.
  unfold rep_pay. destruct p; try done; intros (l & H1 & H2 & H3) Ha;
    exists l; (split; [done|]); (split; [done|]); by eapply agree_lookup.
Qed.

Lemma is_table_agree lo H h t es : is_table lo H t es -> agree lo H h -> is_table lo h t es.
Proof.
  intros [H1 H2 H3 H4 H5] Ha. split; try done.
  - by eapply agree_lookup.
  - unfold stored in *. eapply Forall_impl; [exact H4|]. intros le [X Y].
    split; [done|]. by eapply agree_lookup.
Qed.

Lemma rep_agree lo H h x : rep lo H x -> agree lo H h -> rep lo h x.
Proof.
  induction x as [l e i p|l e i sub IH] using etree_nested_ind; intros Hr Ha.
  - simpl in *. destruct Hr. split; [by eapply rep_id_agree|by eapply rep_pay_agree].
  - rewrite rep_tab_unfold in *. destruct Hr as (H1 & (t & H2 & H3) & H4).
    split; [by eapply rep_id_agree|]. split.
    + exists t. split; [done|]. by eapply is_table_agree.
    + rewrite Forall_forall in *. intros y Hy. apply IH; auto.
Qed.

Lemma rep_id_weaken lo lo' h p i : lo' <= lo -> rep_id lo h p i -> rep_id lo' h p i.
Proof. unfold rep_id. destruct p, i; try done. intros ? [? ?]. split; [lia|done]. Qed.

Lemma rep_pay_weaken lo lo' h v p : lo' <= lo -> rep_pay lo h v p -> rep_pay lo' h v p.
Proof.
  unfold rep_pay. destruct p; try done; intros ? (l & H1 & H2 & H3);
    exists l; (split; [done|]); (split; [lia|done]).
Qed.

Lemma rep_weaken lo lo' h x : lo' <= lo -> rep lo h x -> rep lo' h x.
Proof.
  intros Hle. induction x as [l e i p|l e i sub IH] using etree_nested_ind; intros Hr.
  - simpl in *. destruct Hr. split; [by eapply rep_id_weaken|by eapply rep_pay_weaken].
  - rewrite rep_tab_unfold in *. destruct Hr as (H1 & (t & H2 & H3) & H4).
    split; [by eapply rep_id_weaken|]. split.
    + exists t. split; [done|]. by eapply is_table_weaken.
    + rewrite Forall_forall in *. intros y Hy. apply IH; auto.
Qed.

(** Cells below [lo] are not part of a tree represented from [lo] on. *)
Lemma agree_insert_below lo h l c : l < lo -> agree lo h (<[l:=c]> h).
Proof. intros Hl l' H1 H2. rewrite list_lookup_insert_ne; [done|lia]. Qed.

Lemma rep_insert_below lo h l c x : rep lo h x -> l < lo -> rep lo (<[l:=c]> h) x.
Proof. intros Hr Hl. eapply rep_agree; [exact Hr|]. by apply agree_insert_below. Qed.

Lemma rep_set_node_next lo h x nx : rep lo h (set_node_next x nx) <-> rep lo h x.
Proof.
  destruct x; cbn [set_node_next]; [simpl|rewrite !rep_tab_unfold; simpl]; tauto.
Qed.

Lemma erase_set_node_next x nx : erase (set_node_next x nx) = erase x.
Proof. by destruct x. Qed.

Lemma node_loc_set_node_next x nx : node_loc (set_node_next x nx) = node_loc x.
Proof. by destruct x. Qed.

Lemma node_entry_set_node_next x nx :
  node_entry (set_node_next x nx) = set_next (node_entry x) nx.
Proof. by destruct x. Qed.

Lemma cells_of_app a b : cells_of (a ++ b) = cells_of a ++ cells_of b.
Proof. unfold cells_of. by rewrite fmap_app. Qed.

Lemma erase_tab l e i sub : erase (ETab l e i sub) = ANode i (e_type e) PNull (erase <$> sub).
Proof. reflexivity. Qed.

Lemma frozen_step lo b b' hc hc' clone clone' locs locs' x :
  frozen lo b hc clone locs x -> b <= b' ->
  (forall l, l < b -> l ∈ locs \/ clone = Some l \/ hc' !! l = hc !! l) ->
  (forall l, l ∈ locs' -> l ∈ locs \/ b <= l) ->
  (forall t, clone' = Some t -> clone = Some t \/ b <= t) ->
  frozen lo b' hc' clone' locs' x.
Proof.
  intros (a & H & H1 & H2 & H3 & H4 & H5 & H6) Hb Hsame Hlocs Hcl.
  exists a, H. split; [done|]. split; [done|]. split; [|split; [lia|split]].
  - intros l La Lb. destruct (Hsame l) as [X|[X|X]]; [lia| | |].
    + destruct (H5 l X); lia.
    + destruct (H6 l X); lia.
    + rewrite X. by apply H3.
  - intros l Hl. destruct (Hlocs l Hl) as [X|X]; [by apply H5|]. right. lia.
  - intros t Ht. destruct (Hcl t Ht) as [X|X]; [by apply H6|]. right. lia.
Qed.

Lemma frozen_set_next lo b hc clone locs x nx :
  frozen lo b hc clone locs x -> frozen lo b hc clone locs (set_node_next x nx).
Proof.
  intros (a & H & H1 & H2 & H3). exists a, H. split; [done|]. split; [|done].
  by apply rep_set_node_next.
Qed.

Lemma frozen_rep lo b hc clone locs x : frozen lo b hc clone locs x -> rep lo hc x.
Proof.
  intros (a & H & H1 & H2 & H3 & _). eapply rep_weaken; [exact H1|].
  by eapply rep_agree.
Qed.

Lemma clone_inv_nil h : clone_inv h (length h) h None [].
Proof.
  split; [done|]. split; [done|]. split; [done|]. split; [done|].
  split; [|constructor]. intros l Hl. by apply elem_of_nil in Hl.
Qed.

Lemma clone_inv_rep h0 b hc clone ts' :
  clone_inv h0 b hc clone ts' -> h0 `prefix_of` hc /\ rep_table (length h0) hc clone ts'.
Proof.
  intros (H1 & H2 & H3 & H4 & H5 & H6). split; [done|]. split.
  - destruct clone; simpl; [tauto|by subst].
  - eapply Forall_impl; [exact H6|]. intros x. apply frozen_rep.
Qed.

Lemma prefix_from_lookup (h0 h : list cell) :
  (forall l c, h0 !! l = Some c -> h !! l = Some c) -> h0 `prefix_of` h.
Proof.
  intros H. exists (drop (length h0) h).
  rewrite <- (take_drop (length h0) h) at 1. f_equal.
  apply list_eq. intros i. destruct (h0 !! i) as [c|] eqn:E.
  - rewrite lookup_take_lt by (by eapply lookup_bound). by apply H.
  - apply lookup_ge_None in E. apply lookup_take_ge. done.
Qed.

Lemma is_table_same lo h h' t es :
  is_table lo h t es -> h' !! t = h !! t ->
  (forall l, l ∈ es.*1 -> h' !! l = h !! l) -> is_table lo h' t es.
Proof.
  intros [H1 H2 H3 H4 H5] Ht Hl. split; try done.
  - by rewrite Ht.
  - unfold stored in *. rewrite Forall_forall in *. intros le Hin.
    destruct (H4 le Hin) as [X Y]. split; [done|]. rewrite Hl; [done|].
    apply list_elem_of_fmap. eauto.
Qed.

(** The invariant survives changes to cells that are not below [b]. *)
Lemma clone_inv_change h0 b hc hc' clone ts' :
  clone_inv h0 b hc clone ts' ->
  length hc <= length hc' ->
  (forall l, l < b -> hc' !! l = hc !! l) ->
  clone_inv h0 b hc' clone ts'.
Proof.
  intros (H1 & H2 & H3 & H4 & H5 & H6) Hlen Hsame.
  split; [|split; [done|split; [lia|split; [|split; [done|]]]]].
  - apply prefix_from_lookup. intros l c Hc.
    rewrite Hsame by (apply lookup_bound in Hc; lia).
    destruct H1 as [k ->]. by apply lookup_extend.
  - destruct clone as [t|]; [|done]. destruct H4 as (N & Ht & Htab).
    split; [done|]. split; [done|]. eapply is_table_same; [exact Htab| |].
    + by apply Hsame.
    + intros l Hl. apply Hsame. by apply H5.
  - eapply Forall_impl; [exact H6|]. intros x Hx.
    eapply frozen_step; [exact Hx|done| | |].
    + intros l Hl. right. right. by apply Hsame.
    + auto.
    + auto.
Qed.

Lemma clone_inv_extend h0 b hc k clone ts' :
  clone_inv h0 b hc clone ts' -> clone_inv h0 b (hc ++ k) clone ts'.
Proof.
  intros Hi. pose proof Hi as (_ & _ & Hb & _).
  eapply clone_inv_change; [exact Hi| |].
  - rewrite length_app. lia.
  - intros l Hl. apply lookup_app_l. lia.
Qed.

Lemma clone_inv_insert h0 b hc l c clone ts' :
  clone_inv h0 b hc clone ts' -> b <= l -> clone_inv h0 b (<[l:=c]> hc) clone ts'.
Proof.
  intros Hi Hl. eapply clone_inv_change; [exact Hi| |].
  - by rewrite length_insert.
  - intros l' Hl'. apply list_lookup_insert_ne. lia.
Qed.

(** Adding the finished copy of an entry to the clone. *)
Lemma clone_inv_add h0 b hc lg clone ts' le e xn :
  clone_inv h0 b hc clone ts' ->
  hc !! le = Some (CEntry e) ->
  node_loc xn = length hc -> node_entry xn = fields e -> rep b hc xn ->
  exists clone' hc' ts'',
    table_add clone (Some le) (mkState hc lg) = Return clone' (mkState hc' lg)
    /\ clone_inv h0 (length hc') hc' clone' ts''
    /\ erase <$> ts'' = (erase <$> ts') ++ [erase xn].
Proof.
  intros (H1 & H2 & H3 & H4 & H5 & H6) Hle Hloc Hent Hrep.
  destruct clone as [t|].
  - destruct H4 as (Hne & Htb & Htab).
    destruct ts' as [|xl ts0 _] using rev_ind; [done|].
    rewrite cells_of_app in Htab. change (cells_of [xl]) with [(node_loc xl, node_entry xl)] in Htab.
    destruct (table_add_cons _ _ lg _ _ _ _ _ _ Htab Hle)
      as (hc' & Hrun & Htab' & Hlen' & Hpre & Hsame).
    exists (Some t), hc', (ts0 ++ [set_node_next xl (Some (length hc)); xn]).
    assert (Hlocs : (cells_of (ts0 ++ [set_node_next xl (Some (length hc)); xn])).*1 =
                    (cells_of (ts0 ++ [xl])).*1 ++ [length hc]).
    { rewrite !cells_of_app, !fmap_app. simpl.
      rewrite node_loc_set_node_next, Hloc. by rewrite <- app_assoc. }
    assert (Hlt : node_loc xl < b).
    { apply H5. rewrite cells_of_app, fmap_app. apply elem_of_app. right.
      apply list_elem_of_here. }
    split; [exact Hrun|]. split.
    + split; [by apply Hpre|]. split; [lia|]. split; [lia|]. split; [|split].
      * split; [by destruct ts0|]. split; [lia|].
        rewrite cells_of_app. simpl.
        rewrite node_loc_set_node_next, node_entry_set_node_next, Hloc, Hent.
        exact Htab'.
      * intros l Hl. rewrite Hlocs in Hl. apply elem_of_app in Hl as [Hl|Hl].
        -- apply H5 in Hl. lia.
        -- apply list_elem_of_singleton in Hl. lia.
      * rewrite Hlocs.
        assert (Hstep : forall x, frozen (length h0) b hc (Some t) (cells_of (ts0 ++ [xl])).*1 x ->
                  frozen (length h0) (length hc') hc' (Some t)
                    ((cells_of (ts0 ++ [xl])).*1 ++ [length hc]) x).
        { intros x Hx. eapply frozen_step; [exact Hx|lia| | |].
          - intros l Hl. destruct (decide (l = node_loc xl)) as [->|N1].
            { left. rewrite cells_of_app, fmap_app. apply elem_of_app. right.
              apply list_elem_of_here. }
            destruct (decide (l = t)) as [->|N2]; [by right; left|].
            right. right. apply Hsame; [done|done|lia].
          - intros l Hl. apply elem_of_app in Hl as [Hl|Hl]; [by left|].
            apply list_elem_of_singleton in Hl. right. lia.
          - intros t' [= ->]. by left. }
        rewrite Forall_app in H6. destruct H6 as [F1 F2].
        rewrite Forall_singleton in F2.
        apply Forall_app. split; [|constructor; [|constructor; [|constructor]]].
        -- eapply Forall_impl; [exact F1|]. exact Hstep.
        -- apply frozen_set_next. by apply Hstep.
        -- exists b, hc. split; [done|]. split; [done|]. split; [|split; [lia|split]].
           ++ intros l La Lb. apply Hsame; [lia|lia|done].
           ++ intros l Hl. apply elem_of_app in Hl as [Hl|Hl].
              ** left. by apply H5.
              ** apply list_elem_of_singleton in Hl. right. lia.
           ++ intros t' [= ->]. by left.
    + rewrite !fmap_app. simpl. rewrite erase_set_node_next. by rewrite <- app_assoc.
  - subst ts'.
    destruct (table_add_null hc lg le e Hle) as [Hrun Htab].
    eexists _, _, [xn]. split; [exact Hrun|]. split; [|done].
    set (hc' := hc ++ _).
    assert (Hlen' : length hc' = S (S (length hc))).
    { unfold hc'. rewrite length_app. simpl. lia. }
    split; [destruct H1 as [k ->]; unfold hc'; rewrite <- app_assoc; by apply prefix_app_r|].
    split; [pose proof (prefix_length _ _ H1); lia|]. split; [lia|]. split; [|split].
    + split; [done|]. split; [lia|]. simpl. rewrite Hloc, Hent.
      eapply is_table_weaken; [|exact Htab]. pose proof (prefix_length _ _ H1). lia.
    + simpl. intros l Hl. apply list_elem_of_singleton in Hl. lia.
    + constructor; [|constructor]. exists b, hc.
      split; [done|]. split; [done|]. split; [|split; [lia|split]].
      * intros l La Lb. unfold hc'. by apply lookup_app_l.
      * simpl. intros l Hl. apply list_elem_of_singleton in Hl. right. lia.
      * intros t' [= <-]. right. lia.
Qed.
Lemma table_clone_S n t :
  table_clone (S n) (Some t) =
  (let* tb := load_table (Some t) in
   for_entries n (t_head tb) None (fun e clone =>
     let* ent := load_entry e in
     let* id := id_clone (e_id ent) in
     let type := e_type ent in
     let* eclone := entry_new id type None in
     match type with
     | T_PATH | C_COMPOSON | C_NEST | C_DEREF =>
         let* sub := table_clone n (e_value ent) in
         assign_value eclone sub
     | C_MANIFOLD =>
         let* m := manifold_new in
         assign_value eclone m
     | C_POSITIONAL | C_GRPREF =>
         let* x := strdup (e_value ent) in
         assign_value eclone x
     | _ => eprint msg_clone ;; exit_failure
     end ;;
     table_add clone eclone)).
Proof. reflexivity. Qed.

Lemma table_clone_null n s : table_clone n None s = Return None s.
Proof. destruct n; reflexivity. Qed.

Lemma id_clone_run h lg p i :
  rep_id 0 h p i ->
  exists p' k,
    id_clone p (mkState h lg) = Return p' (mkState (h ++ k) lg)
    /\ rep_id (length h) (h ++ k) p' i.
Proof.
  unfold rep_id. destruct p as [l|], i as [v|]; try done.
  - intros [_ Hl]. exists (Some (length h)), [CId v]. split.
    + unfold id_clone. erewrite bind_Return by (by apply load_id_run). reflexivity.
    + split; [done|]. apply lookup_fresh.
  - intros _. exists None, []. rewrite app_nil_r. done.
Qed.

Lemma assign_value_run h lg l e v :
  h !! l = Some (CEntry e) ->
  assign_value (Some l) v (mkState h lg) =
  Return tt (mkState (<[l := CEntry (set_value e v)]> h) lg).
Proof.
  intros H. unfold assign_value. erewrite bind_Return by (by apply load_entry_run).
  apply store_run. by eapply lookup_bound.
Qed.

Lemma rep_id_insert lo h l c p i :
  rep_id lo h p i -> (forall v, h !! l <> Some (CId v)) -> rep_id lo (<[l:=c]> h) p i.
Proof.
  unfold rep_id. destruct p as [l'|], i as [v|]; try done.
  intros [H1 H2] Hn. split; [done|]. rewrite list_lookup_insert_ne; [done|].
  intros ->. by apply (Hn v).
Qed.

Lemma holds_table_not_manifold ty : holds_table ty = true -> ty <> C_MANIFOLD.
Proof. by intros H ->. Qed.

Lemma clonable_tab l e i sub :
  clonable (ETab l e i sub) <-> holds_table (e_type e) = true /\ Forall clonable sub.
Proof.
  simpl. apply and_iff_compat_l. induction sub as [|x r IH].
  - split; auto.
  - rewrite Forall_cons. rewrite IH. tauto.
Qed.
(** The state after the copy of an entry got its value: the entry cell
    [le] was allocated right after the copy of the identifier, [k2] was
    allocated after it, and then [le] was assigned. *)
Lemma fill_common (hb k1 : list cell) p' ty i k2 v :
  let ha := hb ++ k1 in
  let le := length ha in
  let hm := (ha ++ [CEntry (mkEntry p' ty None None)]) ++ k2 in
  let hd := <[le := CEntry (mkEntry p' ty v None)]> hm in
  rep_id (length hb) ha p' i ->
  hm !! le = Some (CEntry (mkEntry p' ty None None))
  /\ S le <= length hd
  /\ (forall l, l < length hb -> hd !! l = hb !! l)
  /\ hd !! le = Some (CEntry (mkEntry p' ty v None))
  /\ rep_id (length hb) hd p' i.
Proof.
  intros ha le hm hd Hid.
  assert (Hle : hm !! le = Some (CEntry (mkEntry p' ty None None))).
  { unfold hm. apply lookup_extend. apply lookup_fresh. }
  assert (Hlen : length ha = length hb + length k1) by (unfold ha; by rewrite length_app).
  split; [done|]. split; [|split; [|split]].
  - unfold hd. rewrite length_insert. apply lookup_bound in Hle. lia.
  - intros l Hl. unfold hd. rewrite list_lookup_insert_ne by (unfold le; lia).
    unfold hm, ha. rewrite <- !app_assoc. by apply lookup_app_l.
  - unfold hd. apply list_lookup_insert_eq. by eapply lookup_bound.
  - unfold hd. apply rep_id_insert.
    + unfold hm. rewrite <- app_assoc. by apply rep_id_extend.
    + intros c. by rewrite Hle.
Qed.

Lemma clone_step n h0 x hb lg clone ts' :
  clone_ok n -> weight x <= n ->
  h0 !! node_loc x = Some (CEntry (node_entry x)) -> rep 0 h0 x -> clonable x ->
  clone_inv h0 (length hb) hb clone ts' ->
  exists clone' hb' ts'',
    (let* ent := load_entry (Some (node_loc x)) in
     let* id := id_clone (e_id ent) in
     let type := e_type ent in
     let* eclone := entry_new id type None in
     match type with
     | T_PATH | C_COMPOSON | C_NEST | C_DEREF =>
         let* sub := table_clone n (e_value ent) in
         assign_value eclone sub
     | C_MANIFOLD =>
         let* m := manifold_new in
         assign_value eclone m
     | C_POSITIONAL | C_GRPREF =>
         let* x := strdup (e_value ent) in
         assign_value eclone x
     | _ => eprint msg_clone ;; exit_failure
     end ;;
     table_add clone eclone) (mkState hb lg) = Return clone' (mkState hb' lg)
    /\ clone_inv h0 (length hb') hb' clone' ts''
    /\ erase <$> ts'' = (erase <$> ts') ++ [refresh (erase x)].
Proof.
  intros Hrec Hw Hcell Hrep Hcl Hinv.
  pose proof Hinv as ([k0 Ek] & _).
  erewrite bind_Return by (apply load_entry_run; rewrite Ek; by apply lookup_extend).
  cbv beta.
  destruct (id_clone_run hb lg (e_id (node_entry x)) (node_id x)) as (p' & k1 & Hrun_id & Hid').
  { rewrite Ek. apply rep_id_extend. by apply rep_node_id. }
  erewrite bind_Return by exact Hrun_id. cbv beta zeta.
  unfold entry_new. erewrite bind_Return by apply alloc_run. cbv beta.
  set (ty := e_type (node_entry x)).
  set (ha := hb ++ k1) in *. set (le := length ha).
  set (hb2 := ha ++ [CEntry (mkEntry p' ty None None)]).
  assert (Hfill : exists v hd xn,
    (match ty with
     | T_PATH | C_COMPOSON | C_NEST | C_DEREF =>
         let* sub := table_clone n (e_value (node_entry x)) in
         assign_value (Some le) sub
     | C_MANIFOLD =>
         let* m := manifold_new in
         assign_value (Some le) m
     | C_POSITIONAL | C_GRPREF =>
         let* x := strdup (e_value (node_entry x)) in
         assign_value (Some le) x
     | _ => eprint msg_clone ;; exit_failure
     end) (mkState hb2 lg) = Return tt (mkState hd lg)
    /\ S le <= length hd
    /\ (forall l, l < length hb -> hd !! l = hb !! l)
    /\ hd !! le = Some (CEntry (mkEntry p' ty v None))
    /\ node_loc xn = length hd /\ node_entry xn = mkEntry p' ty v None
    /\ rep (length hb) hd xn
    /\ erase xn = refresh (erase x)).
  { (* a leaf payload allocated in one cell *)
    assert (Hcell1 : forall c v,
      let hd := <[le := CEntry (mkEntry p' ty v None)]> (hb2 ++ [c]) in
      v = Some (length hb2) ->
      hd !! length hb2 = Some c /\ length hb <= length hb2).
    { intros c v hd ->. split.
      - unfold hd. rewrite list_lookup_insert_ne.
        + apply lookup_fresh.
        + unfold hb2. rewrite length_app. simpl. unfold le. lia.
      - unfold hb2, ha. rewrite !length_app. lia. }
    destruct x as [l e i p|l e i sub]; cbn [node_entry node_id node_loc] in *.
    - (* a leaf *)
      simpl in Hcl. simpl in Hrep. destruct Hrep as [_ Hpay].
      assert (HM : ty = C_MANIFOLD -> exists v hd xn,
        (let* m := manifold_new in assign_value (Some le) m) (mkState hb2 lg)
          = Return tt (mkState hd lg)
        /\ S le <= length hd
        /\ (forall l, l < length hb -> hd !! l = hb !! l)
        /\ hd !! le = Some (CEntry (mkEntry p' ty v None))
        /\ node_loc xn = length hd /\ node_entry xn = mkEntry p' ty v None
        /\ rep (length hb) hd xn
        /\ erase xn = refresh (erase (ELeaf l e i p))).
      { intros Ety.
        destruct (fill_common hb k1 p' ty i [CManifold manifold_empty] (Some (length hb2)) Hid')
          as (Q1 & Q2 & Q3 & Q4 & Q5).
        fold ha le hb2 in Q1, Q2, Q3, Q4, Q5.
        destruct (Hcell1 (CManifold manifold_empty) (Some (length hb2)) eq_refl) as [Q6 Q7].
        eexists _, _, (ELeaf _ (mkEntry p' ty (Some (length hb2)) None) i (PMan manifold_empty)).
        split; [|split; [exact Q2|split; [exact Q3|split; [exact Q4|split; [reflexivity|split; [reflexivity|split]]]]]].
        - unfold manifold_new. erewrite bind_Return by apply alloc_run.
          apply (assign_value_run _ _ _ (mkEntry p' ty None None)); exact Q1.
        - simpl. split; [exact Q5|]. exists (length hb2). split; [done|]. split; [done|]. exact Q6.
        - simpl. fold ty. rewrite Ety. reflexivity. }
      assert (HS : ty <> C_MANIFOLD -> (exists s, p = PStr s) -> exists v hd xn,
        (let* y := strdup (e_value e) in assign_value (Some le) y) (mkState hb2 lg)
          = Return tt (mkState hd lg)
        /\ S le <= length hd
        /\ (forall l, l < length hb -> hd !! l = hb !! l)
        /\ hd !! le = Some (CEntry (mkEntry p' ty v None))
        /\ node_loc xn = length hd /\ node_entry xn = mkEntry p' ty v None
        /\ rep (length hb) hd xn
        /\ erase xn = refresh (erase (ELeaf l e i p))).
      { intros Nty [s ->]. simpl in Hpay. destruct Hpay as (ls & Hv & _ & Hls).
        destruct (fill_common hb k1 p' ty i [CString s] (Some (length hb2)) Hid')
          as (Q1 & Q2 & Q3 & Q4 & Q5).
        fold ha le hb2 in Q1, Q2, Q3, Q4, Q5.
        destruct (Hcell1 (CString s) (Some (length hb2)) eq_refl) as [Q6 Q7].
        eexists _, _, (ELeaf _ (mkEntry p' ty (Some (length hb2)) None) i (PStr s)).
        split; [|split; [exact Q2|split; [exact Q3|split; [exact Q4|split; [reflexivity|split; [reflexivity|split]]]]]].
        - unfold strdup. rewrite Hv. erewrite bind_Return.
          2:{ erewrite bind_Return.
              2:{ apply load_string_run. unfold hb2, ha. rewrite Ek, <- !app_assoc.
                  by apply lookup_extend. }
              apply alloc_run. }
          apply (assign_value_run _ _ _ (mkEntry p' ty None None)); exact Q1.
        - simpl. split; [exact Q5|]. exists (length hb2). split; [done|]. split; [done|]. exact Q6.
        - simpl. fold ty. by rewrite bool_decide_false. }
      assert (HT : ty <> C_MANIFOLD -> p = PNull -> exists v hd xn,
        (let* sub := table_clone n (e_value e) in assign_value (Some le) sub) (mkState hb2 lg)
          = Return tt (mkState hd lg)
        /\ S le <= length hd
        /\ (forall l, l < length hb -> hd !! l = hb !! l)
        /\ hd !! le = Some (CEntry (mkEntry p' ty v None))
        /\ node_loc xn = length hd /\ node_entry xn = mkEntry p' ty v None
        /\ rep (length hb) hd xn
        /\ erase xn = refresh (erase (ELeaf l e i p))).
      { intros Nty ->. simpl in Hpay.
        destruct (fill_common hb k1 p' ty i [] None Hid') as (Q1 & Q2 & Q3 & Q4 & Q5).
        rewrite app_nil_r in Q1, Q2, Q3, Q4, Q5. fold ha le hb2 in Q1, Q2, Q3, Q4, Q5.
        eexists _, _, (ELeaf _ (mkEntry p' ty None None) i PNull).
        split; [|split; [exact Q2|split; [exact Q3|split; [exact Q4|split; [reflexivity|split; [reflexivity|split]]]]]].
        - rewrite Hpay. erewrite bind_Return by apply table_clone_null.
          apply (assign_value_run _ _ _ (mkEntry p' ty None None)); exact Q1.
        - simpl. split; [exact Q5|done].
        - simpl. fold ty. by rewrite bool_decide_false. }
      fold ty in Hcl.
      destruct ty eqn:Ety; try done;
        first [ by apply HM | apply HS; [done|exact Hcl] | apply HT; [done|exact Hcl] ].
    - (* an entry with a nested table *)
      apply clonable_tab in Hcl as [Hty Hcl]. fold ty in Hty.
      apply rep_tab_unfold in Hrep as (_ & (tsrc & Hv & Htab) & Hsub).
      destruct (Hrec sub hb2 (Some tsrc) lg) as (so & hc & sub' & Hrun & [k2 Ehc] & Hrs & Her & Hemp).
      { unfold hb2, ha. rewrite Ek, <- !app_assoc. apply rep_table_extend.
        split; [exact Htab|exact Hsub]. }
      { exact Hcl. }
      { rewrite weight_tab in Hw. lia. }
      destruct (fill_common hb k1 p' ty i k2 so Hid') as (Q1 & Q2 & Q3 & Q4 & Q5).
      fold ha le hb2 in Q1, Q2, Q3, Q4, Q5. rewrite <- Ehc in Q1, Q2, Q3, Q4, Q5.
      set (hd := <[le:=CEntry (mkEntry p' ty so None)]> hc) in *.
      assert (Hrun' : (let* sub0 := table_clone n (e_value e) in assign_value (Some le) sub0)
                        (mkState hb2 lg) = Return tt (mkState hd lg)).
      { rewrite Hv. erewrite bind_Return by exact Hrun. apply (assign_value_run _ _ _ (mkEntry p' ty None None)); exact Q1. }
      assert (Hlt : le < length hb2).
      { unfold hb2. rewrite length_app. simpl. unfold le. lia. }
      assert (Hbb : length hb <= length hb2).
      { unfold hb2, ha. rewrite !length_app. lia. }
      assert (Hnm : ty <> C_MANIFOLD) by (by apply holds_table_not_manifold).
      destruct Hrs as [Htc Hrsub].
      assert (Hx : exists xn, node_loc xn = length hd /\ node_entry xn = mkEntry p' ty so None
                 /\ rep (length hb) hd xn
                 /\ erase xn = refresh (erase (ETab l e i sub))).
      { destruct so as [tc|].
        - exists (ETab (length hd) (mkEntry p' ty (Some tc) None) i sub').
          split; [done|]. split; [done|]. split.
          + apply rep_tab_unfold. split; [exact Q5|]. split.
            * exists tc. split; [done|]. eapply is_table_weaken; [exact Hbb|].
              eapply is_table_agree; [exact Htc|]. by apply agree_insert_below.
            * eapply Forall_impl; [exact Hrsub|]. intros y Hy.
              eapply rep_weaken; [exact Hbb|]. by apply rep_insert_below.
          + rewrite !erase_tab. simpl. fold ty. rewrite bool_decide_false by done.
            f_equal. rewrite Her. clear. induction sub as [|y r IH]; simpl; [done|].
            f_equal. exact IH.
        - simpl in Htc. apply cells_of_nil in Htc. subst sub'.
          exists (ELeaf (length hd) (mkEntry p' ty None None) i PNull).
          split; [done|]. split; [done|]. split.
          + simpl. split; [exact Q5|done].
          + rewrite erase_tab. simpl. fold ty. rewrite bool_decide_false by done.
            f_equal. simpl in Her. clear -Her. destruct sub; [done|discriminate Her]. }
      destruct Hx as (xn & X1 & X2 & X3 & X4).
      assert (Hgoal : exists v hd xn,
        (let* sub0 := table_clone n (e_value e) in assign_value (Some le) sub0)
          (mkState hb2 lg) = Return tt (mkState hd lg)
        /\ S le <= length hd
        /\ (forall l, l < length hb -> hd !! l = hb !! l)
        /\ hd !! le = Some (CEntry (mkEntry p' ty v None))
        /\ node_loc xn = length hd /\ node_entry xn = mkEntry p' ty v None
        /\ rep (length hb) hd xn
        /\ erase xn = refresh (erase (ETab l e i sub))).
      { exists so, hd, xn. auto 10. }
      unfold holds_table in Hty.
      destruct ty eqn:Ety; try done; exact Hgoal. }
  destruct Hfill as (v & hd & xn & Hrun & F1 & F2 & F3 & F4 & F5 & F6 & F7).
  fold le. erewrite bind_Return by exact Hrun.
  assert (Hinv' : clone_inv h0 (length hb) hd clone ts').
  { eapply clone_inv_change; [exact Hinv| |exact F2].
    unfold le, ha in F1. rewrite length_app in F1. lia. }
  destruct (clone_inv_add h0 (length hb) hd lg clone ts' le (mkEntry p' ty v None) xn
              Hinv' F3 F4 F5 F6) as (clone' & hb' & ts'' & R1 & R2 & R3).
  exists clone', hb', ts''. split; [exact R1|]. split; [exact R2|]. by rewrite R3, F7.
Qed.
Lemma clone_correct n : clone_ok n.
Proof.
  induction n as [|n IH]; intros ts h tp lg [Htab Hrep] Hcl Hw; [lia|].
  destruct tp as [t|]; simpl in Htab.
  2:{ apply cells_of_nil in Htab. subst ts. exists None, h, [].
      split; [reflexivity|]. split; [done|]. split; [|done].
      split; [done|constructor]. }
  rewrite table_clone_S. pose proof Htab as [_ Hcell Hlk Hst _].
  erewrite bind_Return by (by apply load_table_run). cbn [t_head].
  pose (I := fun (j : nat) (clone : option nat) (s : state) =>
    err s = lg /\ exists ts',
      clone_inv h (length (mem s)) (mem s) clone ts'
      /\ erase <$> ts' = (fun x => refresh (erase x)) <$> take j ts).
  set (body := fun (e clone : option nat) => _).
  assert (Hstable : forall j acc s, I j acc s -> stored 0 (mem s) (cells_of ts)).
  { intros j acc s [_ (ts' & ([k' E] & _) & _)]. rewrite E. by apply stored_extend. }
  assert (Hbody : forall j le acc s, cells_of ts !! j = Some le -> I j acc s ->
     exists acc' s', body (Some le.1) acc s = Return acc' s' /\ I (S j) acc' s').
  { intros j le acc [h1 lg1] Hj [Herr (ts' & Hinv & Her)]. simpl in Herr, Hinv. subst lg1.
    apply cells_of_lookup in Hj as (x & Hx & ->). simpl. unfold body.
    assert (Hin : x ∈ ts) by (apply list_elem_of_lookup; eauto).
    destruct (clone_step n h x h1 lg acc ts' IH) as (clone' & h' & ts'' & R1 & R2 & R3).
    + pose proof (weights_elem _ _ Hin). lia.
    + by eapply node_cell.
    + rewrite Forall_forall in Hrep. by apply Hrep.
    + rewrite Forall_forall in Hcl. by apply Hcl.
    + exact Hinv.
    + exists clone', (mkState h' lg). split; [exact R1|]. split; [done|].
      exists ts''. split; [exact R2|]. simpl.
      erewrite take_S_r by exact Hx. rewrite fmap_app. by rewrite R3, Her. }
  destruct (for_entries_ind I body (cells_of ts) Hlk Hstable Hbody n None (mkState h lg))
    as (out & s' & Hrun & Herr & (ts' & Hinv & Her)).
  - rewrite length_cells_of. pose proof (weights_length ts). lia.
  - split; [done|]. exists []. split; [apply clone_inv_nil|done].
  - destruct s' as [h' lg']. simpl in Herr, Hinv. subst lg'.
    rewrite length_cells_of, firstn_all in Her.
    destruct (clone_inv_rep _ _ _ _ _ Hinv) as [Hp Hr].
    exists out, h', ts'. split; [exact Hrun|]. split; [exact Hp|]. split; [exact Hr|].
    split; [exact Her|]. intros ->. simpl in Her.
    destruct ts'; [|discriminate Her].
    destruct Hinv as (_ & _ & _ & Hc & _). destruct out; [by destruct Hc|done].
Qed.

Lemma refresh_no_manifold a : no_manifold a -> refresh a = a.
Proof.
  revert a. fix IH 1. intros [i ty p sub] [Hty Hsub]. simpl.
  rewrite bool_decide_false by done. f_equal.
  induction sub as [|b r IHr]; simpl; [done|]. destruct Hsub as [Hb Hr].
  f_equal; [by apply IH|by apply IHr].
Qed.

Lemma rep_table_insert_above h k l c tp ts :
  rep_table 0 h tp ts -> length h <= l -> rep_table 0 (<[l:=c]> (h ++ k)) tp ts.
Proof.
  intros Hr Hl. rewrite insert_app_r_alt by done. by apply rep_table_extend.
Qed.

Lemma rep_table_insert_below lo h l c tp ts :
  rep_table lo h tp ts -> l < lo -> rep_table lo (<[l:=c]> h) tp ts.
Proof.
  intros [H1 H2] Hl. split.
  - destruct tp; simpl in *; [|done]. eapply is_table_agree; [exact H1|].
    by apply agree_insert_below.
  - eapply Forall_impl; [exact H2|]. intros x Hx. by apply rep_insert_below.
Qed.

Lemma _ws_get_label_from_lhs_run a s :
  lhs_named a ->
  _ws_get_label_from_lhs a s =
  Return (lhs_label a) (mkState (mem s) (err s ++ lhs_diag a)).
Proof.
  intros Hn. destruct s as [h lg]. destruct a as [x|]; simpl.
  2:{ unfold ret. by rewrite app_nil_r. }
  specialize (Hn x eq_refl).
  destruct x as [c|c y|c lab|c m|c l|c a b]; simpl in *; destruct c; simpl;
    try (unfold ret; by rewrite app_nil_r); try reflexivity;
    try (specialize (Hn eq_refl); discriminate Hn).
  destruct l; unfold ret; by rewrite app_nil_r.
Qed.


(** * The functions on the concrete stores *)

(** The lookups on the table [a = { f }, f]. *)
Example path_get_a_f :
  returned_entries
    (table_path_get name_cmp all_nonzero 4 (Some 6)
       (path_cons (Some 0) (path_base (Some 1))) C_MANIFOLD (mkState heap_scope []))
  = Some [mkEntry (Some 1) C_MANIFOLD None None].
Proof. reflexivity. Qed.

Example path_get_f :
  returned_entries
    (table_path_get name_cmp all_nonzero 4 (Some 6)
       (path_base (Some 1)) C_MANIFOLD (mkState heap_scope []))
  = Some [mkEntry (Some 1) C_MANIFOLD None None; mkEntry (Some 1) C_MANIFOLD None None].
Proof. reflexivity. Qed.

Example path_get_f_a :
  returned_entries
    (table_path_get name_cmp all_nonzero 4 (Some 6)
       (path_cons (Some 1) (path_base (Some 0))) C_MANIFOLD (mkState heap_scope []))
  = Some [].
Proof. reflexivity. Qed.

Example recursive_get_f :
  returned_entries
    (table_recursive_get name_cmp all_nonzero 4 (Some 6) (Some 1) C_MANIFOLD
       (mkState heap_scope []))
  = Some [mkEntry (Some 1) C_MANIFOLD None None; mkEntry (Some 1) C_MANIFOLD None None].
Proof. reflexivity. Qed.

Example get_f :
  returned_entries
    (table_get name_cmp all_nonzero 4 (Some 6) (Some 1) C_MANIFOLD
       (mkState heap_scope []))
  = Some [mkEntry (Some 1) C_MANIFOLD None None].
Proof. reflexivity. Qed.

(** Inputs and outputs of the composon [f, a group reference, ( (x) )]. *)
Example composon_inputs_run :
  returned_entries (table_composon_inputs 6 (Some 9) (mkState heap_compose []))
  = Some [mkEntry (Some 0) C_MANIFOLD None None; mkEntry None C_POSITIONAL None None].
Proof. reflexivity. Qed.

Example composon_outputs_log :
  match table_composon_outputs 6 (Some 9) (mkState heap_compose []) with
  | Return _ s => err s
  | _ => []
  end = [msg_grpref].
Proof. reflexivity. Qed.

(** The clone of [a = { x }, g]. *)
Example clone_run :
  returned_entries (table_clone 4 (Some 7) (mkState heap_clone []))
  = Some [mkEntry (Some 8) T_PATH (Some 13) None;
          mkEntry None C_GRPREF (Some 17) None].
Proof. reflexivity. Qed.

(** * The claims *)

(** Tactics that establish the representation predicates on the concrete
    stores of the examples. *)
Ltac table_facts :=
  repeat match goal with
  | |- is_table _ _ _ _ => split
  | |- table_cells _ _ _ _ => simpl
  | |- _ /\ _ => split
  | |- linked _ => unfold linked; simpl
  | |- stored _ _ _ => unfold stored
  | |- Forall _ _ => constructor
  | |- NoDup _ => simpl; constructor
  | |- _ ∉ _ => let H := fresh in intros H; repeat (apply elem_of_cons in H as [H|H]; [discriminate H|]); by apply elem_of_nil in H
  | |- apart _ _ => let x := fresh in let H := fresh in let H' := fresh in
      intros x H H'; simpl in H, H';
      repeat (apply elem_of_cons in H as [H|H]; [subst x|]);
      try (by apply elem_of_nil in H);
      repeat (apply elem_of_cons in H' as [H'|H']; [discriminate H'|]);
      by apply elem_of_nil in H'
  | |- _ <= _ => simpl; lia
  | |- _ = _ => reflexivity
  | |- True => exact I
  end.

Ltac rep_facts :=
  repeat first
    [ progress table_facts
    | match goal with
      | |- rep_table _ _ _ _ => split
      | |- Forall _ _ => constructor
      | |- rep _ _ _ => simpl
      | |- rep_id _ _ _ _ => simpl
      | |- rep_pay _ _ _ _ => simpl
      | |- rep_path _ _ _ => simpl
      | |- searchable _ => simpl
      | |- exists t, _ = Some t /\ _ => eexists; split; [reflexivity|]
      | |- is_recursive _ = true -> _ =>
          let H := fresh in intros H; vm_compute in H; first [discriminate H|clear H]
      | |- weights _ < _ => vm_compute; lia
      end ].

Ltac clone_facts :=
  repeat first
    [ progress rep_facts
    | match goal with
      | |- clonable _ => simpl
      | |- no_manifold _ => simpl
      | |- exists x, PStr _ = PStr x => eexists; reflexivity
      | |- holds_table _ = true => reflexivity
      | |- _ <> _ => discriminate
      end ].

(** C8: [table_add] on a table that has a head but no tail returns, and does
    not exit: one warning is logged, the table pointer is returned, the
    only change to the store is the isolated copy of the entry, which is
    linked nowhere: every cell of the store, the table's own cell included,
    is as before, and every chain of entries that was in the store is still
    there and does not pass through the copy. *)
Theorem table_add_tailless h lg t hd l e :
  h !! t = Some (CTable (mkTable (Some hd) None)) ->
  h !! l = Some (CEntry e) ->
  let h' := h ++ [CEntry (fields e)] in
  table_add (Some t) (Some l) (mkState h lg) =
    Return (Some t) (mkState h' (lg ++ [msg_tailless]))
  /\ h' !! t = Some (CTable (mkTable (Some hd) None))
  /\ (forall l' c, h !! l' = Some c -> h' !! l' = Some c)
  /\ (forall es, linked es -> stored 0 h es ->
        linked es /\ stored 0 h' es /\ length h ∉ es.*1).
Proof.
  intros Ht Hl h'. split; [|split; [|split]].
  - unfold table_add. erewrite bind_Return by (by apply entry_isolate_run).
    erewrite bind_Return by (apply load_table_run; by apply lookup_extend).
    reflexivity.
  - by apply lookup_extend.
  - intros l' c. apply lookup_extend.
  - intros es Hlk Hs. split; [done|]. split; [by apply stored_extend|].
    intros Hin. pose proof (stored_bound _ _ _ _ Hs Hin). lia.
Qed.

Lemma table_add_tailless_witness :
  table_add (Some 0) (Some 2) (mkState heap_tailless []) =
    Return (Some 0)
      (mkState (heap_tailless ++ [CEntry (mkEntry None C_POSITIONAL None None)])
         [msg_tailless])
  /\ (heap_tailless ++ [CEntry (mkEntry None C_POSITIONAL None None)]) !! 0 =
       Some (CTable (mkTable (Some 1) None)).
Proof.
  destruct (table_add_tailless heap_tailless [] 0 1 2
              (mkEntry None C_POSITIONAL None None) eq_refl eq_refl)
    as (H1 & H2 & _).
  split; [exact H1|exact H2].
Defined.
(** C5: [table_join] on tables with separate cells.  An empty operand is an
    identity: with [b] empty the call returns the pointer [a] and leaves the
    store as it is; with [a] empty it returns a table holding exactly the
    entries of [b], which is the pointer [b] itself when [b] is not empty,
    again without touching the store.  In every case nothing is allocated
    (the store keeps its size), the result is one of the two operands,
    [a] itself unless [a] is empty, and its entry sequence is that of [a]
    followed by that of [b].  Joining is
    associative on entry sequences: both bracketings return a table whose
    entry sequence is that of [a], then [b], then [c]. *)
Theorem table_join_monoid h lg a b c ea eb ec :
  table_cells 0 h a ea -> table_cells 0 h b eb -> table_cells 0 h c ec ->
  apart ea eb -> apart ea ec -> apart eb ec ->
  let s := mkState h lg in
  (eb = [] -> table_join a b s = Return a s)
  /\ (ea = [] -> exists r, table_join a b s = Return r s
        /\ table_cells 0 h r eb /\ (eb <> [] -> r = b))
  /\ (exists r h' er,
        table_join a b s = Return r (mkState h' lg)
        /\ length h' = length h /\ (r = a \/ r = b) /\ (ea <> [] -> r = a)
        /\ table_cells 0 h' r er
        /\ entry_seq er = entry_seq ea ++ entry_seq eb)
  /\ (exists r1 s1 e1 r2 s2 e2,
        (let* ab := table_join a b in table_join ab c) s = Return r1 s1
        /\ (let* bc := table_join b c in table_join a bc) s = Return r2 s2
        /\ table_cells 0 (mem s1) r1 e1
        /\ table_cells 0 (mem s2) r2 e2
        /\ entry_seq e1 = entry_seq ea ++ entry_seq eb ++ entry_seq ec
        /\ entry_seq e2 = entry_seq ea ++ entry_seq eb ++ entry_seq ec).
Proof.
  intros Ha Hb Hc Hab Hac Hbc s.
  destruct (table_join_spec 0 h lg a ea b eb Ha Hb Hab)
    as (r & h' & er & Hrun & Htab & Hseq & Hfst & Hlen & Hor & Hnil & Hnil' & Hframe & _ & _ & Hra).
  split; [|split; [|split]].
  - intros E. destruct (Hnil E) as [-> ->]. exact Hrun.
  - intros E. destruct (decide (eb = [])) as [E'|N].
    + destruct (Hnil E') as [-> ->]. exists a. split; [exact Hrun|].
      split; [|done]. subst ea eb. exact Ha.
    + destruct (Hnil' E N) as [-> ->]. exists b. split; [exact Hrun|]. done.
  - exists r, h', er. auto 10.
  - (* left bracketing *)
    assert (Hc1 : table_cells 0 h' c ec).
    { apply Hframe; [done|by apply apart_sym|by apply apart_sym]. }
    assert (Hrc : apart er ec).
    { intros x Hx. rewrite Hfst in Hx. apply elem_of_app in Hx as [Hx|Hx]; eauto. }
    destruct (table_join_spec 0 h' lg r er c ec Htab Hc1 Hrc)
      as (r1 & h1 & e1 & Hrun1 & Htab1 & Hseq1 & _).
    (* right bracketing *)
    destruct (table_join_spec 0 h lg b eb c ec Hb Hc Hbc)
      as (q & k & eq & Hrunq & Htabq & Hseqq & Hfstq & _ & _ & _ & _ & Hframeq & _).
    assert (Ha1 : table_cells 0 k a ea) by (apply Hframeq; done).
    assert (Haq : apart ea eq).
    { intros x Hx Hq. rewrite Hfstq in Hq. apply elem_of_app in Hq as [Hq|Hq]; eauto. }
    destruct (table_join_spec 0 k lg a ea q eq Ha1 Htabq Haq)
      as (r2 & h2 & e2 & Hrun2 & Htab2 & Hseq2 & _).
    exists r1, (mkState h1 lg), e1, r2, (mkState h2 lg), e2.
    split; [|split; [|split; [|split; [|split]]]].
    + unfold s. erewrite bind_Return by exact Hrun. exact Hrun1.
    + unfold s. erewrite bind_Return by exact Hrunq. exact Hrun2.
    + exact Htab1.
    + exact Htab2.
    + rewrite Hseq1, Hseq. by rewrite <- app_assoc.
    + rewrite Hseq2, Hseqq. done.
Qed.

Lemma table_join_monoid_witness :
  exists r1 s1 e1 r2 s2 e2,
    (let* ab := table_join (Some 1) (Some 3) in table_join ab (Some 5))
      (mkState heap_three []) = Return r1 s1
    /\ (let* bc := table_join (Some 3) (Some 5) in table_join (Some 1) bc)
         (mkState heap_three []) = Return r2 s2
    /\ table_cells 0 (mem s1) r1 e1
    /\ table_cells 0 (mem s2) r2 e2
    /\ entry_seq e1 =
         entry_seq [(0, ex_manifold None)] ++
         entry_seq [(2, mkEntry None C_POSITIONAL None None)] ++
         entry_seq [(4, mkEntry None C_GRPREF None None)]
    /\ entry_seq e2 =
         entry_seq [(0, ex_manifold None)] ++
         entry_seq [(2, mkEntry None C_POSITIONAL None None)] ++
         entry_seq [(4, mkEntry None C_GRPREF None None)].
Proof.
  refine (proj2 (proj2 (proj2 (table_join_monoid heap_three [] (Some 1) (Some 3) (Some 5)
    [(0, ex_manifold None)] [(2, mkEntry None C_POSITIONAL None None)]
    [(4, mkEntry None C_GRPREF None None)] _ _ _ _ _ _)))); table_facts.
Defined.

(** C2 (as the code has it): on a well-formed table, with enough fuel,
    [table_recursive_get] returns without touching the cells that were in
    the store, and its result holds, in pre-order, exactly the entries that
    [STCMP] accepts for the key and the type among those reached by
    entering the nested table of every entry of type path, composon or
    nest (the types [is_recursive] accepts).  An entry of type deref can be
    returned itself, but its nested table is not searched. *)
Theorem table_recursive_get_preorder id_cmp tnz h lg t ts key kv ty fuel :
  rep_table 0 h (Some t) ts -> Forall searchable ts -> rep_id 0 h key kv ->
  weights ts < fuel ->
  exists out h' es,
    table_recursive_get id_cmp tnz fuel (Some t) key ty (mkState h lg)
      = Return out (mkState h' lg)
    /\ h `prefix_of` h'
    /\ table_cells (length h) h' out es
    /\ contents es =
       found (List.filter (matches id_cmp tnz kv ty) (flattens_by is_recursive ts)).
Proof.
  intros Hrep Hs Hk Hw.
  destruct (table_recursive_get_correct id_cmp tnz key kv ty fuel ts h t lg Hrep Hs Hk Hw)
    as (out & h' & Hrun & Hcol).
  apply collected_table in Hcol as (Hp & es & Ht & Hc).
  exists out, h', es. rewrite <- preorder_gets_filter. auto.
Qed.

Lemma table_recursive_get_preorder_witness :
  exists out h' es,
    table_recursive_get name_cmp all_nonzero 4 (Some 6) (Some 1) C_MANIFOLD
      (mkState heap_scope []) = Return out (mkState h' [])
    /\ heap_scope `prefix_of` h'
    /\ table_cells (length heap_scope) h' out es
    /\ contents es =
       found (List.filter (matches name_cmp all_nonzero (Some id_f) C_MANIFOLD)
                (flattens_by is_recursive forest_scope)).
Proof.
  apply (table_recursive_get_preorder name_cmp all_nonzero heap_scope [] 6
           forest_scope (Some 1) (Some id_f) C_MANIFOLD 4); rep_facts.
Defined.

(** C2, the claim as stated, fails: in a table whose only entry is a deref
    holding a manifold named f, the search for the manifold f returns the
    empty table, so no run returns what the claim lists (the matching
    entries reached through all four table-holding types). *)
Lemma table_recursive_get_skips_deref :
  rep_table 0 heap_deref (Some 4) forest_deref
  /\ found (List.filter (matches name_cmp all_nonzero (Some id_f) C_MANIFOLD)
              (flattens_by holds_table forest_deref))
     = [mkEntry (Some 0) C_MANIFOLD None None]
  /\ ~ (exists fuel out h' es,
          table_recursive_get name_cmp all_nonzero fuel (Some 4) (Some 0) C_MANIFOLD
            (mkState heap_deref []) = Return out (mkState h' [])
          /\ table_cells 0 h' out es
          /\ contents es =
             found (List.filter (matches name_cmp all_nonzero (Some id_f) C_MANIFOLD)
                      (flattens_by holds_table forest_deref))).
Proof.
  assert (Hrep : rep_table 0 heap_deref (Some 4) forest_deref) by rep_facts.
  split; [exact Hrep|]. split; [reflexivity|].
  intros (fuel & out & h' & es & Hrun & Htab & Hc).
  destruct fuel as [|[|[|fuel]]]; [discriminate Hrun|discriminate Hrun| |].
  { vm_compute in Hrun. injection Hrun as <- <-. simpl in Htab. subst es.
    discriminate Hc. }
  destruct (table_recursive_get_correct name_cmp all_nonzero (Some 0) (Some id_f)
              C_MANIFOLD (S (S (S fuel))) forest_deref heap_deref 4 [] Hrep)
    as (out' & h'' & Hrun' & Hcol).
  - rep_facts.
  - rep_facts.
  - unfold weights. simpl. lia.
  - rewrite Hrun' in Hrun. injection Hrun as -> ->.
    destruct Hcol as [_ (es' & Hc' & Ho)].
    destruct out as [t|].
    + destruct Ho as [Hne _]. destruct es'; [done|discriminate Hc'].
    + simpl in Htab. subst es. discriminate Hc.
Qed.
(** C1: on a well-formed table, with enough fuel, [table_path_get] returns
    without touching the cells that were in the store, and its result holds
    the entries [path_gets] lists.  At the base segment these are, for
    every entry of the level in turn, the entry itself when [STCMP] accepts
    it for the segment and the type, followed by the full recursive search
    by id inside the entry when its type is recursive.  Before the base, an
    entry contributes only when its type is recursive and it is anonymous
    or [SCMP] accepts its id for the current segment, and then it
    contributes the lookup of the rest of the path in its nested table.
    The recursive types are the three [is_recursive] accepts: path,
    composon and nest. *)
Theorem table_path_get_scoped id_cmp tnz h lg tp ts p pv ty fuel :
  rep_table 0 h tp ts -> Forall searchable ts -> rep_path h p pv ->
  weights ts < fuel ->
  exists out h' es,
    table_path_get id_cmp tnz fuel tp p ty (mkState h lg)
      = Return out (mkState h' lg)
    /\ h `prefix_of` h'
    /\ table_cells (length h) h' out es
    /\ contents es = found (path_gets id_cmp tnz pv ty ts).
Proof.
  intros Hrep Hs Hp Hw.
  destruct (table_path_get_correct id_cmp tnz ty fuel p pv ts h tp lg Hrep Hs Hp Hw)
    as (out & h' & Hrun & Hcol).
  apply collected_table in Hcol as (Hpre & es & Ht & Hc).
  exists out, h', es. auto.
Qed.

Lemma table_path_get_scoped_witness :
  exists out h' es,
    table_path_get name_cmp all_nonzero 4 (Some 6)
      (path_cons (Some 0) (path_base (Some 1))) C_MANIFOLD
      (mkState heap_scope []) = Return out (mkState h' [])
    /\ heap_scope `prefix_of` h'
    /\ table_cells (length heap_scope) h' out es
    /\ contents es =
       found (path_gets name_cmp all_nonzero
                (pathv_cons (Some id_a) (pathv_base (Some id_f))) C_MANIFOLD
                forest_scope).
Proof.
  apply (table_path_get_scoped name_cmp all_nonzero heap_scope [] (Some 6)
           forest_scope (path_cons (Some 0) (path_base (Some 1)))
           (pathv_cons (Some id_a) (pathv_base (Some id_f))) C_MANIFOLD 4);
    rep_facts.
Defined.

(** C1, the claim as stated, fails when a recursive type is one of the
    four the specification lists: in a table whose only entry is a deref
    holding a manifold named f, the lookup of the path f for a manifold
    returns the empty table, so no run returns what the claim lists (the
    matches of the level followed by the recursive search inside every
    entry of a table-holding type). *)
Lemma table_path_get_skips_deref :
  rep_table 0 heap_deref (Some 4) forest_deref
  /\ rep_path heap_deref (path_base (Some 0)) (pathv_base (Some id_f))
  /\ found (path_gets_four name_cmp all_nonzero (pathv_base (Some id_f)) C_MANIFOLD
              forest_deref)
     = [mkEntry (Some 0) C_MANIFOLD None None]
  /\ ~ (exists fuel out h' es,
          table_path_get name_cmp all_nonzero fuel (Some 4) (path_base (Some 0))
            C_MANIFOLD (mkState heap_deref []) = Return out (mkState h' [])
          /\ table_cells 0 h' out es
          /\ contents es =
             found (path_gets_four name_cmp all_nonzero (pathv_base (Some id_f))
                      C_MANIFOLD forest_deref)).
Proof.
  assert (Hrep : rep_table 0 heap_deref (Some 4) forest_deref) by rep_facts.
  assert (Hp : rep_path heap_deref (path_base (Some 0)) (pathv_base (Some id_f)))
    by rep_facts.
  split; [exact Hrep|]. split; [exact Hp|]. split; [reflexivity|].
  intros (fuel & out & h' & es & Hrun & Htab & Hc).
  destruct fuel as [|[|[|fuel]]]; [discriminate Hrun|discriminate Hrun| |].
  { vm_compute in Hrun. injection Hrun as <- <-. simpl in Htab. subst es.
    discriminate Hc. }
  destruct (table_path_get_correct name_cmp all_nonzero C_MANIFOLD (S (S (S fuel)))
              (path_base (Some 0)) (pathv_base (Some id_f)) forest_deref heap_deref
              (Some 4) [] Hrep)
    as (out' & h'' & Hrun' & Hcol).
  - rep_facts.
  - exact Hp.
  - unfold weights. simpl. lia.
  - rewrite Hrun' in Hrun. injection Hrun as -> ->.
    destruct Hcol as [_ (es' & Hc' & Ho)].
    destruct out as [t|].
    + destruct Ho as [Hne _]. destruct es'; [done|discriminate Hc'].
    + simpl in Htab. subst es. discriminate Hc.
Qed.

(** C10: on a well-formed table, with enough fuel, [table_get] and
    [table_recursive_get] called with a null id return [NULL], the empty
    table; and whatever the key, every entry in the result of [table_get],
    of [table_recursive_get] and of [table_path_get] has an id that is not
    null: an anonymous entry is never returned. *)
Theorem lookup_skips_anonymous id_cmp tnz h lg t ts ty fuel :
  rep_table 0 h (Some t) ts -> Forall searchable ts -> weights ts < fuel ->
  let s := mkState h lg in
  (exists h', table_get id_cmp tnz fuel (Some t) None ty s
              = Return None (mkState h' lg))
  /\ (exists h', table_recursive_get id_cmp tnz fuel (Some t) None ty s
                 = Return None (mkState h' lg))
  /\ (forall key kv, rep_id 0 h key kv ->
        exists out h' es,
          table_get id_cmp tnz fuel (Some t) key ty s = Return out (mkState h' lg)
          /\ table_cells (length h) h' out es
          /\ Forall (fun e => e_id e <> None) (contents es))
  /\ (forall key kv, rep_id 0 h key kv ->
        exists out h' es,
          table_recursive_get id_cmp tnz fuel (Some t) key ty s
            = Return out (mkState h' lg)
          /\ table_cells (length h) h' out es
          /\ Forall (fun e => e_id e <> None) (contents es))
  /\ (forall p pv, rep_path h p pv ->
        exists out h' es,
          table_path_get id_cmp tnz fuel (Some t) p ty s
            = Return out (mkState h' lg)
          /\ table_cells (length h) h' out es
          /\ Forall (fun e => e_id e <> None) (contents es)).
Proof.
  intros Hrep Hs Hw s.
  assert (Hlen : length ts <= fuel) by (pose proof (weights_length ts); lia).
  assert (Hnull : forall out h' acc, collected h h' out acc -> acc = [] -> out = None).
  { intros out h' acc [_ (es & Hc & Ho)] ->. destruct out; [|done].
    destruct Ho as [Hne _]. by destruct es. }
  split; [|split; [|split; [|split]]].
  - destruct (table_get_correct id_cmp tnz None None ty fuel ts h t lg Hrep I Hlen)
      as (out & h' & Hrun & Hcol).
    rewrite filter_null_key in Hcol. rewrite (Hnull _ _ _ Hcol eq_refl) in Hrun. eauto.
  - destruct (table_recursive_get_correct id_cmp tnz None None ty fuel ts h t lg Hrep Hs I Hw)
      as (out & h' & Hrun & Hcol).
    rewrite preorder_gets_null in Hcol. rewrite (Hnull _ _ _ Hcol eq_refl) in Hrun. eauto.
  - intros key kv Hk.
    destruct (table_get_correct id_cmp tnz key kv ty fuel ts h t lg Hrep Hk Hlen)
      as (out & h' & Hrun & Hcol).
    apply collected_table in Hcol as (_ & es & Ht & Hc).
    exists out, h', es. split; [done|]. split; [done|]. rewrite Hc.
    eapply filter_ids. apply Hrep.
  - intros key kv Hk.
    destruct (table_recursive_get_correct id_cmp tnz key kv ty fuel ts h t lg Hrep Hs Hk Hw)
      as (out & h' & Hrun & Hcol).
    apply collected_table in Hcol as (_ & es & Ht & Hc).
    exists out, h', es. split; [done|]. split; [done|]. rewrite Hc.
    eapply preorder_gets_ids. apply Hrep.
  - intros p pv Hp.
    destruct (table_path_get_correct id_cmp tnz ty fuel p pv ts h (Some t) lg Hrep Hs Hp Hw)
      as (out & h' & Hrun & Hcol).
    apply collected_table in Hcol as (_ & es & Ht & Hc).
    exists out, h', es. split; [done|]. split; [done|]. rewrite Hc.
    unfold found. rewrite Forall_fmap. eapply path_gets_ids. apply Hrep.
Qed.

Lemma lookup_skips_anonymous_witness :
  (exists h', table_get name_cmp all_nonzero 4 (Some 6) None C_MANIFOLD
                (mkState heap_scope []) = Return None (mkState h' []))
  /\ (exists h', table_recursive_get name_cmp all_nonzero 4 (Some 6) None C_MANIFOLD
                   (mkState heap_scope []) = Return None (mkState h' [])).
Proof.
  destruct (lookup_skips_anonymous name_cmp all_nonzero heap_scope [] 6 forest_scope
              C_MANIFOLD 4) as (H1 & H2 & _); [rep_facts ..|].
  split; [exact H1|exact H2].
Defined.
(** C3 (as the code has it): composon input and output extraction on an
    entry that is neither a composon nor a nest is not fatal: whatever the
    fuel, the call returns [NULL] after logging one error line, and the
    store is unchanged. *)
Theorem table_composon_io_rejects h lg l e fuel :
  h !! l = Some (CEntry e) -> e_type e <> C_COMPOSON -> e_type e <> C_NEST ->
  table_composon_inputs fuel (Some l) (mkState h lg)
    = Return None (mkState h (lg ++ [msg_composon]))
  /\ table_composon_outputs fuel (Some l) (mkState h lg)
     = Return None (mkState h (lg ++ [msg_composon])).
Proof.
  intros Hl H1 H2.
  assert (Ht : is_composon_or_nest (e_type e) = false).
  { unfold is_composon_or_nest. by rewrite !bool_decide_false. }
  split; by eapply _table_composon_io_reject.
Qed.

Lemma table_composon_io_rejects_witness :
  table_composon_inputs 0 (Some 1) (mkState heap_tailless [])
    = Return None (mkState heap_tailless [msg_composon])
  /\ table_composon_outputs 0 (Some 1) (mkState heap_tailless [])
     = Return None (mkState heap_tailless [msg_composon]).
Proof.
  apply (table_composon_io_rejects heap_tailless [] 1 (ex_manifold None) 0);
    [reflexivity|discriminate|discriminate].
Defined.

(** C3, the claim as stated, fails: on a manifold entry no amount of fuel
    makes either extraction end in a call of [exit]. *)
Lemma table_composon_io_no_exit :
  heap_tailless !! 1 = Some (CEntry (ex_manifold None))
  /\ ~ (exists fuel s',
          table_composon_inputs fuel (Some 1) (mkState heap_tailless []) = Exit s')
  /\ ~ (exists fuel s',
          table_composon_outputs fuel (Some 1) (mkState heap_tailless []) = Exit s').
Proof.
  split; [reflexivity|].
  split; intros (fuel & s' & H); destruct fuel; discriminate H.
Qed.

(** C4: on a well-formed composon or nest entry, with enough fuel, the
    extraction returns (it never exits) and its result holds, in the order
    of the nested table, what each nested entry contributes: a manifold, a
    positional or a deref entry contributes itself; a path or a nest entry
    contributes the extraction of its last nested entry for inputs and of
    its first nested entry for outputs; a group reference contributes
    nothing and one diagnostic line; any other entry contributes nothing
    and the illegal-type line.  The log grows by exactly these lines. *)
Theorem table_composon_io_flow (is_input : bool) h lg x fuel :
  h !! node_loc x = Some (CEntry (node_entry x)) -> rep 0 h x -> searchable x ->
  is_composon_or_nest (node_type x) = true -> weight x <= fuel ->
  let parts := contribution (composon_io is_input) is_input <$> node_sub x in
  exists out h' es,
    _table_composon_io fuel (Some (node_loc x)) is_input (mkState h lg)
      = Return out (mkState h' (lg ++ (gather parts).2))
    /\ h `prefix_of` h'
    /\ table_cells (length h) h' out es
    /\ contents es = found (gather parts).1.
Proof.
  intros Hcell Hrep Hs Hty Hw parts.
  destruct (io_correct fuel x h lg is_input Hcell Hrep Hs Hw) as (out & h' & Hrun & Hcol).
  rewrite composon_io_eq, Hty in Hrun, Hcol. simpl in Hrun, Hcol.
  apply collected_table in Hcol as (Hp & es & Ht & Hc).
  exists out, h', es. auto.
Qed.

Lemma table_composon_io_flow_witness :
  exists out h' es,
    table_composon_inputs 6 (Some 9) (mkState heap_compose [])
      = Return out (mkState h' [msg_grpref])
    /\ heap_compose `prefix_of` h'
    /\ table_cells (length heap_compose) h' out es
    /\ contents es = [ mkEntry (Some 0) C_MANIFOLD None None;
                       mkEntry None C_POSITIONAL None None ].
Proof.
  apply (table_composon_io_flow true heap_compose [] tree_compose 6); rep_facts.
Defined.
(** C6: on a well-formed table whose entries are of the seven entry types,
    with enough fuel, [table_clone] returns a table that has the same
    entries in the same order, with the same identifiers, types and string
    payloads, nested tables cloned in turn, and a fresh empty manifold in
    place of every manifold payload; so for a table without manifold
    entries the flattened entry sequences are equal.  The clone is a
    separate structure: the cells that were in the store are unchanged,
    the clone is made of cells allocated by the call only, a write to any
    cell allocated by the call (so to any cell of the clone) leaves the
    original as it is, and a write to any cell that was in the store (so
    to any cell of the original) leaves the clone as it is. *)
Theorem table_clone_independent h lg tp ts fuel :
  rep_table 0 h tp ts -> Forall clonable ts -> weights ts < fuel ->
  exists out h' ts',
    table_clone fuel tp (mkState h lg) = Return out (mkState h' lg)
    /\ h `prefix_of` h'
    /\ rep_table (length h) h' out ts'
    /\ erase <$> ts' = (fun x => refresh (erase x)) <$> ts
    /\ (Forall (fun x => no_manifold (erase x)) ts ->
          concat (flat_entries <$> (erase <$> ts')) =
          concat (flat_entries <$> (erase <$> ts)))
    /\ (forall l c, length h <= l -> rep_table 0 (<[l:=c]> h') tp ts)
    /\ (forall l c, l < length h -> rep_table (length h) (<[l:=c]> h') out ts').
Proof.
  intros Hrep Hcl Hw.
  destruct (clone_correct fuel ts h tp lg Hrep Hcl Hw)
    as (out & h' & ts' & Hrun & Hp & Hr & He & _).
  exists out, h', ts'. split; [exact Hrun|]. split; [exact Hp|]. split; [exact Hr|].
  split; [exact He|]. split; [|split].
  - intros Hnm. rewrite He. f_equal. f_equal.
    apply Forall_fmap_ext. eapply Forall_impl; [exact Hnm|].
    intros x Hx. by apply refresh_no_manifold.
  - intros l c Hl. destruct Hp as [k ->]. by apply rep_table_insert_above.
  - intros l c Hl. by apply rep_table_insert_below.
Qed.

Lemma table_clone_independent_witness :
  exists out h' ts',
    table_clone 4 (Some 7) (mkState heap_clone []) = Return out (mkState h' [])
    /\ heap_clone `prefix_of` h'
    /\ rep_table (length heap_clone) h' out ts'
    /\ concat (flat_entries <$> (erase <$> ts')) =
       concat (flat_entries <$> (erase <$> forest_clone)).
Proof.
  destruct (table_clone_independent heap_clone [] (Some 7) forest_clone 4)
    as (out & h' & ts' & H1 & H2 & H3 & _ & H5 & _); [clone_facts ..|].
  exists out, h', ts'. split; [exact H1|]. split; [exact H2|]. split; [exact H3|].
  apply H5. clone_facts.
Defined.

(** C7 (as the code has it): [ws_split_couplet] on a couplet whose
    left-hand side is a qualified path, a label or a name returns the
    couplet itself as the single result and logs nothing; on a couplet
    whose left-hand side has any class other than list, path, label and
    name it is not fatal: it logs one error line and returns the empty
    sequence. *)
Theorem ws_split_couplet_shapes k lhs rhs s :
  (cls lhs = K_PATH \/ cls lhs = K_LABEL \/ cls lhs = K_NAME ->
     ws_split_couplet (W_couplet k lhs rhs) s = Return [W_couplet k lhs rhs] s)
  /\ (cls lhs <> K_LIST -> cls lhs <> K_PATH -> cls lhs <> K_LABEL -> cls lhs <> K_NAME ->
        ws_split_couplet (W_couplet k lhs rhs) s =
        Return [] (mkState (mem s) (err s ++ [msg_invalid_lhs]))).
Proof.
  unfold ws_split_couplet. cbn [g_lhs]. split.
  - intros [E|[E|E]]; rewrite E; reflexivity.
  - intros N1 N2 N3 N4. destruct (cls lhs); try done.
Qed.

Lemma ws_split_couplet_shapes_witness :
  ws_split_couplet w_label_couplet (mkState [] []) = Return [w_label_couplet] (mkState [] [])
  /\ ws_split_couplet w_bad_couplet (mkState [] []) = Return [] (mkState [] [msg_invalid_lhs]).
Proof.
  split.
  - apply (proj1 (ws_split_couplet_shapes T_TYPE w_label_a (W_string K_NAME "t")
                    (mkState [] []))). right. left. reflexivity.
  - apply (proj2 (ws_split_couplet_shapes T_TYPE (W_manifold C_MANIFOLD manifold_empty)
                    (W_string K_NAME "t") (mkState [] []))); discriminate.
Defined.

(** C7, the claim as stated, fails: on a couplet whose left-hand side is a
    manifold the splitter returns, it does not end in a call of [exit]. *)
Lemma ws_split_couplet_no_exit :
  ~ (exists s', ws_split_couplet w_bad_couplet (mkState [] []) = Exit s').
Proof. intros (s' & H). discriminate H. Qed.

(** C9: the path-aware rule on a couplet [p].  For a nest [w] it returns
    the body of the nest, whatever [p] is.  For a qualified path [w] it
    returns the right-hand sequence of [w] when the left-hand side of [p]
    has length 1 and otherwise exactly when [label_cmp] accepts the labels
    of the two left-hand sides; in the remaining case, and for a node of
    any other class, it returns the empty sequence. *)
Theorem ws_recurse_path_rule label_cmp assert_failure w p s :
  value_type p = V_COUPLET ->
  (cls w = C_NEST ->
     ws_recurse_path label_cmp assert_failure w p s = Return (g_ws (Some w)) s)
  /\ (cls w = T_PATH -> ws_length (g_ws (g_lhs (Some p))) = 1 ->
        ws_recurse_path label_cmp assert_failure w p s =
        Return (g_ws (g_rhs (Some w))) s)
  /\ (cls w = T_PATH -> ws_length (g_ws (g_lhs (Some p))) <> 1 ->
      lhs_named (g_lhs (Some w)) -> lhs_named (g_lhs (Some p)) ->
        ws_recurse_path label_cmp assert_failure w p s =
        Return (if label_cmp (lhs_label (g_lhs (Some w))) (lhs_label (g_lhs (Some p)))
                then g_ws (g_rhs (Some w)) else [])
               (mkState (mem s)
                  (err s ++ lhs_diag (g_lhs (Some w)) ++ lhs_diag (g_lhs (Some p)))))
  /\ (cls w <> C_NEST -> cls w <> T_PATH ->
        ws_recurse_path label_cmp assert_failure w p s = Return [] s).
Proof.
  intros Hp.
  assert (Ha : w_assert_type assert_failure p V_COUPLET s = Return tt s).
  { unfold w_assert_type. by rewrite bool_decide_true. }
  unfold ws_recurse_path. erewrite bind_Return by exact Ha.
  split; [|split; [|split]].
  - intros ->. reflexivity.
  - intros -> Hl. by rewrite bool_decide_true.
  - intros -> Hl Hw Hq. rewrite bool_decide_false by done.
    unfold ws_cmp_lhs.
    erewrite bind_Return.
    2:{ erewrite bind_Return by (by apply _ws_get_label_from_lhs_run).
        erewrite bind_Return by (by apply _ws_get_label_from_lhs_run).
        reflexivity. }
    simpl. rewrite <- app_assoc.
    by destruct (label_cmp _ _).
  - intros N1 N2. destruct (cls w); done.
Qed.

Lemma ws_recurse_path_rule_witness :
  ws_recurse_path label_name_cmp fault w_tpath w_effect (mkState [] []) =
  Return w_body (mkState [] []).
Proof.
  destruct (ws_recurse_path_rule label_name_cmp fault w_tpath w_effect (mkState [] [])
              eq_refl) as (_ & _ & H & _).
  apply H; [reflexivity|discriminate| |]; intros x [= <-]; discriminate.
Defined.
(** * Further properties of [table.c] *)

Lemma entry_seq_snoc es l e : entry_seq (es ++ [(l, e)]) = entry_seq es ++ [(l, fields e)].
Proof. by rewrite entry_seq_app. Qed.

(** X1: [table_add] on [NULL] or on a well-formed non-empty table returns
    a well-formed table (the same pointer when there was one) whose entry
    sequence is the old one followed by a fresh cell holding a copy of the
    entry; the entry passed in is left as it is unless it is a cell of the
    table itself. *)
Theorem table_add_appends h lg tp es l e :
  table_cells 0 h tp es -> tp = None \/ es <> [] ->
  h !! l = Some (CEntry e) ->
  exists r h' es',
    table_add tp (Some l) (mkState h lg) = Return r (mkState h' lg)
    /\ (forall t, tp = Some t -> r = Some t)
    /\ r <> None
    /\ table_cells 0 h' r es'
    /\ entry_seq es' = entry_seq es ++ [(length h, fields e)]
    /\ (l ∉ es.*1 -> h' !! l = Some (CEntry e)).
Proof.
  intros Htab Hne Hl. destruct tp as [t|]; simpl in Htab.
  - destruct Hne as [?|Hne]; [done|].
    destruct es as [|[lt et] es0 _] using rev_ind; [done|].
    destruct (table_add_cons _ _ lg _ _ _ _ _ _ Htab Hl)
      as (h' & Hrun & Ht' & Hlen & _ & Hsame).
    eexists (Some t), h', _. split; [exact Hrun|]. split; [auto|]. split; [done|].
    split; [exact Ht'|]. split.
    + rewrite !entry_seq_app. simpl. by rewrite <- app_assoc.
    + intros Hn. rewrite Hsame; [done| | |by eapply lookup_bound].
      * intros ->. apply Hn. rewrite fmap_app. apply elem_of_app. right.
        apply list_elem_of_here.
      * intros ->. destruct Htab as [_ Hc _ _ _]. congruence.
  - subst es. destruct (table_add_null h lg l e Hl) as [Hrun Ht].
    eexists _, _, [(length h, fields e)]. split; [exact Hrun|].
    split; [done|]. split; [done|]. split.
    + simpl. eapply is_table_weaken; [|exact Ht]. lia.
    + split; [done|]. intros _. by apply lookup_extend.
Qed.

Lemma table_add_appends_witness :
  exists r h' es',
    table_add (Some 1) (Some 2) (mkState heap_three []) = Return r (mkState h' [])
    /\ (forall t, Some 1 = Some t -> r = Some t)
    /\ r <> None
    /\ table_cells 0 h' r es'
    /\ entry_seq es' =
       entry_seq [(0, ex_manifold None)] ++
       [(length heap_three, fields (mkEntry None C_POSITIONAL None None))]
    /\ (2 ∉ [(0, ex_manifold None)].*1 ->
        h' !! 2 = Some (CEntry (mkEntry None C_POSITIONAL None None))).
Proof.
  apply (table_add_appends heap_three [] (Some 1) [(0, ex_manifold None)] 2
           (mkEntry None C_POSITIONAL None None)).
  - table_facts.
  - right. discriminate.
  - reflexivity.
Defined.

(** X2: on a well-formed table, [table_get] returns exactly the entries of
    the top level that [STCMP] accepts for the key and the type, in order;
    it never enters a nested table, and it leaves the cells that were in
    the store unchanged. *)
Theorem table_get_top_level id_cmp tnz h lg t ts key kv ty fuel :
  rep_table 0 h (Some t) ts -> rep_id 0 h key kv -> length ts <= fuel ->
  exists out h' es,
    table_get id_cmp tnz fuel (Some t) key ty (mkState h lg)
      = Return out (mkState h' lg)
    /\ h `prefix_of` h'
    /\ table_cells (length h) h' out es
    /\ contents es = found (List.filter (matches id_cmp tnz kv ty) ts).
Proof.
  intros Hrep Hk Hf.
  destruct (table_get_correct id_cmp tnz key kv ty fuel ts h t lg Hrep Hk Hf)
    as (out & h' & Hrun & Hcol).
  apply collected_table in Hcol as (Hp & es & Ht & Hc).
  exists out, h', es. auto.
Qed.

Lemma table_get_top_level_witness :
  exists out h' es,
    table_get name_cmp all_nonzero 2 (Some 6) (Some 1) C_MANIFOLD
      (mkState heap_scope []) = Return out (mkState h' [])
    /\ heap_scope `prefix_of` h'
    /\ table_cells (length heap_scope) h' out es
    /\ contents es =
       found (List.filter (matches name_cmp all_nonzero (Some id_f) C_MANIFOLD)
                forest_scope).
Proof.
  apply (table_get_top_level name_cmp all_nonzero heap_scope [] 6 forest_scope
           (Some 1) (Some id_f) C_MANIFOLD 2); rep_facts.
Defined.

(** X3: with a path of one segment, [table_path_get] returns the same
    entries, in the same order, as [table_recursive_get] for that segment:
    at the base the path-qualified lookup is the recursive search. *)
Theorem table_path_get_base_is_recursive_get id_cmp tnz h lg t ts key kv ty fuel :
  rep_table 0 h (Some t) ts -> Forall searchable ts -> rep_id 0 h key kv ->
  weights ts < fuel ->
  exists o1 h1 e1 o2 h2 e2,
    table_path_get id_cmp tnz fuel (Some t) (path_base key) ty (mkState h lg)
      = Return o1 (mkState h1 lg)
    /\ table_recursive_get id_cmp tnz fuel (Some t) key ty (mkState h lg)
       = Return o2 (mkState h2 lg)
    /\ table_cells (length h) h1 o1 e1
    /\ table_cells (length h) h2 o2 e2
    /\ contents e1 = contents e2.
Proof.
  intros Hrep Hs Hk Hw.
  destruct (table_path_get_correct id_cmp tnz ty fuel (path_base key) (pathv_base kv)
              ts h (Some t) lg Hrep Hs Hk Hw) as (o1 & h1 & Hrun1 & Hcol1).
  destruct (table_recursive_get_correct id_cmp tnz key kv ty fuel ts h t lg Hrep Hs Hk Hw)
    as (o2 & h2 & Hrun2 & Hcol2).
  apply collected_table in Hcol1 as (_ & e1 & Ht1 & Hc1).
  apply collected_table in Hcol2 as (_ & e2 & Ht2 & Hc2).
  exists o1, h1, e1, o2, h2, e2. rewrite path_gets_base in Hc1 by done.
  split; [done|]. split; [done|]. split; [done|]. split; [done|]. congruence.
Qed.

Lemma table_path_get_base_is_recursive_get_witness :
  exists o1 h1 e1 o2 h2 e2,
    table_path_get name_cmp all_nonzero 4 (Some 6) (path_base (Some 1)) C_MANIFOLD
      (mkState heap_scope []) = Return o1 (mkState h1 [])
    /\ table_recursive_get name_cmp all_nonzero 4 (Some 6) (Some 1) C_MANIFOLD
         (mkState heap_scope []) = Return o2 (mkState h2 [])
    /\ table_cells (length heap_scope) h1 o1 e1
    /\ table_cells (length heap_scope) h2 o2 e2
    /\ contents e1 = contents e2.
Proof.
  apply (table_path_get_base_is_recursive_get name_cmp all_nonzero heap_scope [] 6
           forest_scope (Some 1) (Some id_f) C_MANIFOLD 4); rep_facts.
Defined.
(** ** Lookup by type *)

Lemma table_recursive_get_type_S n table type :
  table_recursive_get_type (S n) table type =
  (let* t := load_table table in
   for_entries n (t_head t) None (fun e out =>
     let* m := TCMP e type in
     let* out := (if m then table_add out e else ret out) in
     let* ent := load_entry e in
     if is_recursive (e_type ent) then
       let* down := table_recursive_get_type n (e_value ent) type in
       table_join out down
     else ret out)).
Proof. reflexivity. Qed.

Lemma filter_flattens (f : etree -> bool) d ts :
  List.filter f (flattens_by d ts) =
  concat ((fun x => List.filter f (flatten_by d x)) <$> ts).
Proof.
  unfold flattens_by. induction ts as [|x ts IH]; [done|].
  rewrite !fmap_cons.
  change (concat (?a :: ?b)) with (a ++ concat b).
  by rewrite List.filter_app, IH.
Qed.

Lemma type_step n ty h0 x h lg out acc :
  tget_ok n ty ->
  weight x <= n ->
  h0 !! node_loc x = Some (CEntry (node_entry x)) ->
  rep 0 h0 x -> searchable x ->
  collected h0 h out acc ->
  exists out' h',
    (let* m := TCMP (Some (node_loc x)) ty in
     let* out := (if m then table_add out (Some (node_loc x)) else ret out) in
     let* ent := load_entry (Some (node_loc x)) in
     if is_recursive (e_type ent) then
       let* down := table_recursive_get_type n (e_value ent) ty in
       table_join out down
     else ret out) (mkState h lg) = Return out' (mkState h' lg)
    /\ collected h0 h' out'
         (acc ++ found (List.filter (has_type ty) (flatten_by is_recursive x))).
Proof.
  intros Hrec Hw Hcell Hrep Hsrch Hcol.
  pose proof Hcol as [[k ->] _].
  erewrite bind_Return by (apply TCMP_run; by apply lookup_extend).
  fold (node_type x). fold (has_type ty x).
  assert (Hadd : exists out1 h1,
    (if has_type ty x
     then table_add out (Some (node_loc x)) else ret out) (mkState (h0 ++ k) lg)
      = Return out1 (mkState h1 lg)
    /\ collected h0 h1 out1 (acc ++ found (if has_type ty x then [x] else []))).
  { destruct (has_type ty x).
    - eapply collected_add; [done|]. by apply lookup_extend.
    - exists out, (h0 ++ k). split; [done|]. simpl. by rewrite app_nil_r. }
  destruct Hadd as (out1 & h1 & Hrun1 & Hcol1).
  erewrite bind_Return by exact Hrun1.
  pose proof Hcol1 as [[k1 ->] _].
  erewrite bind_Return by (apply load_entry_run; by apply lookup_extend).
  cbv beta.
  assert (Hhd : forall r, List.filter (has_type ty) (x :: r) =
                 (if has_type ty x then [x] else []) ++ List.filter (has_type ty) r).
  { intros r. simpl. by destruct (has_type ty x). }
  destruct x as [l e i p|l e i sub].
  - simpl in Hsrch. cbn [node_entry]. rewrite Hsrch.
    exists out1, (h0 ++ k1). split; [done|].
    change (flatten_by is_recursive (ELeaf l e i p)) with [ELeaf l e i p].
    rewrite Hhd. simpl List.filter. by rewrite !app_nil_r.
  - rewrite flatten_by_tab, Hhd, found_app, app_assoc. cbn [node_entry].
    destruct (is_recursive (e_type e)) eqn:Hr.
    + pose proof (proj1 (searchable_tab _ _ _ _) Hsrch Hr) as Hsrch'.
      apply rep_tab_unfold in Hrep as (_ & (t' & Hv & Htab) & Hsub).
      rewrite Hv.
      destruct (Hrec sub (h0 ++ k1) t' lg) as (so & h2 & Hrun2 & Hcol2).
      { apply rep_table_extend. split; [exact Htab|exact Hsub]. }
      { exact Hsrch'. }
      { rewrite weight_tab in Hw. lia. }
      erewrite bind_Return by exact Hrun2.
      destruct (collected_join _ _ _ lg _ _ _ _ Hcol1 Hcol2) as (r & h3 & Hrun3 & Hcol3).
      exists r, h3. split; [exact Hrun3|exact Hcol3].
    + exists out1, (h0 ++ k1). split; [done|]. simpl. by rewrite app_nil_r.
Qed.

Lemma table_recursive_get_type_correct ty n : tget_ok n ty.
Proof.
  induction n as [|n IH]; intros ts h t lg [Htab Hrep] Hsrch Hw; [lia|].
  rewrite table_recursive_get_type_S. simpl in Htab. pose proof Htab as [_ Hcell Hlk Hst _].
  erewrite bind_Return by (by apply load_table_run). simpl t_head.
  pose (I := fun (k : nat) (out : option nat) (s : state) =>
    err s = lg /\ collected h (mem s) out
      (found (concat ((fun x => List.filter (has_type ty) (flatten_by is_recursive x))
                        <$> take k ts)))).
  set (body := fun (e out : option nat) =>
     let* m := TCMP e ty in
     let* out := (if m then table_add out e else ret out) in
     let* ent := load_entry e in
     if is_recursive (e_type ent) then
       let* down := table_recursive_get_type n (e_value ent) ty in
       table_join out down
     else ret out).
  assert (Hstable : forall k acc s, I k acc s -> stored 0 (mem s) (cells_of ts)).
  { intros k acc s [_ [[k' E] _]]. rewrite E. by apply stored_extend. }
  assert (Hbody : forall k le acc s, cells_of ts !! k = Some le -> I k acc s ->
     exists acc' s', body (Some le.1) acc s = Return acc' s' /\ I (S k) acc' s').
  { intros k le acc [h1 lg1] Hk [Herr Hcol]. simpl in Herr, Hcol. subst lg1.
    apply cells_of_lookup in Hk as (x & Hx & ->). simpl.
    assert (Hin : x ∈ ts) by (apply list_elem_of_lookup; eauto).
    destruct (type_step n ty h x h1 lg acc
      (found (concat ((fun x => List.filter (has_type ty) (flatten_by is_recursive x))
                        <$> take k ts))) IH)
      with (5 := Hcol)
      as (out' & h' & Hrun & Hcol').
    + pose proof (weights_elem _ _ Hin). lia.
    + unfold stored in Hst. rewrite Forall_forall in Hst.
      destruct (Hst (node_loc x, node_entry x)) as [_ X]; [|exact X].
      unfold cells_of. apply list_elem_of_fmap. eauto.
    + rewrite Forall_forall in Hrep. by apply Hrep.
    + rewrite Forall_forall in Hsrch. by apply Hsrch.
    + exists out', (mkState h' lg). split; [exact Hrun|]. split; [done|].
      simpl. unfold I. erewrite found_take_S by exact Hx. exact Hcol'. }
  destruct (for_entries_ind I body (cells_of ts) Hlk Hstable Hbody n None (mkState h lg))
    as (out & s' & Hrun & Herr & Hcol).
  - rewrite length_cells_of. pose proof (weights_length ts). lia.
  - split; [done|]. simpl. apply collected_nil.
  - destruct s' as [h' lg']. simpl in Herr, Hcol. subst lg'.
    exists out, h'. split; [exact Hrun|].
    rewrite length_cells_of, firstn_all in Hcol. by rewrite filter_flattens.
Qed.

(** X4: on a well-formed table, [table_recursive_get_type] returns the
    entries whose type is the one asked for, in pre-order, entering the
    nested table of every path, composon and nest entry and no other.
    The identifier plays no part: entries without one are returned too. *)
Theorem table_recursive_get_type_preorder h lg t ts ty fuel :
  rep_table 0 h (Some t) ts -> Forall searchable ts -> weights ts < fuel ->
  exists out h' es,
    table_recursive_get_type fuel (Some t) ty (mkState h lg)
      = Return out (mkState h' lg)
    /\ h `prefix_of` h'
    /\ table_cells (length h) h' out es
    /\ contents es =
       found (List.filter (has_type ty) (flattens_by is_recursive ts)).
Proof.
  intros Hrep Hs Hw.
  destruct (table_recursive_get_type_correct ty fuel ts h t lg Hrep Hs Hw)
    as (out & h' & Hrun & Hcol).
  apply collected_table in Hcol as (Hp & es & Ht & Hc).
  exists out, h', es. auto.
Qed.

Lemma table_recursive_get_type_preorder_witness :
  exists out h' es,
    table_recursive_get_type 4 (Some 6) C_MANIFOLD (mkState heap_scope [])
      = Return out (mkState h' [])
    /\ heap_scope `prefix_of` h'
    /\ table_cells (length heap_scope) h' out es
    /\ contents es =
       found (List.filter (has_type C_MANIFOLD) (flattens_by is_recursive forest_scope)).
Proof.
  apply (table_recursive_get_type_preorder heap_scope [] 6 forest_scope C_MANIFOLD 4);
    rep_facts.
Defined.
(** ** Lookup of a selection *)

Lemma rep_paths_extend h k sel pvs :
  Forall2 (rep_path h) sel pvs -> Forall2 (rep_path (h ++ k)) sel pvs.
Proof.
  intros H. eapply Forall2_impl; [exact H|]. intros p pv. apply rep_path_extend.
Qed.

Lemma for_selection_correct id_cmp tnz fuel tp ts ty h0 lg :
  rep_table 0 h0 tp ts -> Forall searchable ts -> weights ts < fuel ->
  forall sel pvs h1 out acc,
    Forall2 (rep_path h0) sel pvs ->
    collected h0 h1 out acc ->
    exists r h',
      for_selection id_cmp tnz fuel tp sel ty out (mkState h1 lg)
        = Return r (mkState h' lg)
      /\ collected h0 h' r
           (acc ++ found (concat ((fun pv => path_gets id_cmp tnz pv ty ts) <$> pvs))).
Proof.
  intros Hrep Hs Hw sel. induction sel as [|p sel IH]; intros pvs h1 out acc Hp Hcol.
  - apply Forall2_nil_inv_l in Hp as ->. exists out, h1. split; [done|].
    simpl. by rewrite app_nil_r.
  - apply Forall2_cons_inv_l in Hp as (pv & pvs' & Hpv & Hp & ->).
    pose proof Hcol as [[k ->] _].
    destruct (table_path_get_correct id_cmp tnz ty fuel p pv ts (h0 ++ k) tp lg)
      as (b & h2 & Hrun & Hcolb).
    { by apply rep_table_extend. } { done. } { by apply rep_path_extend. } { done. }
    cbn [for_selection]. erewrite bind_Return by exact Hrun.
    destruct (collected_join _ _ _ lg _ _ _ _ Hcol Hcolb) as (r & h3 & Hrunj & Hcolj).
    erewrite bind_Return by exact Hrunj.
    destruct (IH pvs' h3 r _ Hp Hcolj) as (r' & h' & Hrun' & Hcol').
    exists r', h'. split; [exact Hrun'|].
    rewrite fmap_cons. change (concat (?a :: ?b)) with (a ++ concat b).
    rewrite found_app, app_assoc. exact Hcol'.
Qed.

(** X5: [table_selection_get] returns, for the paths of the selection in
    order, the entries the path-qualified lookup finds for each, one
    result after the other; the empty selection gives [NULL]. *)
Theorem table_selection_get_concat id_cmp tnz h lg tp ts sel pvs ty fuel :
  rep_table 0 h tp ts -> Forall searchable ts -> Forall2 (rep_path h) sel pvs ->
  weights ts < fuel ->
  exists out h' es,
    table_selection_get id_cmp tnz fuel tp sel ty (mkState h lg)
      = Return out (mkState h' lg)
    /\ h `prefix_of` h'
    /\ table_cells (length h) h' out es
    /\ contents es =
       found (concat ((fun pv => path_gets id_cmp tnz pv ty ts) <$> pvs))
    /\ (sel = [] -> out = None).
Proof.
  intros Hrep Hs Hp Hw. unfold table_selection_get.
  destruct (for_selection_correct id_cmp tnz fuel tp ts ty h lg Hrep Hs Hw
              sel pvs h None [] Hp (collected_nil h)) as (r & h' & Hrun & Hcol).
  pose proof Hcol as Hcol'.
  apply collected_table in Hcol as (Hpre & es & Ht & Hc).
  exists r, h', es. repeat split; try done.
  intros ->. simpl in Hrun. by injection Hrun as <- <-.
Qed.

Lemma table_selection_get_concat_witness :
  exists out h' es,
    table_selection_get name_cmp all_nonzero 4 (Some 6)
      [path_cons (Some 0) (path_base (Some 1)); path_base (Some 1)] C_MANIFOLD
      (mkState heap_scope []) = Return out (mkState h' [])
    /\ heap_scope `prefix_of` h'
    /\ table_cells (length heap_scope) h' out es
    /\ contents es =
       found (concat ((fun pv => path_gets name_cmp all_nonzero pv C_MANIFOLD forest_scope)
                <$> [pathv_cons (Some id_a) (pathv_base (Some id_f));
                     pathv_base (Some id_f)]))
    /\ ([path_cons (Some 0) (path_base (Some 1)); path_base (Some 1)] = [] -> out = None).
Proof.
  apply (table_selection_get_concat name_cmp all_nonzero heap_scope [] (Some 6)
           forest_scope); rep_facts.
  repeat constructor.
Defined.
(** ** Lookups for the type whose tag is zero *)

Lemma collected_empty h0 h out : collected h0 h out [] -> out = None.
Proof.
  intros [_ (es & Hc & Ho)]. destruct out as [t|]; [|done].
  destruct Ho as [Hne _]. destruct es; [done|discriminate Hc].
Qed.

Lemma matches_zero id_cmp tnz k ty x :
  tnz ty = false -> matches id_cmp tnz k ty x = false.
Proof. intros H. unfold matches, stcmp. rewrite H. by destruct (node_id x), k. Qed.

Lemma filter_zero id_cmp tnz k ty ts :
  tnz ty = false -> List.filter (matches id_cmp tnz k ty) ts = [].
Proof.
  intros H. induction ts as [|x r IH]; [done|]. simpl.
  by rewrite matches_zero, IH.
Qed.

Lemma concat_map_nil {A B} (f : A -> list B) (l : list A) :
  (forall x, x ∈ l -> f x = []) -> concat (f <$> l) = [].
Proof.
  induction l as [|x r IH]; intros H; [done|].
  rewrite fmap_cons. change (concat (?a :: ?b)) with (a ++ concat b).
  rewrite H by apply list_elem_of_here. simpl.
  apply IH. intros y Hy. apply H. by apply list_elem_of_further.
Qed.

Lemma path_gets_zero id_cmp tnz pv ty ts :
  tnz ty = false -> path_gets id_cmp tnz pv ty ts = [].
Proof.
  intros H. revert ts. induction pv as [k|k rest IH]; intros ts; simpl;
    apply concat_map_nil; intros x _.
  - rewrite matches_zero by done. simpl.
    destruct (is_recursive (node_type x)); [|done].
    rewrite preorder_gets_filter. by apply filter_zero.
  - destruct (_ && _); [apply IH|done].
Qed.

(** X6: [STCMP] tests the type it is given for being non-zero, so a lookup
    for the type whose tag is zero finds nothing: [table_get],
    [table_recursive_get] and [table_path_get] return [NULL] whatever the
    key or the path. *)
Theorem lookup_zero_type_finds_nothing id_cmp tnz h lg t ts ty fuel :
  rep_table 0 h (Some t) ts -> Forall searchable ts -> weights ts < fuel ->
  tnz ty = false ->
  let s := mkState h lg in
  (forall key kv, rep_id 0 h key kv ->
     exists h', table_get id_cmp tnz fuel (Some t) key ty s
                = Return None (mkState h' lg))
  /\ (forall key kv, rep_id 0 h key kv ->
        exists h', table_recursive_get id_cmp tnz fuel (Some t) key ty s
                   = Return None (mkState h' lg))
  /\ (forall p pv, rep_path h p pv ->
        exists h', table_path_get id_cmp tnz fuel (Some t) p ty s
                   = Return None (mkState h' lg)).
Proof.
  intros Hrep Hs Hw Hz s. repeat split.
  - intros key kv Hk.
    destruct (table_get_correct id_cmp tnz key kv ty fuel ts h t lg Hrep Hk)
      as (out & h' & Hrun & Hcol).
    { pose proof (weights_length ts). lia. }
    rewrite filter_zero in Hcol by done. apply collected_empty in Hcol as ->. eauto.
  - intros key kv Hk.
    destruct (table_recursive_get_correct id_cmp tnz key kv ty fuel ts h t lg Hrep Hs Hk Hw)
      as (out & h' & Hrun & Hcol).
    rewrite preorder_gets_filter, filter_zero in Hcol by done.
    apply collected_empty in Hcol as ->. eauto.
  - intros p pv Hp.
    destruct (table_path_get_correct id_cmp tnz ty fuel p pv ts h (Some t) lg Hrep Hs Hp Hw)
      as (out & h' & Hrun & Hcol).
    rewrite path_gets_zero in Hcol by done.
    apply collected_empty in Hcol as ->. eauto.
Qed.

Lemma lookup_zero_type_finds_nothing_witness :
  let s := mkState heap_scope [] in
  (forall key kv, rep_id 0 heap_scope key kv ->
     exists h', table_get name_cmp (fun _ => false) 4 (Some 6) key C_MANIFOLD s
                = Return None (mkState h' []))
  /\ (forall key kv, rep_id 0 heap_scope key kv ->
        exists h', table_recursive_get name_cmp (fun _ => false) 4 (Some 6) key C_MANIFOLD s
                   = Return None (mkState h' []))
  /\ (forall p pv, rep_path heap_scope p pv ->
        exists h', table_path_get name_cmp (fun _ => false) 4 (Some 6) p C_MANIFOLD s
                   = Return None (mkState h' [])).
Proof.
  apply (lookup_zero_type_finds_nothing name_cmp (fun _ => false) heap_scope [] 6
           forest_scope C_MANIFOLD 4); rep_facts.
Defined.

(** ** Sharing in [table_join] *)

(** X7: [table_join] copies nothing.  After joining two non-empty tables
    that share no cell, [b] is still a well-formed table of the cells it
    had, and these same cells are now the end of the chain of [a]: the
    two tables share them. *)
Theorem table_join_shares_cells h lg a b ea eb :
  is_table 0 h a ea -> is_table 0 h b eb -> ea <> [] -> eb <> [] -> apart ea eb ->
  exists h' er,
    table_join (Some a) (Some b) (mkState h lg) = Return (Some a) (mkState h' lg)
    /\ is_table 0 h' a er
    /\ er.*1 = ea.*1 ++ eb.*1
    /\ is_table 0 h' b eb
    /\ last_ptr er = last_ptr eb.
Proof.
  intros Ha Hb Hna Hnb Hap.
  destruct ea as [|[lt et] ea0 _] using rev_ind; [done|].
  destruct (table_join_cons 0 h lg a ea0 lt et b eb Ha Hb Hnb Hap) as [Hrun Ht].
  eexists _, _. split; [exact Hrun|]. split; [exact Ht|].
  assert (Hab : a <> b).
  { intros ->. destruct Ha as [_ Hca _ _ _], Hb as [_ Hcb _ _ _].
    rewrite Hca in Hcb. injection Hcb as Hh _.
    destruct eb as [|[l0 e0] eb]; [done|].
    apply (Hap l0).
    - destruct ea0 as [|[l1 e1] ea0]; simpl in Hh; injection Hh as ->;
        simpl; apply list_elem_of_here.
    - simpl. apply list_elem_of_here. }
  split; [|split].
  - rewrite !fmap_app. simpl. by rewrite <- app_assoc.
  - apply is_table_insert.
    + apply is_table_insert; [exact Hb| |].
      * intros ->. destruct Ha as [_ _ _ Hsa _], Hb as [_ Hcb _ _ _].
        unfold stored in Hsa. rewrite Forall_app, Forall_singleton in Hsa.
        destruct Hsa as [_ [_ Hsa]]. simpl in Hsa.
        rewrite Hsa in Hcb. discriminate Hcb.
      * intros Hin. apply (Hap lt); [|exact Hin].
        rewrite fmap_app. apply elem_of_app. right. simpl. apply list_elem_of_here.
    + intros ->. done.
    + intros Hin. destruct Ha as [_ Hca _ _ _], Hb as [_ _ _ Hsb _].
      unfold stored in Hsb. rewrite Forall_forall in Hsb.
      apply list_elem_of_fmap in Hin as ([l0 e0] & -> & Hin).
      destruct (Hsb _ Hin) as [_ X]. simpl in X, Hca. rewrite Hca in X. discriminate X.
  - destruct eb as [|x eb _] using rev_ind; [done|].
    unfold last_ptr.
    change (ea0 ++ (lt, set_next et (hd_ptr (eb ++ [x]))) :: eb ++ [x])
      with (ea0 ++ ((lt, set_next et (hd_ptr (eb ++ [x]))) :: eb) ++ [x]).
    by rewrite app_assoc, !last_snoc.
Qed.

Lemma table_join_shares_cells_witness :
  exists h' er,
    table_join (Some 1) (Some 3) (mkState heap_three []) = Return (Some 1) (mkState h' [])
    /\ is_table 0 h' 1 er
    /\ er.*1 = [(0, ex_manifold None)].*1 ++ [(2, mkEntry None C_POSITIONAL None None)].*1
    /\ is_table 0 h' 3 [(2, mkEntry None C_POSITIONAL None None)]
    /\ last_ptr er = last_ptr [(2, mkEntry None C_POSITIONAL None None)].
Proof.
  apply (table_join_shares_cells heap_three [] 1 3 [(0, ex_manifold None)]
           [(2, mkEntry None C_POSITIONAL None None)]);
    first [discriminate|table_facts].
Defined.

(** ** [ws_split_couplet] on a list of alternatives *)

Lemma foldl_ws_add (f : W -> W) ps acc :
  foldl (fun result p => ws_add result (f p)) acc ps = acc ++ (f <$> ps).
Proof.
  revert acc. induction ps as [|p ps IH]; intros acc; simpl.
  - by rewrite app_nil_r.
  - rewrite IH. unfold ws_add. by rewrite <- app_assoc.
Qed.

(** X8: a couplet whose left-hand side is a list of alternatives is split
    into one couplet per alternative, in order: each has the alternative as
    its left-hand side and the class and the right-hand side of the
    couplet.  Nothing is logged, the store is as it was, and the result has
    as many couplets as there are alternatives. *)
Theorem ws_split_couplet_list k ps rhs s :
  ps <> [] ->
  ws_split_couplet (W_couplet k (W_ws K_LIST ps) rhs) s =
    Return ((fun p => W_couplet k p rhs) <$> ps) s
  /\ ws_length ((fun p => W_couplet k p rhs) <$> ps) = ws_length ps.
Proof.
  intros Hne. split; [|unfold ws_length; by rewrite length_fmap].
  unfold ws_split_couplet. simpl. destruct ps as [|p ps]; [done|].
  unfold ret. f_equal. by rewrite foldl_ws_add.
Qed.

Lemma ws_split_couplet_list_witness :
  ws_split_couplet (W_couplet T_TYPE (W_ws K_LIST [w_label_a; w_label_b])
                      (W_string K_NAME "t")) (mkState [] []) =
    Return [ W_couplet T_TYPE w_label_a (W_string K_NAME "t");
             W_couplet T_TYPE w_label_b (W_string K_NAME "t") ] (mkState [] [])
  /\ ws_length [ W_couplet T_TYPE w_label_a (W_string K_NAME "t");
                 W_couplet T_TYPE w_label_b (W_string K_NAME "t") ] = 2.
Proof.
  apply (ws_split_couplet_list T_TYPE [w_label_a; w_label_b] (W_string K_NAME "t")
           (mkState [] [])).
  discriminate.
Defined.
(** ** Composons without nested expressions *)

Lemma contribution_flat io (is_input : bool) y :
  no_nesting y ->
  contribution io is_input y = (if is_operand y then [y] else [], flat_diag y).
Proof.
  intros [H1 H2]. unfold contribution, is_operand, flat_diag.
  destruct (node_type y); try done.
Qed.

Lemma gather_flat io (is_input : bool) ys :
  Forall no_nesting ys ->
  gather (contribution io is_input <$> ys) =
  (List.filter is_operand ys, concat (flat_diag <$> ys)).
Proof.
  induction 1 as [|y ys Hy _ IH]; [done|].
  rewrite !fmap_cons, gather_cons, IH, contribution_flat by done. simpl.
  by destruct (is_operand y).
Qed.

(** X9: for a composon or a nest whose table holds no path and no nest
    entry, inputs and outputs are the same: both are the manifold,
    positional and deref entries of its table, in order, and both log one
    line for each other entry. *)
Theorem table_composon_io_flat h lg x fuel :
  h !! node_loc x = Some (CEntry (node_entry x)) -> rep 0 h x -> searchable x ->
  is_composon_or_nest (node_type x) = true -> weight x <= fuel ->
  Forall no_nesting (node_sub x) ->
  let lg' := lg ++ concat (flat_diag <$> node_sub x) in
  exists o1 h1 e1 o2 h2 e2,
    table_composon_inputs fuel (Some (node_loc x)) (mkState h lg)
      = Return o1 (mkState h1 lg')
    /\ table_composon_outputs fuel (Some (node_loc x)) (mkState h lg)
       = Return o2 (mkState h2 lg')
    /\ table_cells (length h) h1 o1 e1
    /\ table_cells (length h) h2 o2 e2
    /\ contents e1 = found (List.filter is_operand (node_sub x))
    /\ contents e2 = found (List.filter is_operand (node_sub x)).
Proof.
  intros Hcell Hrep Hs Hty Hw Hflat lg'.
  destruct (io_correct fuel x h lg true Hcell Hrep Hs Hw) as (o1 & h1 & Hrun1 & Hcol1).
  destruct (io_correct fuel x h lg false Hcell Hrep Hs Hw) as (o2 & h2 & Hrun2 & Hcol2).
  rewrite composon_io_eq, Hty, gather_flat in Hrun1, Hcol1, Hrun2, Hcol2 by done.
  simpl in Hrun1, Hcol1, Hrun2, Hcol2.
  apply collected_table in Hcol1 as (_ & e1 & Ht1 & Hc1).
  apply collected_table in Hcol2 as (_ & e2 & Ht2 & Hc2).
  exists o1, h1, e1, o2, h2, e2. auto 10.
Qed.

Lemma table_composon_io_flat_witness :
  exists o1 h1 e1 o2 h2 e2,
    table_composon_inputs 2 (Some 5) (mkState heap_compose [])
      = Return o1 (mkState h1 [])
    /\ table_composon_outputs 2 (Some 5) (mkState heap_compose [])
       = Return o2 (mkState h2 [])
    /\ table_cells (length heap_compose) h1 o1 e1
    /\ table_cells (length heap_compose) h2 o2 e2
    /\ contents e1 = [mkEntry None C_POSITIONAL None None]
    /\ contents e2 = [mkEntry None C_POSITIONAL None None].
Proof.
  apply (table_composon_io_flat heap_compose []
           (ETab 5 (mkEntry None C_COMPOSON (Some 4) None) None
              [ ELeaf 3 (mkEntry None C_POSITIONAL None None) None PNull ]) 2);
    rep_facts.
  all: split; discriminate.
Defined.
(** ** Loops that do not return *)

Lemma bind_stop {A} (m : M A) (k : A -> M A) s :
  (forall a s', m s <> Return a s') -> bind m k s = m s.
Proof. unfold bind. intros H. destruct (m s) eqn:E; try done. by destruct (H a s0). Qed.

(** The loop over the entries of a chain stops with what the body gives at
    the first entry where the body does not return. *)
Lemma for_entries_stop {A} (I : nat -> A -> state -> Prop) (body : option nat -> A -> M A)
    (es : list (nat * Entry)) j le :
  linked es -> es !! j = Some le ->
  (forall k acc s, I k acc s -> stored 0 (mem s) es) ->
  (forall k le' acc s, k < j -> es !! k = Some le' -> I k acc s ->
     exists acc' s', body (Some le'.1) acc s = Return acc' s' /\ I (S k) acc' s') ->
  (forall acc s, I j acc s -> forall a s', body (Some le.1) acc s <> Return a s') ->
  forall fuel acc s, j < fuel -> I 0 acc s ->
  exists acc' s',
    I j acc' s' /\ for_entries fuel (hd_ptr es) acc body s = body (Some le.1) acc' s'.
Proof.
  intros Hlk Hj Hst Hbody Hstop.
  assert (G : forall rest done fuel acc s,
    es = done ++ rest -> length done <= j -> j - length done < fuel ->
    I (length done) acc s ->
    exists acc' s', I j acc' s' /\
      for_entries fuel (first_ptr rest None) acc body s = body (Some le.1) acc' s').
  { induction rest as [|[l e] rest IH]; intros done fuel acc s Hes Hd Hf HI.
    - apply lookup_lt_Some in Hj. subst es. rewrite app_nil_r in Hj. lia.
    - destruct fuel as [|fuel]; [lia|]. simpl.
      assert (Hk : es !! length done = Some (l, e)).
      { subst es. rewrite lookup_app_r by lia. by rewrite Nat.sub_diag. }
      destruct (decide (length done = j)) as [E|N].
      + rewrite E in Hk, HI. rewrite Hj in Hk. injection Hk as ->.
        exists acc, s. split; [exact HI|]. simpl.
        apply bind_stop. by apply Hstop.
      + destruct (Hbody (length done) (l, e) acc s) as (acc1 & s1 & Hb & HI1);
          [lia|exact Hk|exact HI|].
        simpl in Hb. erewrite bind_Return by exact Hb. simpl.
        pose proof (Hst _ _ _ HI1) as Hs1.
        assert (He : mem s1 !! l = Some (CEntry e)).
        { unfold stored in Hs1. rewrite Forall_forall in Hs1.
          destruct (Hs1 (l, e)) as [_ X]; [|exact X].
          apply list_elem_of_lookup. eauto. }
        destruct s1 as [h1 lg1]. simpl in He.
        erewrite bind_Return by (by apply load_entry_run).
        assert (Hnx : e_next e = first_ptr rest None).
        { unfold linked in Hlk. subst es. apply lseg_app in Hlk as [_ Hlk].
          simpl in Hlk. apply Hlk. }
        rewrite Hnx. apply (IH (done ++ [(l, e)])).
        * subst es. by rewrite <- app_assoc.
        * rewrite length_app. simpl. lia.
        * rewrite length_app. simpl. lia.
        * rewrite length_app. simpl. rewrite Nat.add_1_r. exact HI1. }
  intros fuel acc s Hf HI. apply (G es [] fuel acc s); simpl; try done; lia.
Qed.

Lemma lookup_middle_tree (pre : list etree) x post :
  (pre ++ x :: post) !! length pre = Some x.
Proof. rewrite lookup_app_r by lia. by rewrite Nat.sub_diag. Qed.

Lemma cells_of_middle (pre : list etree) x post :
  cells_of (pre ++ x :: post) !! length pre = Some (node_loc x, node_entry x).
Proof. unfold cells_of. by rewrite list_lookup_fmap, lookup_middle_tree. Qed.

Lemma lookup_before (pre : list etree) x post k y :
  k < length pre -> (pre ++ x :: post) !! k = Some y -> y ∈ pre.
Proof.
  intros Hk H. rewrite lookup_app_l in H by done. apply list_elem_of_lookup. eauto.
Qed.

(** ** [table_clone] on an entry it does not copy *)

(** X10: [table_clone] exits when it meets an entry of a type it does not
    copy.  On a well-formed table with such an entry at the top level,
    all the entries before it being copyable, the process exits after
    logging one line; the store that was there is unchanged. *)
Theorem table_clone_exits h lg t pre x post fuel :
  rep_table 0 h (Some t) (pre ++ x :: post) -> Forall clonable pre ->
  cloned_type (node_type x) = false ->
  weights (pre ++ x :: post) < fuel ->
  exists h',
    table_clone fuel (Some t) (mkState h lg) = Exit (mkState h' (lg ++ [msg_clone]))
    /\ h `prefix_of` h'.
Proof.
  intros [Htab Hrep] Hcl Hbad Hw. destruct fuel as [|n]; [lia|].
  rewrite table_clone_S. simpl in Htab. pose proof Htab as [_ Hcell Hlk Hst _].
  erewrite bind_Return by (by apply load_table_run). cbn [t_head].
  set (ts := pre ++ x :: post) in *.
  pose (I := fun (j : nat) (clone : option nat) (s : state) =>
    err s = lg /\ exists ts', clone_inv h (length (mem s)) (mem s) clone ts').
  set (body := fun (e clone : option nat) => _).
  assert (Hstable : forall j acc s, I j acc s -> stored 0 (mem s) (cells_of ts)).
  { intros j acc s [_ (ts' & ([k' E] & _))]. rewrite E. by apply stored_extend. }
  assert (Hbody : forall j le acc s, j < length pre -> cells_of ts !! j = Some le ->
     I j acc s ->
     exists acc' s', body (Some le.1) acc s = Return acc' s' /\ I (S j) acc' s').
  { intros j le acc [h1 lg1] Hlt Hj [Herr (ts' & Hinv)]. simpl in Herr, Hinv. subst lg1.
    apply cells_of_lookup in Hj as (y & Hy & ->). simpl. unfold body.
    assert (Hpre : y ∈ pre) by (by eapply lookup_before).
    assert (Hin : y ∈ ts) by (apply list_elem_of_lookup; eauto).
    destruct (clone_step n h y h1 lg acc ts' (clone_correct n))
      as (clone' & h' & ts'' & R1 & R2 & _).
    + pose proof (weights_elem _ _ Hin). lia.
    + by eapply node_cell.
    + rewrite Forall_forall in Hrep. by apply Hrep.
    + rewrite Forall_forall in Hcl. by apply Hcl.
    + exact Hinv.
    + exists clone', (mkState h' lg). split; [exact R1|]. split; [done|]. eauto. }
  assert (Hx : forall acc h1 ts',
     clone_inv h (length h1) h1 acc ts' ->
     exists h2, body (Some (node_loc x)) acc (mkState h1 lg)
                = Exit (mkState h2 (lg ++ [msg_clone])) /\ h `prefix_of` h2).
  { intros acc h1 ts' Hinv. pose proof Hinv as ([k ->] & _).
    assert (Hin : x ∈ ts) by (apply list_elem_of_lookup; exists (length pre);
                               apply lookup_middle_tree).
    unfold body.
    erewrite bind_Return.
    2:{ apply load_entry_run. apply lookup_extend. by eapply node_cell. }
    cbv beta.
    destruct (id_clone_run (h ++ k) lg (e_id (node_entry x)) (node_id x))
      as (p' & k2 & Hid & _).
    { apply rep_id_extend, rep_node_id. rewrite Forall_forall in Hrep. by apply Hrep. }
    erewrite bind_Return by exact Hid. cbv beta.
    unfold entry_new at 1. unfold alloc at 1.
    unfold node_type in Hbad.
    exists (((h ++ k) ++ k2) ++ [CEntry (mkEntry p' (e_type (node_entry x)) None None)]).
    split.
    - unfold bind at 1. cbn [mem err].
      unfold bind at 1.
      destruct (e_type (node_entry x)); try discriminate Hbad; reflexivity.
    - rewrite <- !app_assoc. by apply prefix_app_r. }
  destruct (for_entries_stop I body (cells_of ts) (length pre) (node_loc x, node_entry x)
              Hlk (cells_of_middle pre x post) Hstable Hbody) with (fuel := n)
              (acc := @None nat) (s := mkState h lg)
    as (acc' & [h1 lg1] & [Herr (ts' & Hinv)] & Hrun).
  - intros acc [h1 lg1] [Herr (ts' & Hinv)] a s'. simpl in Herr, Hinv. subst lg1.
    cbn [fst]. destruct (Hx acc h1 ts' Hinv) as (h2 & -> & _). done.
  - pose proof (weights_length ts). unfold ts in H at 1.
    rewrite length_app in H. simpl in H. lia.
  - split; [done|]. exists []. apply clone_inv_nil.
  - simpl in Herr, Hinv. subst lg1. rewrite Hrun. cbn [fst].
    destruct (Hx acc' h1 ts' Hinv) as (h2 & -> & Hp). eauto.
Qed.

Lemma table_clone_exits_witness :
  exists h',
    table_clone 3 (Some 3) (mkState heap_unclonable [])
      = Exit (mkState h' ([] ++ [msg_clone]))
    /\ heap_unclonable `prefix_of` h'.
Proof.
  apply (table_clone_exits heap_unclonable [] 3
           [ELeaf 1 (mkEntry None C_POSITIONAL (Some 0) (Some 2)) None (PStr "x")]
           (ELeaf 2 (mkEntry None T_TYPE None None) None PNull) [] 3); clone_facts.
Defined.

(** ** Lookups that meet an entry without its nested table *)

Lemma table_recursive_get_null id_cmp tnz n key ty s :
  table_recursive_get id_cmp tnz (S n) None key ty s = Fault.
Proof. reflexivity. Qed.

Lemma table_recursive_get_type_null n ty s :
  table_recursive_get_type (S n) None ty s = Fault.
Proof. reflexivity. Qed.

Lemma get_body_faults id_cmp tnz n key kv ty h0 x h lg out acc :
  h0 !! node_loc x = Some (CEntry (node_entry x)) ->
  rep 0 h0 x -> rep_id 0 h0 key kv ->
  is_recursive (node_type x) = true -> e_value (node_entry x) = None ->
  collected h0 h out acc ->
  (let* m := STCMP id_cmp tnz (Some (node_loc x)) key ty in
   let* out := (if m then table_add out (Some (node_loc x)) else ret out) in
   let* ent := load_entry (Some (node_loc x)) in
   if is_recursive (e_type ent) then
     let* sub := table_recursive_get id_cmp tnz (S n) (e_value ent) key ty in
     table_join out sub
   else ret out) (mkState h lg) = Fault.
Proof.
  intros Hcell Hrep Hkey Hrec Hnull Hcol.
  pose proof Hcol as [[k ->] _].
  erewrite bind_Return.
  2:{ apply STCMP_run; [by apply lookup_extend| |by apply rep_id_extend].
      apply rep_id_extend. by apply rep_node_id. }
  assert (Hadd : exists out1 h1,
    (if stcmp id_cmp tnz (node_id x) kv (e_type (node_entry x)) ty
     then table_add out (Some (node_loc x)) else ret out) (mkState (h0 ++ k) lg)
      = Return out1 (mkState h1 lg) /\ h0 `prefix_of` h1).
  { destruct (stcmp _ _ _ _ _ _).
    - destruct (collected_add h0 (h0 ++ k) lg out acc (node_loc x) (node_entry x) Hcol)
        as (o & h1 & Hrun & [Hp _]); [by apply lookup_extend|]. eauto.
    - exists out, (h0 ++ k). split; [done|]. by apply prefix_app_r. }
  destruct Hadd as (out1 & h1 & Hrun1 & [k1 ->]).
  erewrite bind_Return by exact Hrun1.
  erewrite bind_Return by (apply load_entry_run; by apply lookup_extend).
  cbv beta. unfold node_type in Hrec. rewrite Hrec, Hnull.
  unfold bind at 1. by rewrite table_recursive_get_null.
Qed.

Lemma type_body_faults n ty h0 x h lg out acc :
  h0 !! node_loc x = Some (CEntry (node_entry x)) ->
  is_recursive (node_type x) = true -> e_value (node_entry x) = None ->
  collected h0 h out acc ->
  (let* m := TCMP (Some (node_loc x)) ty in
   let* out := (if m then table_add out (Some (node_loc x)) else ret out) in
   let* ent := load_entry (Some (node_loc x)) in
   if is_recursive (e_type ent) then
     let* down := table_recursive_get_type (S n) (e_value ent) ty in
     table_join out down
   else ret out) (mkState h lg) = Fault.
Proof.
  intros Hcell Hrec Hnull Hcol.
  pose proof Hcol as [[k ->] _].
  erewrite bind_Return by (apply TCMP_run; by apply lookup_extend).
  assert (Hadd : exists out1 h1,
    (if bool_decide (e_type (node_entry x) = ty)
     then table_add out (Some (node_loc x)) else ret out) (mkState (h0 ++ k) lg)
      = Return out1 (mkState h1 lg) /\ h0 `prefix_of` h1).
  { destruct (bool_decide _).
    - destruct (collected_add h0 (h0 ++ k) lg out acc (node_loc x) (node_entry x) Hcol)
        as (o & h1 & Hrun & [Hp _]); [by apply lookup_extend|]. eauto.
    - exists out, (h0 ++ k). split; [done|]. by apply prefix_app_r. }
  destruct Hadd as (out1 & h1 & Hrun1 & [k1 ->]).
  erewrite bind_Return by exact Hrun1.
  erewrite bind_Return by (apply load_entry_run; by apply lookup_extend).
  cbv beta. unfold node_type in Hrec. rewrite Hrec, Hnull.
  unfold bind at 1. by rewrite table_recursive_get_type_null.
Qed.

Lemma get_loop_faults id_cmp tnz n key kv ty h lg pre x post :
  linked (cells_of (pre ++ x :: post)) ->
  stored 0 h (cells_of (pre ++ x :: post)) ->
  Forall (rep 0 h) (pre ++ x :: post) -> Forall searchable pre ->
  rep_id 0 h key kv ->
  is_recursive (node_type x) = true -> e_value (node_entry x) = None ->
  weights (pre ++ x :: post) <= S n ->
  for_entries (S n) (hd_ptr (cells_of (pre ++ x :: post))) None (fun e out =>
     let* m := STCMP id_cmp tnz e key ty in
     let* out := (if m then table_add out e else ret out) in
     let* ent := load_entry e in
     if is_recursive (e_type ent) then
       let* sub := table_recursive_get id_cmp tnz (S n) (e_value ent) key ty in
       table_join out sub
     else ret out) (mkState h lg) = Fault.
Proof.
  intros Hlk Hst Hrep Hs Hkey Hrec Hnull Hw.
  set (ts := pre ++ x :: post) in *.
  pose (I := fun (k : nat) (out : option nat) (s : state) =>
    err s = lg /\ exists acc, collected h (mem s) out acc).
  set (body := fun (e out : option nat) => _).
  assert (Hin : x ∈ ts) by (apply list_elem_of_lookup; exists (length pre);
                             apply lookup_middle_tree).
  assert (Hstable : forall k acc s, I k acc s -> stored 0 (mem s) (cells_of ts)).
  { intros k acc s [_ (a & [[k' E] _])]. rewrite E. by apply stored_extend. }
  assert (Hbody : forall k le acc s, k < length pre -> cells_of ts !! k = Some le ->
     I k acc s ->
     exists acc' s', body (Some le.1) acc s = Return acc' s' /\ I (S k) acc' s').
  { intros k le acc [h1 lg1] Hlt Hk [Herr (a & Hcol)]. simpl in Herr, Hcol. subst lg1.
    apply cells_of_lookup in Hk as (y & Hy & ->). simpl.
    assert (Hpre : y ∈ pre) by (by eapply lookup_before).
    assert (Hyin : y ∈ ts) by (apply list_elem_of_lookup; eauto).
    destruct (get_step id_cmp tnz (S n) key kv ty h y h1 lg acc a
                (table_recursive_get_correct id_cmp tnz key kv ty (S n)))
      with (6 := Hcol) as (out' & h' & Hrun & Hcol').
    + pose proof (weights_elem _ _ Hyin). lia.
    + by eapply node_cell.
    + rewrite Forall_forall in Hrep. by apply Hrep.
    + rewrite Forall_forall in Hs. by apply Hs.
    + exact Hkey.
    + exists out', (mkState h' lg). split; [exact Hrun|]. split; [done|]. eauto. }
  assert (Hx : forall acc h1 a, collected h h1 acc a ->
     body (Some (node_loc x)) acc (mkState h1 lg) = Fault).
  { intros acc h1 a Hcol. unfold body.
    eapply get_body_faults; eauto.
    - by eapply node_cell.
    - rewrite Forall_forall in Hrep. by apply Hrep. }
  destruct (for_entries_stop I body (cells_of ts) (length pre) (node_loc x, node_entry x)
              Hlk (cells_of_middle pre x post) Hstable Hbody) with (fuel := S n)
              (acc := @None nat) (s := mkState h lg)
    as (acc' & [h1 lg1] & [Herr (a & Hcol)] & Hrun).
  - intros acc [h1 lg1] [Herr (a & Hcol)] r s'. simpl in Herr, Hcol. subst lg1.
    cbn [fst]. by erewrite Hx.
  - pose proof (weights_length ts). unfold ts in H at 1.
    rewrite length_app in H. simpl in H. lia.
  - split; [done|]. exists []. apply collected_nil.
  - simpl in Herr, Hcol. subst lg1. rewrite Hrun. cbn [fst]. by erewrite Hx.
Qed.

Lemma type_loop_faults n ty h lg pre x post :
  linked (cells_of (pre ++ x :: post)) ->
  stored 0 h (cells_of (pre ++ x :: post)) ->
  Forall (rep 0 h) (pre ++ x :: post) -> Forall searchable pre ->
  is_recursive (node_type x) = true -> e_value (node_entry x) = None ->
  weights (pre ++ x :: post) <= S n ->
  for_entries (S n) (hd_ptr (cells_of (pre ++ x :: post))) None (fun e out =>
     let* m := TCMP e ty in
     let* out := (if m then table_add out e else ret out) in
     let* ent := load_entry e in
     if is_recursive (e_type ent) then
       let* down := table_recursive_get_type (S n) (e_value ent) ty in
       table_join out down
     else ret out) (mkState h lg) = Fault.
Proof.
  intros Hlk Hst Hrep Hs Hrec Hnull Hw.
  set (ts := pre ++ x :: post) in *.
  pose (I := fun (k : nat) (out : option nat) (s : state) =>
    err s = lg /\ exists acc, collected h (mem s) out acc).
  set (body := fun (e out : option nat) => _).
  assert (Hin : x ∈ ts) by (apply list_elem_of_lookup; exists (length pre);
                             apply lookup_middle_tree).
  assert (Hstable : forall k acc s, I k acc s -> stored 0 (mem s) (cells_of ts)).
  { intros k acc s [_ (a & [[k' E] _])]. rewrite E. by apply stored_extend. }
  assert (Hbody : forall k le acc s, k < length pre -> cells_of ts !! k = Some le ->
     I k acc s ->
     exists acc' s', body (Some le.1) acc s = Return acc' s' /\ I (S k) acc' s').
  { intros k le acc [h1 lg1] Hlt Hk [Herr (a & Hcol)]. simpl in Herr, Hcol. subst lg1.
    apply cells_of_lookup in Hk as (y & Hy & ->). simpl.
    assert (Hpre : y ∈ pre) by (by eapply lookup_before).
    assert (Hyin : y ∈ ts) by (apply list_elem_of_lookup; eauto).
    destruct (type_step (S n) ty h y h1 lg acc a (table_recursive_get_type_correct ty (S n)))
      with (5 := Hcol) as (out' & h' & Hrun & Hcol').
    + pose proof (weights_elem _ _ Hyin). lia.
    + by eapply node_cell.
    + rewrite Forall_forall in Hrep. by apply Hrep.
    + rewrite Forall_forall in Hs. by apply Hs.
    + exists out', (mkState h' lg). split; [exact Hrun|]. split; [done|]. eauto. }
  assert (Hx : forall acc h1 a, collected h h1 acc a ->
     body (Some (node_loc x)) acc (mkState h1 lg) = Fault).
  { intros acc h1 a Hcol. unfold body.
    eapply type_body_faults; eauto. by eapply node_cell. }
  destruct (for_entries_stop I body (cells_of ts) (length pre) (node_loc x, node_entry x)
              Hlk (cells_of_middle pre x post) Hstable Hbody) with (fuel := S n)
              (acc := @None nat) (s := mkState h lg)
    as (acc' & [h1 lg1] & [Herr (a & Hcol)] & Hrun).
  - intros acc [h1 lg1] [Herr (a & Hcol)] r s'. simpl in Herr, Hcol. subst lg1.
    cbn [fst]. by erewrite Hx.
  - pose proof (weights_length ts). unfold ts in H at 1.
    rewrite length_app in H. simpl in H. lia.
  - split; [done|]. exists []. apply collected_nil.
  - simpl in Herr, Hcol. subst lg1. rewrite Hrun. cbn [fst]. by erewrite Hx.
Qed.

(** X11: the lookups that search nested tables enter the table of every
    path, composon and nest entry without testing it for [NULL].  On a
    well-formed table with such an entry whose table is [NULL] at the top
    level, [table_recursive_get], [table_recursive_get_type] and
    [table_path_get] at its base segment dereference the null pointer:
    none of them returns. *)
Theorem lookup_null_nested_faults id_cmp tnz h lg t pre x post key kv ty fuel :
  rep_table 0 h (Some t) (pre ++ x :: post) -> Forall searchable pre ->
  is_recursive (node_type x) = true -> e_value (node_entry x) = None ->
  rep_id 0 h key kv ->
  weights (pre ++ x :: post) < fuel ->
  let s := mkState h lg in
  table_recursive_get id_cmp tnz fuel (Some t) key ty s = Fault
  /\ table_recursive_get_type fuel (Some t) ty s = Fault
  /\ table_path_get id_cmp tnz fuel (Some t) (path_base key) ty s = Fault.
Proof.
  intros [Htab Hrep] Hs Hrec Hnull Hkey Hw s. simpl in Htab.
  pose proof Htab as [_ Hcell Hlk Hst _].
  assert (Hpos : 0 < weights (pre ++ x :: post)).
  { pose proof (weights_length (pre ++ x :: post)) as H.
    rewrite length_app in H. simpl in H. lia. }
  destruct fuel as [|[|n]]; [lia|lia|].
  split; [|split].
  - rewrite table_recursive_get_S. unfold s.
    erewrite bind_Return by (by apply load_table_run). cbn [t_head].
    eapply get_loop_faults; eauto. lia.
  - rewrite table_recursive_get_type_S. unfold s.
    erewrite bind_Return by (by apply load_table_run). cbn [t_head].
    eapply type_loop_faults; eauto. lia.
  - rewrite table_path_get_S. unfold s.
    erewrite bind_Return by (by eapply has_head_run).
    rewrite bool_decide_true.
    2:{ unfold cells_of. rewrite fmap_app. intros E. by apply app_nil in E as [_ E]. }
    cbv beta. cbn [negb].
    erewrite bind_Return by (by apply load_table_run). cbn [t_head path_is_base path_id].
    eapply get_loop_faults; eauto. lia.
Qed.

Lemma lookup_null_nested_faults_witness :
  let s := mkState heap_hollow [] in
  table_recursive_get name_cmp all_nonzero 3 (Some 3) (Some 0) C_MANIFOLD s = Fault
  /\ table_recursive_get_type 3 (Some 3) C_MANIFOLD s = Fault
  /\ table_path_get name_cmp all_nonzero 3 (Some 3) (path_base (Some 0)) C_MANIFOLD s
     = Fault.
Proof.
  apply (lookup_null_nested_faults name_cmp all_nonzero heap_hollow [] 3
           [ELeaf 1 (mkEntry (Some 0) C_MANIFOLD None (Some 2)) (Some id_f) PNull]
           (ELeaf 2 (mkEntry None T_PATH None None) None PNull) []
           (Some 0) (Some id_f) C_MANIFOLD 3); rep_facts.
Defined.
(** ** What sharing does to the second operand of a join *)

Lemma hd_ptr_nil (es : list (nat * Entry)) : hd_ptr es = None -> es = [].
Proof. by destruct es. Qed.

(** In one store, the chain that starts at a given entry is unique. *)
Lemma chain_unique h (es1 es2 : list (nat * Entry)) :
  linked es1 -> linked es2 -> stored 0 h es1 -> stored 0 h es2 ->
  hd_ptr es1 = hd_ptr es2 -> es1 = es2.
Proof.
  unfold linked. revert es2. induction es1 as [|[l1 e1] r1 IH]; intros es2 L1 L2 S1 S2 Hh.
  - symmetry. by apply hd_ptr_nil.
  - destruct es2 as [|[l2 e2] r2]; [done|]. simpl in Hh. injection Hh as <-.
    apply Forall_cons in S1 as [[_ C1] S1]. apply Forall_cons in S2 as [[_ C2] S2].
    simpl in C1, C2. rewrite C1 in C2. injection C2 as <-.
    simpl in L1, L2. destruct L1 as [N1 L1], L2 as [N2 L2].
    f_equal. apply IH; try done. unfold hd_ptr. by rewrite <- N1, <- N2.
Qed.

(** X12: [table_join] leaves [b] sharing its cells with the result, so a
    later [table_add] to the result changes what [b] leads to: the cell of
    [b] is as it was, but the chain that starts at its head now runs on
    into the added entry, past the entry its tail points to.  [b] is no
    longer a well-formed table. *)
Theorem table_join_then_add_invalidates h lg a b ea eb l e :
  is_table 0 h a ea -> is_table 0 h b eb -> ea <> [] -> eb <> [] -> apart ea eb ->
  h !! l = Some (CEntry e) ->
  exists h2 chain,
    (let* r := table_join (Some a) (Some b) in table_add r (Some l)) (mkState h lg)
      = Return (Some a) (mkState h2 lg)
    /\ h2 !! b = Some (CTable (mkTable (hd_ptr eb) (last_ptr eb)))
    /\ chain.*1 = eb.*1 ++ [length h]
    /\ linked chain /\ stored 0 h2 chain
    /\ (forall es, ~ is_table 0 h2 b es).
Proof.
  intros Ha Hb Hna Hnb Hap Hl.
  destruct ea as [|[lt et] ea0 _] using rev_ind; [done|].
  destruct eb as [|[lb elast] eb0 _] using rev_ind; [done|].
  destruct (table_join_cons 0 h lg a ea0 lt et b (eb0 ++ [(lb, elast)]) Ha Hb Hnb Hap)
    as [Hrun Ht].
  set (h1 := <[a:=_]> _) in *.
  set (et' := set_next et _) in *.
  pose proof Ha as [_ Hca _ Hsa _]. pose proof Hb as [_ Hcb _ Hsb _].
  assert (Hlt : h !! lt = Some (CEntry et)).
  { unfold stored in Hsa. rewrite Forall_app, Forall_singleton in Hsa. apply Hsa. }
  assert (Hlb : h !! lb = Some (CEntry elast)).
  { unfold stored in Hsb. rewrite Forall_app, Forall_singleton in Hsb. apply Hsb. }
  assert (Hla : l <> a) by (intros ->; rewrite Hca in Hl; discriminate Hl).
  assert (Hab : a <> b).
  { intros ->. rewrite Hca in Hcb. injection Hcb as Hh _.
    unfold hd_ptr in Hh. rewrite !first_ptr_app in Hh.
    apply (Hap lb).
    - rewrite fmap_app. destruct eb0 as [|[l0 e0] eb0]; simpl in Hh.
      + destruct ea0 as [|[l1 e1] ea0]; simpl in Hh; injection Hh as ->.
        * apply elem_of_app. right. apply list_elem_of_here.
        * simpl. apply list_elem_of_here.
      + exfalso. apply (Hap l0).
        * destruct ea0 as [|[l1 e1] ea0]; simpl in Hh; injection Hh as ->;
            rewrite fmap_app; simpl; [apply list_elem_of_here|apply list_elem_of_here].
        * simpl. apply list_elem_of_here.
    - rewrite fmap_app. apply elem_of_app. right. apply list_elem_of_here. }
  assert (Hl1 : exists e1, h1 !! l = Some (CEntry e1)).
  { unfold h1. rewrite list_lookup_insert_ne by done.
    destruct (decide (l = lt)) as [->|N].
    - rewrite list_lookup_insert_eq by (by eapply lookup_bound). eauto.
    - rewrite list_lookup_insert_ne by done. eauto. }
  destruct Hl1 as [e1 Hl1].
  assert (Ht1 : is_table 0 h1 a ((ea0 ++ (lt, et') :: eb0) ++ [(lb, elast)])).
  { by rewrite <- app_assoc. }
  destruct (table_add_cons 0 h1 lg a _ lb elast l e1 Ht1 Hl1)
    as (h2 & Hrun2 & Ht2 & Hlen2 & _ & Hsame).
  assert (Hlen1 : length h1 = length h) by (unfold h1; by rewrite !length_insert).
  rewrite Hlen1 in Ht2.
  set (chain := eb0 ++ [(lb, set_next elast (Some (length h))); (length h, fields e1)]).
  assert (Hb2 : h2 !! b = Some (CTable (mkTable (hd_ptr (eb0 ++ [(lb, elast)]))
                                           (last_ptr (eb0 ++ [(lb, elast)]))))).
  { rewrite Hsame.
    - unfold h1. rewrite list_lookup_insert_ne by done.
      rewrite list_lookup_insert_ne; [done|].
      intros ->. rewrite Hlt in Hcb. discriminate Hcb.
    - intros ->. rewrite Hlb in Hcb. discriminate Hcb.
    - congruence.
    - rewrite Hlen1. by eapply lookup_bound. }
  pose proof Ht2 as [_ _ Hlk2 Hst2 _].
  rewrite <- app_assoc in Hlk2, Hst2. simpl in Hlk2, Hst2.
  assert (Hchain_lk : linked chain).
  { unfold linked in *. apply lseg_app in Hlk2 as [_ Hlk2]. simpl in Hlk2.
    by destruct Hlk2 as [_ Hlk2]. }
  assert (Hchain_st : stored 0 h2 chain).
  { unfold stored in *. rewrite Forall_app in Hst2. destruct Hst2 as [_ Hst2].
    by apply Forall_cons in Hst2 as [_ Hst2]. }
  exists h2, chain. split; [|split; [exact Hb2|split; [|split; [done|split; [done|]]]]].
  - erewrite bind_Return by exact Hrun. exact Hrun2.
  - unfold chain. rewrite !fmap_app. simpl. by rewrite <- app_assoc.
  - intros es [_ Hc Hlk Hst _]. rewrite Hb2 in Hc. injection Hc as Hhd Hlast.
    assert (es = chain).
    { apply (chain_unique h2); try done. rewrite <- Hhd. unfold chain, hd_ptr.
      rewrite !first_ptr_app. by destruct eb0. }
    subst es. unfold chain in Hlast.
    change (eb0 ++ [(lb, set_next elast (Some (length h))); (length h, fields e1)])
      with (eb0 ++ [(lb, set_next elast (Some (length h)))] ++ [(length h, fields e1)])
      in Hlast.
    rewrite app_assoc, !last_ptr_snoc in Hlast. simpl in Hlast.
    injection Hlast as Hlast. apply lookup_bound in Hlb. lia.
Qed.

Lemma table_join_then_add_invalidates_witness :
  exists h2 chain,
    (let* r := table_join (Some 1) (Some 3) in table_add r (Some 4))
      (mkState heap_three []) = Return (Some 1) (mkState h2 [])
    /\ h2 !! 3 = Some (CTable (mkTable (hd_ptr [(2, mkEntry None C_POSITIONAL None None)])
                                 (last_ptr [(2, mkEntry None C_POSITIONAL None None)])))
    /\ chain.*1 = [(2, mkEntry None C_POSITIONAL None None)].*1 ++ [length heap_three]
    /\ linked chain /\ stored 0 h2 chain
    /\ (forall es, ~ is_table 0 h2 3 es).
Proof.
  apply (table_join_then_add_invalidates heap_three [] 1 3 [(0, ex_manifold None)]
           [(2, mkEntry None C_POSITIONAL None None)] 4 (mkEntry None C_GRPREF None None));
    first [discriminate|table_facts].
Defined.
(** ** Joining a table with itself *)

Lemma lseg_next_in (es all : list (nat * Entry)) q :
  lseg es q -> (forall le, le ∈ es -> le ∈ all) ->
  (exists x, x ∈ all /\ q = Some x.1) ->
  forall le, le ∈ es -> exists le', le' ∈ all /\ e_next le.2 = Some le'.1.
Proof.
  induction es as [|[l e] r IH]; intros Hl Hsub Hq le Hin.
  - by apply elem_of_nil in Hin.
  - simpl in Hl. destruct Hl as [Hn Hl].
    apply elem_of_cons in Hin as [->|Hin].
    + simpl. rewrite Hn. destruct r as [|y r]; simpl.
      * exact Hq.
      * exists y. split; [|done]. apply Hsub. apply list_elem_of_further, list_elem_of_here.
    + apply IH; try done. intros x Hx. apply Hsub. by apply list_elem_of_further.
Qed.

(** A loop over a chain whose last entry links back to the first never
    comes to its end. *)
Lemma for_entries_cycle {A} (I : A -> state -> Prop) (body : option nat -> A -> M A)
    (es : list (nat * Entry)) :
  es <> [] -> lseg es (hd_ptr es) ->
  (forall acc s, I acc s -> stored 0 (mem s) es) ->
  (forall le acc s, le ∈ es -> I acc s ->
     exists acc' s', body (Some le.1) acc s = Return acc' s' /\ I acc' s') ->
  forall fuel le acc s, le ∈ es -> I acc s ->
    for_entries fuel (Some le.1) acc body s = Timeout.
Proof.
  intros Hne Hl Hst Hbody. induction fuel as [|fuel IH]; intros le acc s Hin HI; [done|].
  simpl. destruct (Hbody le acc s Hin HI) as (acc1 & [h1 lg1] & Hb & HI1).
  erewrite bind_Return by exact Hb.
  pose proof (stored_lookup _ _ _ _ (Hst _ _ HI1) Hin) as Hc. simpl in Hc.
  erewrite bind_Return by (by apply load_entry_run).
  destruct (lseg_next_in es es (hd_ptr es) Hl) with (le := le) as (le' & Hin' & ->);
    try done.
  - destruct es as [|x es]; [done|]. exists x. split; [apply list_elem_of_here|done].
  - by apply IH.
Qed.

(** X13: [table_join] does not test its operands for being the same table.
    Joining a non-empty table with itself returns it with its last entry
    linked back to its first, and a traversal of the table then never
    ends: [table_get] runs out of every amount of fuel, whatever the key
    and the type. *)
Theorem table_join_self_never_ends id_cmp tnz h lg a ts key kv ty :
  rep_table 0 h (Some a) ts -> ts <> [] -> rep_id 0 h key kv ->
  exists h',
    table_join (Some a) (Some a) (mkState h lg) = Return (Some a) (mkState h' lg)
    /\ length h' = length h
    /\ forall fuel, table_get id_cmp tnz fuel (Some a) key ty (mkState h' lg) = Timeout.
Proof.
  intros [Htab Hrep] Hne Hkey. simpl in Htab.
  destruct ts as [|x ts0 _] using rev_ind; [done|]. clear Hne.
  rewrite cells_of_app in Htab. simpl in Htab.
  set (es0 := cells_of ts0) in *. set (lt := node_loc x) in *. set (et := node_entry x) in *.
  pose proof Htab as [_ Hca Hlk Hst Hnd].
  assert (Hlt : h !! lt = Some (CEntry et)).
  { unfold stored in Hst. rewrite Forall_app, Forall_singleton in Hst. apply Hst. }
  assert (Hlta : lt <> a) by (intros E; rewrite E, Hca in Hlt; discriminate Hlt).
  set (hd := hd_ptr (es0 ++ [(lt, et)])) in *.
  set (h1 := <[lt := CEntry (set_next et hd)]> h).
  set (h' := <[a := CTable (mkTable hd (last_ptr (es0 ++ [(lt, et)])))]> h1).
  set (es' := es0 ++ [(lt, set_next et hd)]).
  assert (Hhd' : hd_ptr es' = hd).
  { unfold es', hd, hd_ptr. rewrite !first_ptr_app. by destruct es0. }
  assert (Ha1 : h1 !! a = Some (CTable (mkTable hd (last_ptr (es0 ++ [(lt, et)]))))).
  { unfold h1. by rewrite list_lookup_insert_ne. }
  assert (Hrun : table_join (Some a) (Some a) (mkState h lg) = Return (Some a) (mkState h' lg)).
  { unfold table_join.
    erewrite bind_Return by (by eapply has_head_run).
    rewrite bool_decide_true by (by destruct es0).
    erewrite bind_Return by (by eapply has_head_run).
    rewrite bool_decide_true by (by destruct es0).
    erewrite bind_Return; [reflexivity|].
    unfold _join.
    erewrite bind_Return by (by apply load_table_run).
    erewrite bind_Return by (by apply load_table_run).
    cbn [t_tail t_head]. rewrite last_ptr_snoc. cbn [fst].
    erewrite bind_Return by (by apply load_entry_run).
    erewrite bind_Return by (apply store_run; by eapply lookup_bound).
    fold hd. fold h1.
    erewrite bind_Return by (by apply load_table_run).
    erewrite bind_Return by (by apply load_table_run).
    cbn [set_tail t_head t_tail].
    rewrite store_run by (unfold h1; rewrite length_insert; by eapply lookup_bound).
    unfold h'. by rewrite last_ptr_snoc. }
  exists h'. split; [exact Hrun|]. split; [unfold h', h1; by rewrite !length_insert|].
  assert (Ha' : h' !! a = Some (CTable (mkTable hd (last_ptr (es0 ++ [(lt, et)]))))).
  { unfold h'. apply list_lookup_insert_eq. unfold h1. rewrite length_insert.
    by eapply lookup_bound. }
  (* the chain after the join *)
  rewrite fmap_app in Hnd. apply NoDup_app in Hnd as (_ & Hnd & _).
  assert (Hst' : stored 0 h' es').
  { unfold stored in *. rewrite Forall_app in Hst. destruct Hst as [Hst0 _].
    unfold es'. rewrite Forall_app, Forall_singleton. split.
    - apply stored_insert.
      + apply stored_insert; [exact Hst0|].
        intros Hin. apply (Hnd _ Hin). simpl. apply list_elem_of_here.
      + intros Hin. destruct (stored_entry _ _ _ _ Hst0 Hin) as [e He].
        rewrite Hca in He. discriminate He.
    - split; [simpl; lia|]. simpl. unfold h'. rewrite list_lookup_insert_ne by done.
      unfold h1. apply list_lookup_insert_eq. by eapply lookup_bound. }
  assert (Hl' : lseg es' (hd_ptr es')).
  { rewrite Hhd'. unfold es'. eapply lseg_relink. exact Hlk. }
  assert (Hids : Forall (fun le => exists i, rep_id 0 h' (e_id le.2) i) es').
  { assert (Hid0 : forall y, rep 0 h y -> exists i, rep_id 0 h' (e_id (node_entry y)) i).
    { intros y Hy. exists (node_id y). unfold h'. apply rep_id_insert.
      - unfold h1. apply rep_id_insert; [by apply rep_node_id|].
        intros v. rewrite Hlt. discriminate.
      - intros v. rewrite Ha1. discriminate. }
    apply Forall_app in Hrep as [Hrep0 Hrepx]. rewrite Forall_singleton in Hrepx.
    unfold es'. rewrite Forall_app, Forall_singleton. split.
    - unfold es0, cells_of. rewrite Forall_fmap. eapply Forall_impl; [exact Hrep0|].
      intros y Hy. simpl. by apply Hid0.
    - destruct (Hid0 x Hrepx) as [i Hi]. exists i. exact Hi. }
  assert (Hkey' : rep_id 0 h' key kv).
  { unfold h'. apply rep_id_insert.
    - unfold h1. apply rep_id_insert; [done|]. intros v. rewrite Hlt. discriminate.
    - intros v. rewrite Ha1. discriminate. }
  intros fuel. unfold table_get.
  erewrite bind_Return by (by apply load_table_run). cbn [t_head].
  pose (I := fun (out : option nat) (s : state) =>
    err s = lg /\ exists acc, collected h' (mem s) out acc).
  set (body := fun (e out : option nat) => _).
  assert (Hhd : exists le0, le0 ∈ es' /\ hd = Some le0.1).
  { rewrite <- Hhd'. unfold es'. destruct es0 as [|y es0]; simpl.
    - eexists. split; [apply list_elem_of_here|done].
    - exists y. split; [apply list_elem_of_here|done]. }
  destruct Hhd as (le0 & Hin0 & ->).
  apply (for_entries_cycle I body es'); try done.
  - by destruct es0.
  - intros acc s [_ (a0 & [[k E] _])]. rewrite E. by apply stored_extend.
  - intros [l e] out [h2 lg2] Hin [Herr (acc & Hcol)]. simpl in Herr, Hcol. subst lg2.
    pose proof Hcol as [[k ->] _]. unfold body. cbn [fst].
    rewrite Forall_forall in Hids. destruct (Hids _ Hin) as [i Hi]. simpl in Hi.
    pose proof (stored_lookup _ _ _ _ Hst' Hin) as Hc. simpl in Hc.
    erewrite bind_Return.
    2:{ apply STCMP_run; [by apply lookup_extend|by apply rep_id_extend
                          |by apply rep_id_extend]. }
    destruct (stcmp _ _ _ _ _ _).
    + destruct (collected_add _ _ lg _ _ l e Hcol) as (out' & h3 & Hr & Hcol');
        [by apply lookup_extend|].
      exists out', (mkState h3 lg). split; [exact Hr|]. split; [done|]. eauto.
    + exists out, (mkState (h' ++ k) lg). split; [done|]. split; [done|]. eauto.
  - split; [done|]. exists []. apply collected_nil.
Qed.

Lemma table_join_self_never_ends_witness :
  exists h',
    table_join (Some 6) (Some 6) (mkState heap_scope []) = Return (Some 6) (mkState h' [])
    /\ length h' = length heap_scope
    /\ forall fuel, table_get name_cmp all_nonzero fuel (Some 6) (Some 1) C_MANIFOLD
                      (mkState h' []) = Timeout.
Proof.
  apply (table_join_self_never_ends name_cmp all_nonzero heap_scope [] 6 forest_scope
           (Some 1) (Some id_f) C_MANIFOLD); first [discriminate|rep_facts].
Defined.
(** ** Looking up in the result of a lookup *)

Lemma fields_eq e e' :
  fields e' = fields e ->
  e_id e' = e_id e /\ e_type e' = e_type e /\ e_value e' = e_value e.
Proof. destruct e, e'. unfold fields, set_next. simpl. intros [= -> -> ->]. done. Qed.

Lemma rep_relocate h x l e :
  rep 0 h x -> fields e = fields (node_entry x) -> rep 0 h (relocate x l e).
Proof.
  intros Hr He. apply fields_eq in He as (Hi & Ht & Hv).
  destruct x as [l0 e0 i p|l0 e0 i sub].
  - simpl in *. by rewrite Hi, Hv.
  - apply rep_tab_unfold in Hr. simpl relocate. apply rep_tab_unfold.
    simpl in Hi, Hv. by rewrite Hi, Hv.
Qed.

Lemma matches_relocate id_cmp tnz k ty x l e :
  fields e = fields (node_entry x) ->
  matches id_cmp tnz k ty (relocate x l e) = matches id_cmp tnz k ty x.
Proof.
  intros He. apply fields_eq in He as (_ & Ht & _).
  unfold matches, node_type. destruct x; simpl in *; by rewrite Ht.
Qed.

(** The cells of a result are the nodes that were found, relocated. *)
Lemma result_forest h id_cmp tnz k ty (xs : list etree) (es : list (nat * Entry)) :
  contents es = found xs -> Forall (rep 0 h) xs ->
  Forall (fun x => matches id_cmp tnz k ty x = true) xs ->
  exists ts', cells_of ts' = es /\ Forall (rep 0 h) ts'
    /\ Forall (fun x => matches id_cmp tnz k ty x = true) ts'.
Proof.
  revert es. induction xs as [|x xs IH]; intros es Hc Hr Hm.
  - destruct es; [|discriminate Hc]. by exists [].
  - destruct es as [|[l e] es]; [discriminate Hc|].
    assert (He : fields e = fields (node_entry x)).
    { apply (f_equal head) in Hc.
      change (Some (fields e) = Some (fields (node_entry x))) in Hc.
      by apply (inj Some) in Hc. }
    apply (f_equal tail) in Hc. simpl in Hc.
    change (contents es = found xs) in Hc.
    apply Forall_cons in Hr as [Hx Hr]. apply Forall_cons in Hm as [Hmx Hm].
    destruct (IH es Hc Hr Hm) as (ts' & E & Hr' & Hm').
    exists (relocate x l e :: ts'). split; [|split].
    + unfold cells_of in *. rewrite fmap_cons, E. by destruct x.
    + constructor; [by apply rep_relocate|done].
    + constructor; [by rewrite matches_relocate|done].
Qed.

Lemma filter_all {A} (f : A -> bool) (l : list A) :
  Forall (fun x => f x = true) l -> List.filter f l = l.
Proof. induction 1 as [|x l Hx _ IH]; [done|]. simpl. by rewrite Hx, IH. Qed.

Lemma filter_matches_all {A} (f : A -> bool) (l : list A) :
  Forall (fun x => f x = true) (List.filter f l).
Proof.
  rewrite Forall_forall. intros x Hx. apply list_elem_of_In in Hx.
  by apply List.filter_In in Hx as [_ Hx].
Qed.

Lemma filter_rep h (f : etree -> bool) (l : list etree) :
  Forall (rep 0 h) l -> Forall (rep 0 h) (List.filter f l).
Proof.
  rewrite !Forall_forall. intros H x Hx. apply H. apply list_elem_of_In in Hx.
  apply List.filter_In in Hx as [Hx _]. by apply list_elem_of_In.
Qed.

(** X14: looking up, with [table_get], in the result of [table_get] for
    the same key and type finds the same entries again, in order, when
    the first lookup found something.  When it found nothing its result is
    [NULL], on which [table_get] dereferences the null pointer. *)
Theorem table_get_twice id_cmp tnz h lg t ts key kv ty fuel :
  rep_table 0 h (Some t) ts -> rep_id 0 h key kv -> length ts <= fuel ->
  exists out h1 es1,
    table_get id_cmp tnz fuel (Some t) key ty (mkState h lg)
      = Return out (mkState h1 lg)
    /\ table_cells (length h) h1 out es1
    /\ (out = None ->
          table_get id_cmp tnz fuel out key ty (mkState h1 lg) = Fault)
    /\ (out <> None ->
          exists out2 h2 es2,
            table_get id_cmp tnz fuel out key ty (mkState h1 lg)
              = Return out2 (mkState h2 lg)
            /\ table_cells (length h1) h2 out2 es2
            /\ contents es2 = contents es1).
Proof.
  intros Hrep Hk Hf. pose proof Hrep as [_ Hr].
  destruct (table_get_correct id_cmp tnz key kv ty fuel ts h t lg Hrep Hk Hf)
    as (out & h1 & Hrun & Hcol).
  apply collected_table in Hcol as ([k ->] & es1 & Ht1 & Hc1).
  exists out, (h ++ k), es1. split; [exact Hrun|]. split; [exact Ht1|]. split.
  - intros ->. reflexivity.
  - intros Hne. destruct out as [t1|]; [clear Hne|done]. simpl in Ht1.
    destruct (result_forest (h ++ k) id_cmp tnz kv ty _ es1 Hc1)
      as (ts' & E & Hr' & Hm').
    { apply filter_rep. eapply Forall_impl; [exact Hr|]. intros x. apply rep_extend. }
    { apply filter_matches_all. }
    subst es1.
    destruct (table_get_correct id_cmp tnz key kv ty fuel ts' (h ++ k) t1 lg)
      as (out2 & h2 & Hrun2 & Hcol2).
    { split; [|exact Hr']. simpl. eapply is_table_weaken; [|exact Ht1]. lia. }
    { by apply rep_id_extend. }
    { assert (length ts' = length (cells_of ts')) by (by rewrite length_cells_of).
      assert (length (contents (cells_of ts')) = length (cells_of ts')).
      { unfold contents. by rewrite !length_fmap. }
      rewrite Hc1 in H0. unfold found in H0. rewrite length_fmap in H0.
      pose proof (List.filter_length_le (matches id_cmp tnz kv ty) ts). lia. }
    rewrite filter_all in Hcol2 by done.
    apply collected_table in Hcol2 as (_ & es2 & Ht2 & Hc2).
    exists out2, h2, es2. split; [exact Hrun2|]. split; [exact Ht2|].
    rewrite Hc2. unfold contents, found, cells_of.
    rewrite <- !list_fmap_compose. done.
Qed.

Lemma table_get_twice_witness :
  exists out h1 es1,
    table_get name_cmp all_nonzero 2 (Some 6) (Some 1) C_MANIFOLD (mkState heap_scope [])
      = Return out (mkState h1 [])
    /\ table_cells (length heap_scope) h1 out es1
    /\ (out = None ->
          table_get name_cmp all_nonzero 2 out (Some 1) C_MANIFOLD (mkState h1 []) = Fault)
    /\ (out <> None ->
          exists out2 h2 es2,
            table_get name_cmp all_nonzero 2 out (Some 1) C_MANIFOLD (mkState h1 [])
              = Return out2 (mkState h2 [])
            /\ table_cells (length h1) h2 out2 es2
            /\ contents es2 = contents es1).
Proof.
  apply (table_get_twice name_cmp all_nonzero heap_scope [] 6 forest_scope
           (Some 1) (Some id_f) C_MANIFOLD 2); rep_facts.
Defined.

(** ** [table_new] *)

(** X15: [table_new] on an entry allocates the table cell and then an
    isolated copy of the entry: it returns a fresh well-formed table of
    that one cell and leaves the store that was there unchanged.  Adding
    the entry to [NULL] with [table_add] gives a table of one cell with
    the same fields, the two cells being allocated in the other order. *)
Theorem table_new_single h lg l e :
  h !! l = Some (CEntry e) ->
  exists h',
    table_new (Some l) (mkState h lg) = Return (Some (length h)) (mkState h' lg)
    /\ h `prefix_of` h'
    /\ is_table (length h) h' (length h) [(S (length h), fields e)]
    /\ exists t2 h2,
         table_add None (Some l) (mkState h lg) = Return (Some t2) (mkState h2 lg)
         /\ is_table (length h) h2 t2 [(length h, fields e)].
Proof.
  intros Hl.
  set (n := length h).
  exists (h ++ [CTable (mkTable (Some (S n)) (Some (S n))); CEntry (fields e)]).
  split; [|split; [by apply prefix_app_r|split]].
  - unfold table_new.
    erewrite bind_Return by apply alloc_run. fold n.
    erewrite bind_Return.
    2:{ apply entry_isolate_run. by apply lookup_extend. }
    rewrite length_app. simpl length. fold n. rewrite Nat.add_1_r.
    erewrite bind_Return.
    2:{ apply load_table_run. rewrite lookup_app_l by (rewrite length_app; simpl; lia).
        by apply lookup_fresh. }
    erewrite bind_Return.
    2:{ apply store_run. rewrite !length_app. simpl. lia. }
    erewrite bind_Return.
    2:{ apply load_table_run. apply list_lookup_insert_eq. rewrite !length_app. simpl. lia. }
    erewrite bind_Return.
    2:{ apply store_run. rewrite length_insert, !length_app. simpl. lia. }
    unfold ret. f_equal. f_equal.
    rewrite list_insert_insert_eq. cbn [set_tail t_head].
    rewrite <- app_assoc. simpl.
    rewrite insert_app_r_alt by lia. fold n. rewrite Nat.sub_diag. reflexivity.
  - split.
    + done.
    + rewrite lookup_app_r by (fold n; lia). fold n. by rewrite Nat.sub_diag.
    + unfold linked. simpl. done.
    + unfold stored. apply Forall_singleton. split; [simpl; lia|]. simpl.
      rewrite lookup_app_r by (fold n; lia). fold n.
      by replace (S n - n) with 1 by lia.
    + simpl. apply NoDup_singleton.
  - destruct (table_add_null h lg l e Hl) as [Hrun Ht]. eauto.
Qed.

Lemma table_new_single_witness :
  exists h',
    table_new (Some 2) (mkState heap_three []) = Return (Some 6) (mkState h' [])
    /\ heap_three `prefix_of` h'
    /\ is_table 6 h' 6 [(7, mkEntry None C_POSITIONAL None None)]
    /\ exists t2 h2,
         table_add None (Some 2) (mkState heap_three []) = Return (Some t2) (mkState h2 [])
         /\ is_table 6 h2 t2 [(6, mkEntry None C_POSITIONAL None None)].
Proof.
  apply (table_new_single heap_three [] 2 (mkEntry None C_POSITIONAL None None)).
  reflexivity.
Defined.

(** ** [ws_access.c]: splitting twice, and the recursion rules *)

(** X16: the couplets [ws_split_couplet] returns are not split further:
    when every alternative of the left-hand side is a path, a label or a
    name, each couplet of the result is split into itself alone. *)
Theorem ws_split_couplet_stable c s out s' :
  ws_split_couplet c s = Return out s' ->
  (forall l, g_lhs (Some c) = Some l -> cls l = K_LIST ->
     Forall simple_lhs (g_ws (Some l))) ->
  Forall (fun c' => ws_split_couplet c' s' = Return [c'] s') out.
Proof.
  intros Hrun Hs. destruct c as [| | | | |k l r]; try discriminate Hrun.
  specialize (Hs l eq_refl). unfold ws_split_couplet in Hrun. simpl in Hrun.
  assert (Hone : forall k p r st, simple_lhs p ->
            ws_split_couplet (W_couplet k p r) st = Return [W_couplet k p r] st).
  { intros k0 p r0 st [E|[E|E]]; unfold ws_split_couplet; simpl; by rewrite E. }
  unfold bind, eprint, ret in Hrun.
  destruct (cls l) eqn:Hc;
    try (injection Hrun as <- <-; apply Forall_nil_2);
    try (injection Hrun as <- <-; apply Forall_singleton, Hone;
         unfold simple_lhs; rewrite Hc; by auto).
  specialize (Hs eq_refl). destruct l as [| | | |c0 ps|]; simpl in *;
    try discriminate Hrun.
  destruct ps as [|p ps]; [discriminate Hrun|].
  injection Hrun as <- <-. rewrite foldl_ws_add. simpl app.
  change (W_couplet k p r :: ((fun p0 : W => W_couplet k p0 r) <$> ps))
    with ((fun p0 : W => W_couplet k p0 r) <$> (p :: ps)).
  rewrite Forall_fmap. eapply Forall_impl; [exact Hs|].
  intros q Hq. simpl. by apply Hone.
Qed.

Lemma ws_split_couplet_stable_witness :
  Forall (fun c' => ws_split_couplet c' (mkState [] []) = Return [c'] (mkState [] []))
    [ W_couplet T_TYPE w_label_a (W_string K_NAME "t");
      W_couplet T_TYPE w_label_b (W_string K_NAME "t") ].
Proof.
  apply (ws_split_couplet_stable
           (W_couplet T_TYPE (W_ws K_LIST [w_label_a; w_label_b]) (W_string K_NAME "t"))
           (mkState [] [])).
  - reflexivity.
  - intros l [= <-] _. simpl.
    apply Forall_cons. split; [right; left; reflexivity|].
    apply Forall_singleton. right; left; reflexivity.
Defined.

(** X17: [ws_recurse_most] extends [ws_recurse_ws]: what the second
    returns is the beginning of what the first returns, the two agree on
    every node that is not a couplet, and on a couplet the second returns
    nothing.  Each rule returns groups that hold a sequence, two at most
    for the first and one at most for the second. *)
Theorem ws_recurse_most_extends_ws (w_is_recursive : option W -> bool) (w : option W) :
  ws_recurse_ws w `prefix_of` ws_recurse_most w_is_recursive w
  /\ (forall x, w = Some x -> value_type x <> V_COUPLET ->
        ws_recurse_most w_is_recursive w = ws_recurse_ws w)
  /\ (forall x, w = Some x -> value_type x = V_COUPLET -> ws_recurse_ws w = [])
  /\ length (ws_recurse_most w_is_recursive w) <= 2
  /\ length (ws_recurse_ws w) <= 1
  /\ Forall (fun g => value_type g = V_WS /\ cls g = P_WS)
       (ws_recurse_most w_is_recursive w).
Proof.
  destruct w as [x|]; simpl.
  2:{ repeat split; try done; lia. }
  destruct x as [c|c y|c y|c y|c ys|c l r]; simpl.
  6:{ split; [apply prefix_nil|]. split; [by intros ? [= <-] ?|].
      split; [done|].
      destruct (w_is_recursive (Some l)), (w_is_recursive (Some r)); simpl;
        repeat split; try lia; repeat constructor. }
  all: split; [done|]; split; [done|]; split; [by intros ? [= <-] ?|];
    repeat split; try lia; repeat constructor.
Qed.
(** ** Entries without the payload their type calls for *)

(** X18: [table_clone] passes the string of a positional or
    group-reference entry to [strdup] without testing it.  On a
    well-formed table with such an entry whose string is [NULL] at the top
    level, all the entries before it being copyable, [table_clone]
    dereferences the null pointer: it does not return. *)
Theorem table_clone_null_string_faults h lg t pre x post fuel :
  rep_table 0 h (Some t) (pre ++ x :: post) -> Forall clonable pre ->
  node_type x = C_POSITIONAL \/ node_type x = C_GRPREF ->
  e_value (node_entry x) = None ->
  weights (pre ++ x :: post) < fuel ->
  table_clone fuel (Some t) (mkState h lg) = Fault.
Proof.
  intros [Htab Hrep] Hcl Hty Hnull Hw. destruct fuel as [|n]; [lia|].
  rewrite table_clone_S. simpl in Htab. pose proof Htab as [_ Hcell Hlk Hst _].
  erewrite bind_Return by (by apply load_table_run). cbn [t_head].
  set (ts := pre ++ x :: post) in *.
  pose (I := fun (j : nat) (clone : option nat) (s : state) =>
    err s = lg /\ exists ts', clone_inv h (length (mem s)) (mem s) clone ts').
  set (body := fun (e clone : option nat) => _).
  assert (Hstable : forall j acc s, I j acc s -> stored 0 (mem s) (cells_of ts)).
  { intros j acc s [_ (ts' & ([k' E] & _))]. rewrite E. by apply stored_extend. }
  assert (Hbody : forall j le acc s, j < length pre -> cells_of ts !! j = Some le ->
     I j acc s ->
     exists acc' s', body (Some le.1) acc s = Return acc' s' /\ I (S j) acc' s').
  { intros j le acc [h1 lg1] Hlt Hj [Herr (ts' & Hinv)]. simpl in Herr, Hinv. subst lg1.
    apply cells_of_lookup in Hj as (y & Hy & ->). simpl. unfold body.
    assert (Hpre : y ∈ pre) by (by eapply lookup_before).
    assert (Hin : y ∈ ts) by (apply list_elem_of_lookup; eauto).
    destruct (clone_step n h y h1 lg acc ts' (clone_correct n))
      as (clone' & h' & ts'' & R1 & R2 & _).
    + pose proof (weights_elem _ _ Hin). lia.
    + by eapply node_cell.
    + rewrite Forall_forall in Hrep. by apply Hrep.
    + rewrite Forall_forall in Hcl. by apply Hcl.
    + exact Hinv.
    + exists clone', (mkState h' lg). split; [exact R1|]. split; [done|]. eauto. }
  assert (Hx : forall acc h1 ts',
     clone_inv h (length h1) h1 acc ts' ->
     body (Some (node_loc x)) acc (mkState h1 lg) = Fault).
  { intros acc h1 ts' Hinv. pose proof Hinv as ([k ->] & _).
    assert (Hin : x ∈ ts) by (apply list_elem_of_lookup; exists (length pre);
                               apply lookup_middle_tree).
    unfold body.
    erewrite bind_Return.
    2:{ apply load_entry_run. apply lookup_extend. by eapply node_cell. }
    cbv beta.
    destruct (id_clone_run (h ++ k) lg (e_id (node_entry x)) (node_id x))
      as (p' & k2 & Hid & _).
    { apply rep_id_extend, rep_node_id. rewrite Forall_forall in Hrep. by apply Hrep. }
    erewrite bind_Return by exact Hid. cbv beta.
    unfold entry_new at 1. unfold alloc at 1.
    unfold node_type in Hty. rewrite Hnull.
    unfold bind at 1. cbn [mem err]. unfold bind at 1.
    destruct Hty as [-> | ->]; reflexivity. }
  destruct (for_entries_stop I body (cells_of ts) (length pre) (node_loc x, node_entry x)
              Hlk (cells_of_middle pre x post) Hstable Hbody) with (fuel := n)
              (acc := @None nat) (s := mkState h lg)
    as (acc' & [h1 lg1] & [Herr (ts' & Hinv)] & Hrun).
  - intros acc [h1 lg1] [Herr (ts' & Hinv)] a s'. simpl in Herr, Hinv. subst lg1.
    cbn [fst]. by erewrite Hx.
  - pose proof (weights_length ts). unfold ts in H at 1.
    rewrite length_app in H. simpl in H. lia.
  - split; [done|]. exists []. apply clone_inv_nil.
  - simpl in Herr, Hinv. subst lg1. rewrite Hrun. cbn [fst]. by erewrite Hx.
Qed.

Lemma table_clone_null_string_faults_witness :
  table_clone 3 (Some 3) (mkState heap_nameless []) = Fault.
Proof.
  apply (table_clone_null_string_faults heap_nameless [] 3
           [ELeaf 1 (mkEntry None C_POSITIONAL (Some 0) (Some 2)) None (PStr "x")]
           (ELeaf 2 (mkEntry None C_POSITIONAL None None) None PNull) [] 3);
    first [by left|clone_facts].
Defined.

(** ** The two recursive searches compared *)

Lemma matches_has_type id_cmp tnz k ty x :
  matches id_cmp tnz k ty x = true -> has_type ty x = true.
Proof.
  unfold matches, stcmp, has_type. destruct (node_id x), k; try done.
  intros H. apply andb_prop in H as [_ H]. by apply andb_prop in H as [_ H].
Qed.

Lemma filter_filter_matches id_cmp tnz k ty (l : list etree) :
  List.filter (matches id_cmp tnz k ty) (List.filter (has_type ty) l) =
  List.filter (matches id_cmp tnz k ty) l.
Proof.
  induction l as [|x l IH]; [done|]. simpl.
  destruct (has_type ty x) eqn:Ht; simpl; rewrite IH; [done|].
  destruct (matches id_cmp tnz k ty x) eqn:Hm; [|done].
  apply matches_has_type in Hm. congruence.
Qed.

(** X19: [table_recursive_get] returns those of the entries
    [table_recursive_get_type] returns for the same type whose identifier
    matches the key, in the same order. *)
Theorem table_recursive_get_within_type id_cmp tnz h lg t ts key kv ty fuel :
  rep_table 0 h (Some t) ts -> Forall searchable ts -> rep_id 0 h key kv ->
  weights ts < fuel ->
  let typed := List.filter (has_type ty) (flattens_by is_recursive ts) in
  exists o1 h1 e1 o2 h2 e2,
    table_recursive_get id_cmp tnz fuel (Some t) key ty (mkState h lg)
      = Return o1 (mkState h1 lg)
    /\ table_recursive_get_type fuel (Some t) ty (mkState h lg)
       = Return o2 (mkState h2 lg)
    /\ table_cells (length h) h1 o1 e1
    /\ table_cells (length h) h2 o2 e2
    /\ contents e2 = found typed
    /\ contents e1 = found (List.filter (matches id_cmp tnz kv ty) typed).
Proof.
  intros Hrep Hs Hk Hw typed.
  destruct (table_recursive_get_correct id_cmp tnz key kv ty fuel ts h t lg Hrep Hs Hk Hw)
    as (o1 & h1 & Hrun1 & Hcol1).
  destruct (table_recursive_get_type_correct ty fuel ts h t lg Hrep Hs Hw)
    as (o2 & h2 & Hrun2 & Hcol2).
  apply collected_table in Hcol1 as (_ & e1 & Ht1 & Hc1).
  apply collected_table in Hcol2 as (_ & e2 & Ht2 & Hc2).
  exists o1, h1, e1, o2, h2, e2.
  split; [done|]. split; [done|]. split; [done|]. split; [done|]. split; [done|].
  unfold typed. by rewrite filter_filter_matches, <- preorder_gets_filter.
Qed.

Lemma table_recursive_get_within_type_witness :
  exists o1 h1 e1 o2 h2 e2,
    table_recursive_get name_cmp all_nonzero 4 (Some 6) (Some 1) C_MANIFOLD
      (mkState heap_scope []) = Return o1 (mkState h1 [])
    /\ table_recursive_get_type 4 (Some 6) C_MANIFOLD (mkState heap_scope [])
       = Return o2 (mkState h2 [])
    /\ table_cells (length heap_scope) h1 o1 e1
    /\ table_cells (length heap_scope) h2 o2 e2
    /\ contents e2 =
       found (List.filter (has_type C_MANIFOLD) (flattens_by is_recursive forest_scope))
    /\ contents e1 =
       found (List.filter (matches name_cmp all_nonzero (Some id_f) C_MANIFOLD)
                (List.filter (has_type C_MANIFOLD)
                   (flattens_by is_recursive forest_scope))).
Proof.
  apply (table_recursive_get_within_type name_cmp all_nonzero heap_scope [] 6
           forest_scope (Some 1) (Some id_f) C_MANIFOLD 4); rep_facts.
Defined.
(** X20: [_table_composon_io] reads the head or the tail of the table of
    every path and nest entry without testing the table for [NULL].  On a
    composon with such an entry whose table is [NULL], the entries before
    it being well-formed, the extraction of inputs and of outputs
    dereferences the null pointer: neither returns. *)
Theorem table_composon_io_null_nested_faults h lg l e i pre y post fuel :
  h !! l = Some (CEntry e) -> rep 0 h (ETab l e i (pre ++ y :: post)) ->
  is_composon_or_nest (e_type e) = true -> Forall searchable pre ->
  node_type y = T_PATH \/ node_type y = C_NEST ->
  e_value (node_entry y) = None ->
  weight (ETab l e i (pre ++ y :: post)) <= fuel ->
  table_composon_inputs fuel (Some l) (mkState h lg) = Fault
  /\ table_composon_outputs fuel (Some l) (mkState h lg) = Fault.
Proof.
  intros Hcell Hrep Hty Hs Hyt Hnull Hw.
  assert (G : forall is_input : bool,
    _table_composon_io fuel (Some l) is_input (mkState h lg) = Fault); [|split; apply G].
  intros is_input. rewrite weight_tab in Hw. destruct fuel as [|k]; [lia|].
  apply rep_tab_unfold in Hrep as (_ & (t' & Hv & Htab) & Hsub).
  pose proof Htab as [_ Ht' Hlk Hst _].
  rewrite _table_composon_io_S.
  erewrite bind_Return by (by apply TCMP_run). cbv beta.
  erewrite bind_Return by (by apply TCMP_run). cbv beta.
  unfold is_composon_or_nest in Hty. rewrite Hty. cbn [negb].
  erewrite bind_Return by (by apply load_entry_run). cbv beta.
  rewrite Hv.
  erewrite bind_Return by (by apply load_table_run). cbn [t_head].
  set (body := pre ++ y :: post) in *.
  pose (I := fun (j : nat) (out : option nat) (s : state) =>
    exists acc, collected h (mem s) out acc).
  set (body' := fun (e result : option nat) => _).
  assert (Hstable : forall j acc s, I j acc s -> stored 0 (mem s) (cells_of body)).
  { intros j acc s (a & [[k' E] _]). rewrite E. by apply stored_extend. }
  assert (Hbody : forall j le acc s, j < length pre -> cells_of body !! j = Some le ->
     I j acc s ->
     exists acc' s', body' (Some le.1) acc s = Return acc' s' /\ I (S j) acc' s').
  { intros j le acc [h1 lg1] Hlt Hj (a & Hcol). simpl in Hcol.
    apply cells_of_lookup in Hj as (z & Hz & ->). simpl. unfold body'.
    assert (Hpre : z ∈ pre) by (by eapply lookup_before).
    assert (Hin : z ∈ body) by (apply list_elem_of_lookup; eauto).
    destruct (io_step k is_input h z h1 lg1 acc a (io_correct k))
      with (5 := Hcol) as (out' & h' & Hrun & Hcol').
    + pose proof (weights_elem _ _ Hin). lia.
    + by eapply node_cell.
    + rewrite Forall_forall in Hsub. by apply Hsub.
    + rewrite Forall_forall in Hs. by apply Hs.
    + eexists out', _. split; [exact Hrun|]. eexists. exact Hcol'. }
  assert (Hy : forall acc h1 lg1 a, collected h h1 acc a ->
     body' (Some (node_loc y)) acc (mkState h1 lg1) = Fault).
  { intros acc h1 lg1 a [[k1 ->] _]. unfold body'.
    assert (Hin : y ∈ body) by (apply list_elem_of_lookup; exists (length pre);
                                 apply lookup_middle_tree).
    erewrite bind_Return.
    2:{ apply load_entry_run. apply lookup_extend. by eapply node_cell. }
    cbv beta. unfold node_type in Hyt. rewrite Hnull.
    destruct Hyt as [-> | ->]; reflexivity. }
  destruct (for_entries_stop I body' (cells_of body) (length pre) (node_loc y, node_entry y)
              Hlk (cells_of_middle pre y post) Hstable Hbody) with (fuel := k)
              (acc := @None nat) (s := mkState h lg)
    as (acc' & [h1 lg1] & (a & Hcol) & Hrun).
  - intros acc [h1 lg1] (a & Hcol) r s'. simpl in Hcol. cbn [fst]. by erewrite Hy.
  - pose proof (weights_length body). unfold body in H at 1.
    rewrite length_app in H. simpl in H. lia.
  - exists []. apply collected_nil.
  - simpl in Hcol. rewrite Hrun. cbn [fst]. by erewrite Hy.
Qed.

Lemma table_composon_io_null_nested_faults_witness :
  table_composon_inputs 3 (Some 3) (mkState heap_open_nest []) = Fault
  /\ table_composon_outputs 3 (Some 3) (mkState heap_open_nest []) = Fault.
Proof.
  apply (table_composon_io_null_nested_faults heap_open_nest [] 3
           (mkEntry None C_COMPOSON (Some 2) None) None
           [ELeaf 0 (mkEntry None C_MANIFOLD None (Some 1)) None PNull]
           (ELeaf 1 (mkEntry None C_NEST None None) None PNull) []);
    first [by right|rep_facts].
Defined.
(** X21: where the path-aware rule [ws_recurse_path] descends without
    comparing labels (into a nest, and into a qualified path when the
    left-hand side of the couplet has one segment), the composition rule
    [ws_recurse_composition] descends into the same sequence, which it
    returns as one group of class nest.  Into a composon or a deref the
    composition rule descends as well, the path-aware rule does not. *)
Theorem ws_recurse_composition_wraps_path label_cmp assert_failure w p s :
  value_type p = V_COUPLET ->
  (cls w = C_NEST \/ (cls w = T_PATH /\ ws_length (g_ws (g_lhs (Some p))) = 1) ->
     exists seq,
       ws_recurse_path label_cmp assert_failure w p s = Return seq s
       /\ ws_recurse_composition (Some w) = [W_ws C_NEST seq])
  /\ (cls w = C_COMPOSON \/ cls w = C_DEREF ->
        ws_recurse_path label_cmp assert_failure w p s = Return [] s
        /\ ws_recurse_composition (Some w) = [W_ws C_NEST (g_ws (Some w))]).
Proof.
  intros Hp. unfold ws_recurse_path, w_assert_type, ws_recurse_composition, ws_add_val.
  rewrite bool_decide_true by done. split.
  - intros [E|[E L]]; rewrite E.
    + by exists (g_ws (Some w)).
    + exists (g_ws (g_rhs (Some w))). split; [|done].
      unfold bind, ret. by rewrite bool_decide_true.
  - by intros [E|E]; rewrite E.
Qed.

Lemma ws_recurse_composition_wraps_path_witness :
  exists seq,
    ws_recurse_path label_name_cmp fault w_tpath
      (W_couplet T_TYPE (W_ws K_PATH [w_label_a]) (W_string K_NAME "t")) (mkState [] [])
      = Return seq (mkState [] [])
    /\ ws_recurse_composition (Some w_tpath) = [W_ws C_NEST seq].
Proof.
  refine (proj1 (ws_recurse_composition_wraps_path label_name_cmp fault w_tpath
                   (W_couplet T_TYPE (W_ws K_PATH [w_label_a]) (W_string K_NAME "t"))
                   (mkState [] []) _) _).
  - reflexivity.
  - right. split; reflexivity.
Defined.
(** ** Printing a table *)

Lemma _table_dump_r_S entry_print n t depth out :
  _table_dump_r entry_print (S n) (Some t) depth out =
  (let* tb := load_table (Some t) in
   let* out := for_entries n (t_head tb) out (fun e out =>
     let out := out ++ indentation depth in
     let* printed := (fun s => Return (entry_print (mem s) e) s) in
     let out := out ++ printed in
     let* ent := load_entry e in
     if is_recursive (e_type ent) then
       let* r := _table_dump_r entry_print n (e_value ent) (depth + 1) out in
       ret r.2
     else ret out) in
   ret (true, out)).
Proof. reflexivity. Qed.

Lemma _table_dump_r_null entry_print n depth out s :
  _table_dump_r entry_print n None depth out s = Return (false, out) s.
Proof. destruct n; reflexivity. Qed.

Lemma dump_lines_tab entry_print h d l e i sub :
  dump_lines entry_print h d (ETab l e i sub) =
  indentation d ++ entry_print h (Some l) ++
  (if is_recursive (e_type e)
   then concat (dump_lines entry_print h (S d) <$> sub) else []).
Proof.
  simpl. do 2 f_equal. destruct (is_recursive (e_type e)); [|done].
  induction sub as [|y r IH]; [done|]. rewrite fmap_cons.
  change (concat (?a :: ?b)) with (a ++ concat b). by rewrite IH.
Qed.

Lemma dumpable_tab l e i sub :
  dumpable (ETab l e i sub) <->
  (is_recursive (e_type e) = true -> Forall dumpable sub).
Proof.
  simpl. assert (G : (fix all (ts : list etree) : Prop :=
                        match ts with
                        | [] => True
                        | y :: r => dumpable y /\ all r
                        end) sub <-> Forall dumpable sub).
  { induction sub as [|y r IH]; [split; [constructor|done]|].
    rewrite Forall_cons. by rewrite IH. }
  by rewrite G.
Qed.

Lemma dump_correct entry_print n : dump_ok entry_print n.
Proof.
  induction n as [|n IH]; intros ts h tp lg depth out [Htab Hrep] Hd Hw; [lia|].
  destruct tp as [t|]; simpl in Htab.
  2:{ apply cells_of_nil in Htab. subst ts. simpl. by rewrite app_nil_r. }
  rewrite _table_dump_r_S. pose proof Htab as [_ Hcell Hlk Hst _].
  erewrite bind_Return by (by apply load_table_run). cbn [t_head].
  pose (I := fun (k : nat) (o : list string) (s : state) =>
    s = mkState h lg /\
    o = out ++ concat (dump_lines entry_print h depth <$> take k ts)).
  set (body := fun (e : option nat) (o : list string) => _).
  assert (Hstable : forall k acc s, I k acc s -> stored 0 (mem s) (cells_of ts)).
  { by intros k acc s [-> _]. }
  assert (Hbody : forall k le acc s, cells_of ts !! k = Some le -> I k acc s ->
     exists acc' s', body (Some le.1) acc s = Return acc' s' /\ I (S k) acc' s').
  { intros k le acc s Hk [-> ->].
    apply cells_of_lookup in Hk as (x & Hx & ->). cbn [fst]. unfold body.
    assert (Hin : x ∈ ts) by (apply list_elem_of_lookup; eauto).
    assert (Hxd : dumpable x) by (rewrite Forall_forall in Hd; by apply Hd).
    assert (Hxr : rep 0 h x) by (rewrite Forall_forall in Hrep; by apply Hrep).
    assert (Hxw : weight x <= n) by (pose proof (weights_elem _ _ Hin); lia).
    unfold bind at 1. cbn [mem].
    erewrite bind_Return by (apply load_entry_run; by eapply node_cell).
    eexists _, (mkState h lg). split.
    2:{ split; [done|]. erewrite take_S_r by exact Hx.
        rewrite fmap_app, concat_app. simpl. rewrite app_nil_r.
        rewrite app_assoc. reflexivity. }
    destruct x as [l e i p|l e i sub]; cbn [node_entry node_loc].
    - simpl in Hxd. simpl dump_lines. rewrite app_nil_r.
      destruct (is_recursive (e_type e)) eqn:Hr.
      + rewrite Hxd by done. erewrite bind_Return by apply _table_dump_r_null. simpl.
        by rewrite <- !app_assoc.
      + by rewrite <- !app_assoc.
    - rewrite dump_lines_tab.
      destruct (is_recursive (e_type e)) eqn:Hr.
      + apply rep_tab_unfold in Hxr as (_ & (t' & Hv & Htab') & Hsub).
        rewrite Hv. rewrite weight_tab in Hxw.
        erewrite bind_Return.
        2:{ apply (IH sub h (Some t') lg); [by split| |lia].
            by apply (proj1 (dumpable_tab _ _ _ _) Hxd). }
        simpl. rewrite Nat.add_1_r. by rewrite <- !app_assoc.
      + rewrite app_nil_r. by rewrite <- !app_assoc. }
  destruct (for_entries_ind I body (cells_of ts) Hlk Hstable Hbody n out (mkState h lg))
    as (o & s' & Hrun & -> & ->).
  - rewrite length_cells_of. pose proof (weights_length ts). lia.
  - split; [done|]. simpl. by rewrite app_nil_r.
  - erewrite bind_Return by exact Hrun.
    rewrite length_cells_of, firstn_all. reflexivity.
Qed.

(** X22: [table_dump] writes a rule, then the entries of the table in
    pre-order, each after two characters of indentation for every level of
    nesting (blanks at even levels, a dot and a blank at odd ones), and
    then a rule again.  It enters the nested table of every path, composon
    and nest entry and, unlike the lookups, passes over such an entry
    whose table is [NULL].  The store and the error log are unchanged. *)
Theorem table_dump_preorder entry_print h lg tp ts out fuel :
  rep_table 0 h tp ts -> Forall dumpable ts -> weights ts < fuel ->
  table_dump entry_print fuel tp out (mkState h lg) =
  Return (out ++ [dump_rule] ++ concat (dump_lines entry_print h 0 <$> ts)
              ++ [dump_rule]) (mkState h lg).
Proof.
  intros Hrep Hd Hw. unfold table_dump.
  erewrite bind_Return by (by apply dump_correct).
  simpl. by rewrite <- !app_assoc.
Qed.

Lemma table_dump_preorder_witness :
  table_dump print_loc 4 (Some 4) [] (mkState heap_dump []) =
  Return [dump_rule; "e0"; "e3"; "  "; "e1"; dump_rule] (mkState heap_dump []).
Proof.
  apply (table_dump_preorder print_loc heap_dump [] (Some 4) forest_dump [] 4);
    rep_facts.
  all: repeat (apply Forall_cons; split); try apply Forall_nil_2; simpl; try done.
  all: intros _; repeat split; done.
Defined.
